(** * magpylib: field of a charged triangle and the TriangularMesh validation cache

    A shallow embedding of
    - [magpylib/_src/fields/field_BH_triangle.py]
      ([vcross3], [norm_vector], [solid_angle], [triangle_field]), and
    - [magpylib/_src/obj_classes/class_magnet_TriangularMesh.py]
      ([_validate_error_arg], [is_closed], [is_connected], [get_faces_subsets],
      [mesh_status], [reorient_faces], [_input_check], [__init__]), and
    - [magpylib/_lib/display/disp_utility.py] ([faces_box], [system_size]).

    Numbers are IEEE-754 binary64 values, as numpy's float64 arrays hold them:
    [spec_float] with precision 53 and [emax] 1024, every operation rounded
    to nearest-even by the standard library's executable specification.
    [np.log] and [np.arctan2] come from the platform's libm; they are a
    parameter of the model ([Libm]) constrained only on the IEEE special
    values ([IEEE_libm]).

    The TriangularMesh methods run in a small monad that threads the object
    state, the log of emitted warnings and external calls, and a possibly
    raised exception (the state survives a raise, as in Python). *)

From Stdlib Require Import ZArith List Bool String Lia Permutation.
From Stdlib Require Import Floats.SpecFloat.
From Stdlib Require QArith Qcanon.
Import ListNotations.

Set Implicit Arguments.

(* ================================================================== *)
(** * Part I: definitions *)
(* ================================================================== *)

(** ** binary64 arithmetic *)

Module B64.

Definition F := spec_float.

Definition prec : Z := 53.
Definition emax : Z := 1024.

Definition add : F -> F -> F := SFadd prec emax.
Definition sub : F -> F -> F := SFsub prec emax.
Definition mul : F -> F -> F := SFmul prec emax.
Definition div : F -> F -> F := SFdiv prec emax.
Definition sqrt : F -> F := SFsqrt prec emax.
Definition opp : F -> F := SFopp.
Definition fabs : F -> F := SFabs.

(** [x > y] as numpy evaluates it: false as soon as one side is NaN. *)
Definition gtb (x y : F) : bool := SFltb y x.

(** Equality of values ([==]): [+0 == -0], and NaN equals nothing. *)
Definition eqb (x y : F) : bool := SFeqb x y.

Definition pzero : F := S754_zero false.
Definition nzero : F := S754_zero true.
Definition pinf : F := S754_infinity false.
Definition ninf : F := S754_infinity true.
Definition nan : F := S754_nan.

(** The literals of the source, each the binary64 value nearest to its
    decimal spelling. *)
Definition one : F := S754_finite false 4503599627370496 (-52).
Definition two : F := S754_finite false 4503599627370496 (-51).
Definition four : F := S754_finite false 4503599627370496 (-50).
(** [np.pi] = 0x1.921fb54442d18p+1 = 3.141592653589793 *)
Definition pi : F := S754_finite false 7074237752028440 (-51).
(** [6.2831853] = 0x1.921fb53c8d4f1p+2 *)
Definition sangle_cut : F := S754_finite false 7074237743944945 (-50).
(** [1.0e-12] = 0x1.19799812dea11p-40 *)
Definition ind_cut : F := S754_finite false 4951760157141521 (-92).
(** [2 * np.pi] = 0x1.921fb54442d18p+2 = 6.283185307179586 *)
Definition two_pi : F := S754_finite false 7074237752028440 (-50).
(** [np.pi / 2] = 0x1.921fb54442d18p+0 *)
Definition half_pi : F := S754_finite false 7074237752028440 (-52).

Definition is_nan (x : F) : bool :=
  match x with S754_nan => true | _ => false end.

(** A number: a zero or a finite non-zero value (neither NaN nor infinite). *)
Definition is_finite (x : F) : bool :=
  match x with S754_zero _ | S754_finite _ _ _ => true | _ => false end.

Definition is_zero (x : F) : bool :=
  match x with S754_zero _ => true | _ => false end.

Definition sign_bit (x : F) : bool :=
  match x with
  | S754_zero s | S754_infinity s | S754_finite s _ _ => s
  | S754_nan => false
  end.

(** Strictly negative values, [-inf] included (zeros and NaN excluded). *)
Definition is_neg (x : F) : bool :=
  match x with
  | S754_infinity true | S754_finite true _ _ => true
  | _ => false
  end.

(** Strictly positive values, [+inf] included. *)
Definition is_pos (x : F) : bool :=
  match x with
  | S754_infinity false | S754_finite false _ _ => true
  | _ => false
  end.

(** Not a number in the arithmetic sense: NaN or an infinity. *)
Definition nonfinite (x : F) : Prop := is_finite x = false.

(** A zero of either sign, or NaN: what the difference of two equal
    values is, and everything computed from it by products and sums. *)
Definition zero_or_nan (x : F) : Prop :=
  match x with S754_zero _ | S754_nan => True | _ => False end.

(** Functions that map what is not a number to what is not a number, and
    NaN to NaN. *)
Definition strict (f : F -> F) : Prop :=
  (forall x, nonfinite x -> nonfinite (f x)) /\ f nan = nan.

(** The binary64 value of an integer, and [x * 2^k]. *)
Definition of_Z (k : Z) : F := binary_normalize prec emax k 0 false.
Definition ldexp (x : F) (k : Z) : F := SFldexp prec emax x k.

End B64.

Declare Scope b64_scope.
Delimit Scope b64_scope with b64.
Bind Scope b64_scope with B64.F.
Infix "+" := B64.add : b64_scope.
Infix "-" := B64.sub : b64_scope.
Infix "*" := B64.mul : b64_scope.
Infix "/" := B64.div : b64_scope.
Notation "- x" := (B64.opp x) : b64_scope.

(** ** The libm functions numpy calls *)

(** [np.log] and [np.arctan2] are not defined by the repository: numpy
    forwards them to the platform's libm, whose results on ordinary
    arguments are not fixed bit for bit.  The model takes them as a
    parameter. *)
Record Libm : Type := {
  log : B64.F -> B64.F;
  arctan2 : B64.F -> B64.F -> B64.F
}.

(** What C99 Annex F (and with it numpy) fixes about the two functions on
    the IEEE special values; nothing is assumed about the rounding of
    ordinary results beyond their being numbers. *)
Record IEEE_libm (lm : Libm) : Prop := {
  log_nan : log lm B64.nan = B64.nan;
  log_pinf : log lm B64.pinf = B64.pinf;
  log_zero : forall s, log lm (S754_zero s) = B64.ninf;
  log_neg : forall x, B64.is_neg x = true -> log lm x = B64.nan;
  log_finite : forall m e, B64.is_finite (log lm (S754_finite false m e)) = true;
  arctan2_nan_l : forall x, arctan2 lm B64.nan x = B64.nan;
  arctan2_nan_r : forall y, arctan2 lm y B64.nan = B64.nan;
  arctan2_zero_pos : forall s x,
    B64.is_pos x = true \/ x = B64.pzero ->
    arctan2 lm (S754_zero s) x = S754_zero s;
  arctan2_zero_neg : forall s x,
    B64.is_neg x = true \/ x = B64.nzero ->
    arctan2 lm (S754_zero s) x = (if s then B64.opp B64.pi else B64.pi);
  arctan2_y_zero : forall y s,
    B64.is_pos y = true \/ B64.is_neg y = true ->
    arctan2 lm y (S754_zero s) =
    (if B64.sign_bit y then B64.opp B64.half_pi else B64.half_pi);
  arctan2_finite : forall y x,
    B64.is_nan y = false -> B64.is_nan x = false ->
    B64.is_finite (arctan2 lm y x) = true
}.

(** A coarse implementation of the interface.  It is exact on the special
    values and crude elsewhere: the logarithm interpolates linearly between
    powers of two, the arc tangent answers with the middle of the quadrant.
    It serves to run the model on concrete inputs. *)
Module Coarse.
Import B64.

(** ln 2 = 0x1.62e42fefa39efp-1 *)
Definition ln2 : F := S754_finite false 6243314768165359 (-53).
(** pi/4 and 3 pi/4 *)
Definition quarter_pi : F := S754_finite false 7074237752028440 (-53).
Definition three_quarter_pi : F := S754_finite false 5305678314021330 (-51).

Definition log (x : F) : F :=
  match x with
  | S754_nan => nan
  | S754_zero _ => ninf
  | S754_infinity false => pinf
  | S754_infinity true => nan
  | S754_finite true _ _ => nan
  | S754_finite false m e =>
      let k := (e + Zpos (digits2_pos m) - 1)%Z in
      let f := ldexp x (- k) in
      let y := mul (add (of_Z k) (sub f one)) ln2 in
      if is_finite y then y else pzero
  end.

Definition with_sign (s : bool) (x : F) : F := if s then opp x else x.

Definition arctan2 (y x : F) : F :=
  match y, x with
  | S754_nan, _ | _, S754_nan => nan
  | S754_zero s, S754_zero false => S754_zero s
  | S754_zero s, S754_zero true => with_sign s pi
  | S754_zero s, (S754_infinity sx | S754_finite sx _ _) =>
      if sx then with_sign s pi else S754_zero s
  | (S754_infinity s | S754_finite s _ _), S754_zero _ => with_sign s half_pi
  | S754_finite s _ _, S754_infinity sx =>
      if sx then with_sign s pi else S754_zero s
  | S754_infinity s, S754_infinity sx =>
      with_sign s (if sx then three_quarter_pi else quarter_pi)
  | S754_infinity s, S754_finite _ _ _ => with_sign s half_pi
  | S754_finite s _ _, S754_finite sx _ _ =>
      with_sign s (if sx then three_quarter_pi else quarter_pi)
  end.

Definition libm : Libm := Build_Libm log arctan2.
End Coarse.

(** ** numpy arrays of fixed small shape *)

(** A triple: an axis of length 3. *)
Definition T3 (A : Type) : Type := (A * A * A)%type.

Definition t3_0 {A} (t : T3 A) : A := fst (fst t).
Definition t3_1 {A} (t : T3 A) : A := snd (fst t).
Definition t3_2 {A} (t : T3 A) : A := snd t.

Definition t3map {A B} (f : A -> B) (t : T3 A) : T3 B :=
  (f (t3_0 t), f (t3_1 t), f (t3_2 t)).

Definition t3map2 {A B C} (f : A -> B -> C) (t : T3 A) (u : T3 B) : T3 C :=
  (f (t3_0 t) (t3_0 u), f (t3_1 t) (t3_1 u), f (t3_2 t) (t3_2 u)).

(** A point or vector of 3-space. *)
Definition vec3 : Type := T3 B64.F.

(** Elementwise binary and ternary operations on arrays of one shape (the
    callers pass co-indexed batches; numpy rejects other shapes). *)
Fixpoint map2 {A B C} (f : A -> B -> C) (l1 : list A) (l2 : list B) : list C :=
  match l1, l2 with
  | x :: l1', y :: l2' => f x y :: map2 f l1' l2'
  | _, _ => []
  end.

Fixpoint map3 {A B C D} (f : A -> B -> C -> D)
    (l1 : list A) (l2 : list B) (l3 : list C) : list D :=
  match l1, l2, l3 with
  | x :: l1', y :: l2', z :: l3' => f x y z :: map3 f l1' l2' l3'
  | _, _, _ => []
  end.

Module Np.
Import B64.
Local Open Scope b64_scope.

(** shape (n,) *)
Definition arr1 : Type := list F.
(** shape (n,3) *)
Definition arr2 : Type := list vec3.
(** shape (3,n) *)
Definition arr2T : Type := T3 arr1.
(** shape (n,3,3) *)
Definition arr3 : Type := list (T3 vec3).
(** shape (3,n,3) *)
Definition arr3s : Type := T3 arr2.

(** [a + b], [a - b], [a * b], [a / b] on shape (n,) *)
Definition add1 : arr1 -> arr1 -> arr1 := map2 add.
Definition sub1 : arr1 -> arr1 -> arr1 := map2 sub.
Definition mul1 : arr1 -> arr1 -> arr1 := map2 mul.
Definition div1 : arr1 -> arr1 -> arr1 := map2 div.

(** [c * a] and [c / a] for a Python scalar [c], and [- a] *)
Definition smul1 (c : F) : arr1 -> arr1 := map (mul c).
Definition sdiv1 (c : F) : arr1 -> arr1 := map (div c).
Definition neg1 : arr1 -> arr1 := map opp.

(** [a[:, 0]], [a[:, 1]], [a[:, 2]] on shape (n,3) *)
Definition col0 (a : arr2) : arr1 := map (@t3_0 F) a.
Definition col1 (a : arr2) : arr1 := map (@t3_1 F) a.
Definition col2 (a : arr2) : arr1 := map (@t3_2 F) a.

(** [a.T]: shape (3,n) to (n,3) and back *)
Definition transpose (t : arr2T) : arr2 :=
  map3 (fun x y z => (x, y, z)) (t3_0 t) (t3_1 t) (t3_2 t).
Definition transposeT (a : arr2) : arr2T := (col0 a, col1 a, col2 a).

(** [a - b] on shape (n,3) *)
Definition sub2 : arr2 -> arr2 -> arr2 := map2 (t3map2 sub).
(** [a * b] on shape (n,3) *)
Definition mul2 : arr2 -> arr2 -> arr2 := map2 (t3map2 mul).

(** The sum over an axis of length 3, accumulated from its first entry. *)
Definition sum3 (v : vec3) : F := (t3_0 v + t3_1 v) + t3_2 v.

(** [np.sum(a, axis=-1)] on shape (n,3) *)
Definition sum_last (a : arr2) : arr1 := map sum3 a.

(** [np.einsum("ij, ij->i", a, b)] *)
Definition dot3 (a b : vec3) : F := sum3 (t3map2 mul a b).
Definition einsum_ij_ij_i (a b : arr2) : arr1 := map2 dot3 a b.

(** [np.linalg.norm(a, axis=-1)]: the square root of the summed squares *)
Definition linalg_norm (a : arr2) : arr1 := map sqrt (sum_last (mul2 a a)).

(** [a / np.expand_dims(s, axis=-1)] *)
Definition div_rows (a : arr2) (s : arr1) : arr2 :=
  map2 (fun v x => t3map (fun c => c / x) v) a s.

(** [a / c] on shape (n,3), [c] a Python scalar *)
Definition sdiv2 (a : arr2) (c : F) : arr2 := map (t3map (fun x => x / c)) a.

(** [np.where(c, x, y)] *)
Definition where_ (c : list bool) (x y : arr1) : arr1 :=
  map3 (fun (b : bool) u v => if b then u else v) c x y.

(** [vertices[:, k]] on shape (n,3,3) *)
Definition vertex0 (v : arr3) : arr2 := map (@t3_0 vec3) v.
Definition vertex1 (v : arr3) : arr2 := map (@t3_1 vec3) v.
Definition vertex2 (v : arr3) : arr2 := map (@t3_2 vec3) v.

(** [np.swapaxes(v, 0, 1)]: shape (n,3,3) to (3,n,3) *)
Definition swapaxes01 (v : arr3) : arr3s := (vertex0 v, vertex1 v, vertex2 v).
End Np.

(** ** field_BH_triangle.py *)

Module field_BH_triangle.
Import B64 Np.
Local Open Scope b64_scope.

(** The [field] argument. *)
Inductive field_kind : Type := FieldB | FieldH.

(** Modelled from the spec: [check_field_input] lives in
    [magpylib._src.input_checks], which is not part of the sources at hand.
    The field kind is one of B and H; the check answers [True] for B and
    [False] for H. *)
Definition check_field_input (field : field_kind) : bool :=
  match field with FieldB => true | FieldH => false end.

(** Modelled from the spec: [MU0] is imported from [magpylib._src.utility],
    which is not part of the sources at hand.  It is the vacuum
    permeability, 4 pi 1e-7 = 0x1.515370f99f6cbp-20 =
    1.2566370614359173e-06. *)
Definition MU0 : F := S754_finite false 5934300740056779 (-72).

(** *** The batched functions, as the source writes them *)

Definition vcross3 (a b : arr2) : arr2 :=
  let result : arr2T :=
    ( sub1 (mul1 (col1 a) (col2 b)) (mul1 (col2 a) (col1 b)),
      sub1 (mul1 (col2 a) (col0 b)) (mul1 (col0 a) (col2 b)),
      sub1 (mul1 (col0 a) (col1 b)) (mul1 (col1 a) (col0 b)) ) in
  transpose result.

Definition norm_vector (v : arr3) : arr2 :=
  let a := sub2 (vertex1 v) (vertex0 v) in
  let b := sub2 (vertex2 v) (vertex0 v) in
  let n := vcross3 a b in
  let n_norm := linalg_norm n in
  div_rows n n_norm.

(** [np.einsum("ij, ijk -> jk", I, L)]: the sum over the first axis of
    [I[i,j] * L[i,j,k]]. *)
Definition scale_rows (s : arr1) (a : arr2) : arr2 :=
  map2 (fun x v => t3map (mul x) v) s a.
Definition add2 : arr2 -> arr2 -> arr2 := map2 (t3map2 add).
Definition einsum_ij_ijk_jk (I : arr2T) (L : arr3s) : arr2 :=
  add2 (add2 (scale_rows (t3_0 I) (t3_0 L)) (scale_rows (t3_1 I) (t3_1 L)))
       (scale_rows (t3_2 I) (t3_2 L)).

Section WithLibm.
Variable lm : Libm.

Definition solid_angle (R : arr3s) (r : arr2T) : arr1 :=
  let N := einsum_ij_ij_i (t3_2 R) (vcross3 (t3_1 R) (t3_0 R)) in
  let D :=
    add1 (add1 (add1
      (mul1 (mul1 (t3_0 r) (t3_1 r)) (t3_2 r))
      (mul1 (einsum_ij_ij_i (t3_2 R) (t3_1 R)) (t3_0 r)))
      (mul1 (einsum_ij_ij_i (t3_2 R) (t3_0 R)) (t3_1 r)))
      (mul1 (einsum_ij_ij_i (t3_1 R) (t3_0 R)) (t3_2 r)) in
  let result := smul1 two (map2 (arctan2 lm) N D) in
  where_ (map (fun x => gtb (fabs x) sangle_cut) result)
         (map (fun _ => pzero) result)
         result.

(** The block of [triangle_field] between the comment "vert-vert --
    vert-obs" and the contraction to [PQR]: from [R], [L] and their
    squared norms and norms it computes [I], the line integral along
    each of the three edges, for every row. *)
Definition edge_integrals (R L : arr3s) (r2 r l2 l : arr2T) : arr2T :=
  let b : arr2T := t3map2 einsum_ij_ij_i R L in
  let bl : arr2T := t3map2 div1 b l in
  let ind : arr2T := t3map (map fabs) (t3map2 add1 r bl) in
  let cond := t3map (map (fun x => gtb x ind_cut)) ind in
  let near :=
    t3map2 mul1 (t3map (sdiv1 one) l)
      (t3map (map (log lm))
        (t3map2 div1
          (t3map2 add1
            (t3map2 add1
              (t3map (map sqrt)
                (t3map2 add1 (t3map2 add1 l2 (t3map (smul1 two) b)) r2))
              l)
            bl)
          ind)) in
  let far :=
    t3map2 mul1 (t3map neg1 (t3map (sdiv1 one) l))
      (t3map (map (log lm))
        (t3map2 div1 (t3map (map fabs) (t3map2 sub1 l r)) r)) in
  (where_ (t3_0 cond) (t3_0 near) (t3_0 far),
   where_ (t3_1 cond) (t3_1 near) (t3_1 far),
   where_ (t3_2 cond) (t3_2 near) (t3_2 far)).

(** [R = np.swapaxes(vertices, 0, 1) - observers] *)
Definition vertex_observer (observers : arr2) (vertices : arr3) : arr3s :=
  t3map (fun a => sub2 a observers) (swapaxes01 vertices).

(** [L = vertices[:, (1, 2, 0)] - vertices[:, (0, 1, 2)]], axes swapped *)
Definition vertex_vertex (vertices : arr3) : arr3s :=
  swapaxes01
    (map2 (t3map2 (t3map2 sub))
      (map (fun t : T3 vec3 => (t3_1 t, t3_2 t, t3_0 t)) vertices)
      (map (fun t : T3 vec3 => (t3_0 t, t3_1 t, t3_2 t)) vertices)).

(** [np.sum(A * A, axis=-1)] on shape (3,n,3) *)
Definition sum_squares (A : arr3s) : arr2T :=
  t3map (fun a => sum_last (mul2 a a)) A.

Definition triangle_field (field : field_kind)
    (observers : arr2) (vertices : arr3) (polarizations : arr2) : arr2 :=
  let bh := check_field_input field in
  let n := norm_vector vertices in
  let sigma := einsum_ij_ij_i n polarizations in
  (* vertex <-> observer *)
  let R := vertex_observer observers vertices in
  let r2 := sum_squares R in
  let r := t3map (map sqrt) r2 in
  (* vertex <-> vertex *)
  let L := vertex_vertex vertices in
  let l2 := sum_squares L in
  let l := t3map (map sqrt) l2 in
  (* vert-vert -- vert-obs *)
  let I := edge_integrals R L r2 r l2 l in
  let PQR := einsum_ij_ijk_jk I L in
  let B : arr2T :=
    t3map2 (fun nk ck => mul1 sigma (sub1 (mul1 nk (solid_angle R r)) ck))
           (transposeT n) (transposeT (vcross3 n PQR)) in
  (* return B or compute and return H *)
  if bh then sdiv2 (sdiv2 (transpose B) pi) four
  else sdiv2 (sdiv2 (sdiv2 (transpose B) four) pi) MU0.

(** *** One row of the batch *)

(** Row of [vcross3]. *)
Definition cross (a b : vec3) : vec3 :=
  ( t3_1 a * t3_2 b - t3_2 a * t3_1 b,
    t3_2 a * t3_0 b - t3_0 a * t3_2 b,
    t3_0 a * t3_1 b - t3_1 a * t3_0 b ).

Definition vsub (a b : vec3) : vec3 := t3map2 sub a b.

(** Row of [np.sum(a * a, axis=-1)]. *)
Definition sumsq (a : vec3) : F := sum3 (t3map2 mul a a).

(** Row of [norm_vector]. *)
Definition norm_vector_row (v : T3 vec3) : vec3 :=
  let n := cross (vsub (t3_1 v) (t3_0 v)) (vsub (t3_2 v) (t3_0 v)) in
  let n_norm := sqrt (sumsq n) in
  t3map (fun c => c / n_norm) n.

(** Row of [N] and [D] in [solid_angle]. *)
Definition sangle_N (R : T3 vec3) : F :=
  dot3 (t3_2 R) (cross (t3_1 R) (t3_0 R)).
Definition sangle_D (R : T3 vec3) (r : vec3) : F :=
  (((t3_0 r * t3_1 r) * t3_2 r
    + dot3 (t3_2 R) (t3_1 R) * t3_0 r)
    + dot3 (t3_2 R) (t3_0 R) * t3_1 r)
    + dot3 (t3_1 R) (t3_0 R) * t3_2 r.

(** The patch at the end of [solid_angle]. *)
Definition sangle_clip (x : F) : F :=
  if gtb (fabs x) sangle_cut then pzero else x.

(** Row of [solid_angle]. *)
Definition solid_angle_row (R : T3 vec3) (r : vec3) : F :=
  sangle_clip (two * arctan2 lm (sangle_N R) (sangle_D R r)).

(** Entry [I[i, j]], from the entries [i, j] of [R], [L], [r2], [r],
    [l2] and [l]. *)
Definition edge_integral (Ri Li : vec3) (r2 r l2 l : F) : F :=
  let b := dot3 Ri Li in
  let bl := b / l in
  let ind := fabs (r + bl) in
  if gtb ind ind_cut
  then (one / l) * log lm ((((sqrt ((l2 + two * b) + r2)) + l) + bl) / ind)
  else (- (one / l)) * log lm (fabs (l - r) / r).

(** The kernel of the edge that starts at the vertex with observer
    vector [Ri] and runs along [Li]. *)
Definition edge_kernel (Ri Li : vec3) : F :=
  edge_integral Ri Li (sumsq Ri) (sqrt (sumsq Ri)) (sumsq Li) (sqrt (sumsq Li)).

(** Row of [R] and of [L] (after the swap of axes). *)
Definition R_row (obs : vec3) (v : T3 vec3) : T3 vec3 :=
  t3map (fun vi => vsub vi obs) v.
Definition L_row (v : T3 vec3) : T3 vec3 :=
  (vsub (t3_1 v) (t3_0 v), vsub (t3_2 v) (t3_1 v), vsub (t3_0 v) (t3_2 v)).

(** Row of [PQR]. *)
Definition PQR_row (obs : vec3) (v : T3 vec3) : vec3 :=
  let R := R_row obs v in
  let L := L_row v in
  let I := t3map2 edge_kernel R L in
  t3map2 add
    (t3map2 add (t3map (mul (t3_0 I)) (t3_0 L)) (t3map (mul (t3_1 I)) (t3_1 L)))
    (t3map (mul (t3_2 I)) (t3_2 L)).

(** Row of [n.T * solid_angle(R, r) - vcross3(n, PQR).T]: the factor of
    the charge density, which does not read the polarization. *)
Definition geometry_row (obs : vec3) (v : T3 vec3) : vec3 :=
  let n := norm_vector_row v in
  let R := R_row obs v in
  let r := t3map (fun Ri => sqrt (sumsq Ri)) R in
  let sa := solid_angle_row R r in
  t3map2 (fun nk ck => nk * sa - ck) n (cross n (PQR_row obs v)).

(** Row of [sigma]. *)
Definition sigma_row (v : T3 vec3) (pol : vec3) : F :=
  dot3 (norm_vector_row v) pol.

(** Row of [B] before the final scaling. *)
Definition assembled_row (obs : vec3) (v : T3 vec3) (pol : vec3) : vec3 :=
  t3map (mul (sigma_row v pol)) (geometry_row obs v).

(** The two return statements. *)
Definition scale_B (a : vec3) : vec3 := t3map (fun x => (x / pi) / four) a.
Definition scale_H (a : vec3) : vec3 :=
  t3map (fun x => ((x / four) / pi) / MU0) a.

Definition triangle_field_row (field : field_kind)
    (obs : vec3) (v : T3 vec3) (pol : vec3) : vec3 :=
  if check_field_input field
  then scale_B (assembled_row obs v pol)
  else scale_H (assembled_row obs v pol).

(** *** The formulas as the specification words them *)

(** The solid angle is 2 atan2(N, D) with N = R2 . (R1 x R0) and
    D = r0 r1 r2 + r0 (R2 . R1) + r1 (R2 . R0) + r2 (R1 . R0); a value
    whose magnitude exceeds 6.2831853 is replaced by 0. *)
Definition solid_angle_spec (R0 R1 R2 : vec3) (r0 r1 r2 : F) : F :=
  let N := dot3 R2 (cross R1 R0) in
  let D := (((r0 * r1) * r2 + r0 * dot3 R2 R1) + r1 * dot3 R2 R0)
           + r2 * dot3 R1 R0 in
  let omega := two * arctan2 lm N D in
  if gtb (fabs omega) sangle_cut then pzero else omega.

(** With b = R . L, l and r the lengths of L and R, and the closeness
    measure ind = |r + b/l|: the kernel is
    (1/l) ln[(sqrt(l^2 + 2b + r^2) + l + b/l) / ind] when ind exceeds
    1e-12, and -(1/l) ln(|l - r| / r) otherwise. *)
Definition edge_kernel_spec (R L : vec3) : F :=
  let l := sqrt (sumsq L) in
  let r := sqrt (sumsq R) in
  let b := dot3 R L in
  let ind := fabs (r + b / l) in
  if gtb ind ind_cut
  then (one / l) * log lm ((sqrt ((sumsq L + two * b) + sumsq R) + l + b / l) / ind)
  else (- (one / l)) * log lm (fabs (l - r) / r).

End WithLibm.

(** *** Predicates on rows *)

(** The observer has the coordinates of the point (as values: [+0] and
    [-0] are the same coordinate). *)
Definition same_point (a b : vec3) : bool :=
  eqb (t3_0 a) (t3_0 b) && eqb (t3_1 a) (t3_1 b) && eqb (t3_2 a) (t3_2 b).

(** The observer coincides with a vertex of the triangle. *)
Definition at_vertex (obs : vec3) (v : T3 vec3) : Prop :=
  same_point obs (t3_0 v) = true \/ same_point obs (t3_1 v) = true
  \/ same_point obs (t3_2 v) = true.

Definition zero_or_nan3 (v : vec3) : Prop :=
  zero_or_nan (t3_0 v) /\ zero_or_nan (t3_1 v) /\ zero_or_nan (t3_2 v).

(** No component is a number. *)
Definition nonfinite3 (v : vec3) : Prop :=
  nonfinite (t3_0 v) /\ nonfinite (t3_1 v) /\ nonfinite (t3_2 v).

(** Some component is NaN. *)
Definition has_nan (v : vec3) : Prop :=
  t3_0 v = nan \/ t3_1 v = nan \/ t3_2 v = nan.

(** Every component is a number; every component is a zero. *)
Definition finite3 (v : vec3) : Prop :=
  is_finite (t3_0 v) = true /\ is_finite (t3_1 v) = true
  /\ is_finite (t3_2 v) = true.
Definition zero3 (v : vec3) : Prop :=
  is_zero (t3_0 v) = true /\ is_zero (t3_1 v) = true /\ is_zero (t3_2 v) = true.

(** Far enough from underflow: a number with a mantissa of 53 bits and a
    magnitude of at least 2^-1018 (so that its quotients by 4, by pi and
    by both are normal numbers), or a zero, an infinity or NaN (whose
    quotients are not rounded). *)
Definition clear_of_underflow (x : F) : bool :=
  match x with
  | S754_finite _ m e =>
      Pos.eqb (digits2_pos m) 53 && Z.leb (-1070) e && Z.leb e 971
  | _ => true
  end.

(** [y] is [- x] as a value: [x] with the other sign, or a zero (of either
    sign) for a zero. *)
Definition negated (x y : F) : Prop :=
  y = opp x \/ (is_zero x = true /\ is_zero y = true).
Definition negated3 (a b : vec3) : Prop :=
  negated (t3_0 a) (t3_0 b) /\ negated (t3_1 a) (t3_1 b)
  /\ negated (t3_2 a) (t3_2 b).

(** *** Concrete rows *)

(** A vector with integer coordinates. *)
Definition vec_Z (x y z : Z) : vec3 := (of_Z x, of_Z y, of_Z z).

Definition origin : vec3 := vec_Z 0 0 0.

(** The default row of a batch of triangles. *)
Definition tri0 : T3 vec3 := (origin, origin, origin).

(** A triangle with a vertex at the origin. *)
Definition tri_corner : T3 vec3 := (vec_Z 0 0 0, vec_Z 1 1 1, vec_Z 1 2 3).

(** A triangle in the plane z = 0, and the point of that plane at twice
    its first edge, beyond the second vertex. *)
Definition tri_flat : T3 vec3 := (vec_Z 0 0 0, vec_Z 4096 13 0, vec_Z 0 4096 0).
Definition obs_flat : vec3 := vec_Z 8192 26 0.

(** A triangle in the plane z = 1 that subtends the solid angle pi at the
    origin: there [D] is exactly zero. *)
Definition tri_pi : T3 vec3 := (vec_Z (-8) (-4) 1, vec_Z 2 (-2) 1, vec_Z 2 2 1).

(** Polarizations along z: of strength 1, 11, and 2^-1073 (twice the
    smallest positive binary64 value). *)
Definition pol_z (c : F) : vec3 := (pzero, pzero, c).
Definition tiny : F := ldexp one (-1073).

(** *** The polarization's way through [triangle_field] *)

(** The operations by which the polarization reaches the result of
    [triangle_field]: the sum and the products of [sigma], its product
    with the geometric factor, and the divisions by the constants of the
    two return statements. *)
Record Arith (T : Type) : Type := {
  aplus : T -> T -> T;
  atimes : T -> T -> T;
  aover : T -> T -> T;
  c_pi : T;
  c_four : T;
  c_mu0 : T
}.

(** binary64, as numpy computes. *)
Definition binary64 : Arith F :=
  {| aplus := add; atimes := mul; aover := div;
     c_pi := pi; c_four := four; c_mu0 := MU0 |}.

(** Exact rational arithmetic, with the same constants. *)
Definition rational : Arith Qcanon.Qc :=
  {| aplus := Qcanon.Qcplus; atimes := Qcanon.Qcmult; aover := Qcanon.Qcdiv;
     c_pi := Qcanon.Q2Qc (QArith_base.Qmake 7074237752028440 2251799813685248);
     c_four := Qcanon.Q2Qc (QArith_base.Qmake 4 1);
     c_mu0 := Qcanon.Q2Qc (QArith_base.Qmake 5934300740056779 4722366482869645213696) |}.

Section OverArith.
Variable T : Type.
Variable A : Arith T.

(** [sigma = np.einsum("ij, ij->i", n, polarization)] *)
Definition sigma_over (n pol : T3 T) : T :=
  aplus A (aplus A (atimes A (t3_0 n) (t3_0 pol)) (atimes A (t3_1 n) (t3_1 pol)))
    (atimes A (t3_2 n) (t3_2 pol)).

(** [B = sigma * (n.T * solid_angle(R, r) - vcross3(n, PQR).T)] with the
    factor [G] in brackets, and the two return statements. *)
Definition field_over (field : field_kind) (n G pol : T3 T) : T3 T :=
  let B := t3map (atimes A (sigma_over n pol)) G in
  if check_field_input field
  then t3map (fun x => aover A (aover A x (c_pi A)) (c_four A)) B
  else t3map (fun x => aover A (aover A (aover A x (c_four A)) (c_pi A)) (c_mu0 A)) B.

(** [a * p + b * q] for scalars [a], [b] and vectors [p], [q]. *)
Definition combine (a b : T) (p q : T3 T) : T3 T :=
  t3map2 (aplus A) (t3map (atimes A a) p) (t3map (atimes A b) q).

(** The laws of exact arithmetic that linearity rests on. *)
Record exact_arith : Prop := {
  aplus_comm : forall x y, aplus A x y = aplus A y x;
  aplus_assoc : forall x y z, aplus A x (aplus A y z) = aplus A (aplus A x y) z;
  atimes_comm : forall x y, atimes A x y = atimes A y x;
  atimes_assoc : forall x y z, atimes A x (atimes A y z) = atimes A (atimes A x y) z;
  atimes_plus : forall x y z,
    atimes A x (aplus A y z) = aplus A (atimes A x y) (atimes A x z);
  aover_plus : forall x y d, aover A (aplus A x y) d = aplus A (aover A x d) (aover A y d);
  aover_times : forall a x d, aover A (atimes A a x) d = atimes A a (aover A x d)
}.

End OverArith.

(** An integer as an exact rational. *)
Definition qc (z : Z) : Qcanon.Qc := Qcanon.Q2Qc (QArith_base.inject_Z z).

(** *** Windings and degenerate triangles *)

(** The triangle with the order of its second and third vertex exchanged:
    the same points, the opposite winding. *)
Definition reverse_winding (v : T3 vec3) : T3 vec3 := (t3_0 v, t3_2 v, t3_1 v).

(** Two of the three vertices have the same coordinates. *)
Definition degenerate (v : T3 vec3) : Prop :=
  same_point (t3_0 v) (t3_1 v) = true \/ same_point (t3_0 v) (t3_2 v) = true
  \/ same_point (t3_1 v) (t3_2 v) = true.

Definition nan3 : vec3 := (nan, nan, nan).

(** The same value: equal, or two zeros (of either sign). *)
Definition veq (x y : F) : Prop := x = y \/ (is_zero x = true /\ is_zero y = true).

End field_BH_triangle.

(** ** class_magnet_TriangularMesh.py *)

Module class_magnet_TriangularMesh.

(** A face: three indices into the vertex array ([.astype(int)]). *)
Definition face : Type := T3 Z.

Inductive exn : Type :=
| ValueError (msg : string)
| MagpylibMissingInput (msg : string)
| MagpylibBadUserInput (msg : string).

(** What a method does besides changing the object: the warnings it emits
    and the calls it makes into [field_BH_triangularmesh], in order. *)
Inductive event : Type :=
| Warning (msg : string)
| Called (fn : string).

Inductive outcome (A : Type) : Type :=
| Return (a : A)
| Raise (e : exn).
Arguments Return {A} a.
Arguments Raise {A} e.

(** The attributes [__init__] creates. *)
Record TriangularMesh : Type := {
  _vertices : list vec3;
  _faces : list face;
  _is_connected : option bool;
  _is_closed : option bool;
  _is_reoriented : bool;
  _faces_subsets : option (list (list face))
}.

(** A method body: it reads and writes [self], logs events, and returns or
    raises.  What was written and logged before a raise stays. *)
Definition M (A : Type) : Type :=
  TriangularMesh -> outcome A * TriangularMesh * list event.

Definition ret {A} (a : A) : M A := fun self => (Return a, self, []).

Definition bind {A B} (m : M A) (k : A -> M B) : M B :=
  fun self =>
    match m self with
    | (Return a, self1, ev1) =>
        match k a self1 with
        | (o, self2, ev2) => (o, self2, ev1 ++ ev2)
        end
    | (Raise e, self1, ev1) => (Raise e, self1, ev1)
    end.

Definition raise {A} (e : exn) : M A := fun self => (Raise e, self, []).
Definition warn (msg : string) : M unit :=
  fun self => (Return tt, self, [Warning msg]).
Definition called (fn : string) : M unit :=
  fun self => (Return tt, self, [Called fn]).
Definition get : M TriangularMesh := fun self => (Return self, self, []).

Declare Scope py_scope.
Delimit Scope py_scope with py.
Notation "x <- m ;; k" := (bind m (fun x => k))
  (at level 61, m at next level, right associativity) : py_scope.
Notation "m ;; k" := (bind m (fun _ => k))
  (at level 61, right associativity) : py_scope.
Local Open Scope py_scope.
Local Open Scope string_scope.

(** Assignments to one attribute of [self]. *)
Definition with_is_closed (b : option bool) (self : TriangularMesh) :=
  {| _vertices := _vertices self; _faces := _faces self;
     _is_connected := _is_connected self; _is_closed := b;
     _is_reoriented := _is_reoriented self;
     _faces_subsets := _faces_subsets self |}.

Definition with_is_connected (b : option bool) (self : TriangularMesh) :=
  {| _vertices := _vertices self; _faces := _faces self;
     _is_connected := b; _is_closed := _is_closed self;
     _is_reoriented := _is_reoriented self;
     _faces_subsets := _faces_subsets self |}.

Definition with_faces_subsets (x : option (list (list face)))
    (self : TriangularMesh) :=
  {| _vertices := _vertices self; _faces := _faces self;
     _is_connected := _is_connected self; _is_closed := _is_closed self;
     _is_reoriented := _is_reoriented self;
     _faces_subsets := x |}.

Definition with_faces (f : list face) (self : TriangularMesh) :=
  {| _vertices := _vertices self; _faces := f;
     _is_connected := _is_connected self; _is_closed := _is_closed self;
     _is_reoriented := _is_reoriented self;
     _faces_subsets := _faces_subsets self |}.

Definition with_is_reoriented (b : bool) (self : TriangularMesh) :=
  {| _vertices := _vertices self; _faces := _faces self;
     _is_connected := _is_connected self; _is_closed := _is_closed self;
     _is_reoriented := b;
     _faces_subsets := _faces_subsets self |}.

Definition modify (f : TriangularMesh -> TriangularMesh) : M unit :=
  fun self => (Return tt, f self, []).

Definition set_is_closed b := modify (with_is_closed b).
Definition set_is_connected b := modify (with_is_connected b).
Definition set_faces_subsets x := modify (with_faces_subsets x).
Definition set_faces f := modify (with_faces f).
Definition set_is_reoriented b := modify (with_is_reoriented b).


Definition accepted_errors_vals : list string := ["warn"; "raise"; "ignore"].

Definition msg_open : string :=
  "Mesh is open. Field calculation may deliver erroneous results. " ++
  "This check can be disabled at initialization time by setting " ++
  "`validate_closed='ignore'`. Open edges can be displayed by setting " ++
  "the `style_mesh_disjoint_show=True` in the `show` function. " ++
  "Note that faces reorientation may also fail in that case!".

Definition msg_disjoint : string :=
  "Mesh is disjoint. " ++
  "Mesh parts can be obtained via the `.get_faces_subsets()` method " ++
  "and be displayed by setting `style_mesh_disjoint_show=True` " ++
  "in the `show` function. " ++
  "This check can be disabled at initialization time by setting " ++
  "`validate_connected='ignore'`. " ++
  "Note that this should not affect field calculation.".

Definition msg_unchecked : string :=
  "Mesh has not been checked if it is closed before performing faces " ++
  "reorientation, now applying operation...".

(** The message of [_validate_error_arg]; [arg_repr] is what [{arg!r}]
    formats, the [repr] of the argument. *)
Definition msg_bad_arg (arg_repr : string) : string :=
  "The `error` argument must be one of ('warn', 'raise', 'ignore'), " ++
  "instead received " ++ arg_repr.

(** The message of [_input_check] for a missing parameter; [self_str] is
    what [{self}] formats. *)
Definition msg_missing (name self_str : string) : string :=
  "Parameter `" ++ name ++ "` of " ++ self_str ++ " must be set.".

(** Swapping two indices of a face reverses its winding. *)
Definition flip_face (t : face) : face := (t3_0 t, t3_2 t, t3_1 t).

Fixpoint mapi_from {A B} (i : nat) (f : nat -> A -> B) (l : list A) : list B :=
  match l with
  | [] => []
  | x :: l' => f i x :: mapi_from (S i) f l'
  end.

Section Methods.

(** Python's [repr] of a str, which [{arg!r}] formats. *)
Variable repr : string -> string.

(** The functions imported from [field_BH_triangularmesh], which is not
    part of the sources at hand: the closedness test and the partition
    of the faces into connected subsets are parameters. *)
Variable trimesh_is_closed : list face -> bool.
Variable get_disjoint_faces_subsets : list face -> list (list face).

(** Which faces the orientation repair reverses (the outcome of its
    breadth-first propagation and of its inside/outside test), by index
    of the face. *)
Variable inwards : list vec3 -> list face -> nat -> bool.

(** Modelled from the spec: [fix_trimesh_orientation] is imported from
    [field_BH_triangularmesh], which is not part of the sources at hand.
    The spec's OrientationFixer makes every triangle's vertex order
    yield an outward normal by flipping faces: a flip swaps two indices
    of the face; the other faces are returned as they are. *)
Definition fix_trimesh_orientation (vertices : list vec3) (faces : list face)
    : list face :=
  mapi_from 0 (fun i t => if inwards vertices faces i then flip_face t else t)
    faces.

Definition _validate_error_arg (arg : string) : M unit :=
  if negb (existsb (String.eqb arg) accepted_errors_vals)
  then raise (ValueError (msg_bad_arg (repr arg)))
  else ret tt.

Definition is_closed (errors : string) : M (option bool) :=
  _validate_error_arg errors ;;
  self <- get ;;
  match _is_closed self with
  | None =>
      called "trimesh_is_closed" ;;
      set_is_closed (Some (trimesh_is_closed (_faces self))) ;;
      if negb (trimesh_is_closed (_faces self)) then
        if String.eqb errors "warn" then warn msg_open
        else if String.eqb errors "raise" then raise (ValueError msg_open)
        else ret tt
      else ret tt
  | Some _ => ret tt
  end ;;
  self <- get ;;
  ret (_is_closed self).

Definition is_reoriented : M bool :=
  self <- get ;;
  ret (_is_reoriented self).

Definition get_faces_subsets : M (list (list face)) :=
  self <- get ;;
  match _faces_subsets self with
  | None =>
      called "get_disjoint_faces_subsets" ;;
      set_faces_subsets (Some (get_disjoint_faces_subsets (_faces self))) ;;
      ret (get_disjoint_faces_subsets (_faces self))
  | Some subsets => ret subsets
  end.

Definition is_connected (errors : string) : M (option bool) :=
  _validate_error_arg errors ;;
  self <- get ;;
  match _is_connected self with
  | None =>
      subsets <- get_faces_subsets ;;
      set_is_connected (Some (Nat.eqb (List.length subsets) 1)) ;;
      if negb (Nat.eqb (List.length subsets) 1) then
        if String.eqb errors "warn" then warn msg_disjoint
        else if String.eqb errors "raise" then raise (ValueError msg_disjoint)
        else ret tt
      else ret tt
  | Some _ => ret tt
  end ;;
  self <- get ;;
  ret (_is_connected self).


Definition reorient_faces (errors : string) : M unit :=
  self <- get ;;
  match _is_closed self with
  | None => warn msg_unchecked ;; _ <- is_closed errors ;; ret tt
  | Some _ => ret tt
  end ;;
  self <- get ;;
  called "fix_trimesh_orientation" ;;
  set_faces (fix_trimesh_orientation (_vertices self) (_faces self)) ;;
  set_is_reoriented true.

(** The object as [__init__] first writes it, before any validation. *)
Definition fresh (vertices : list vec3) (faces : list face) : TriangularMesh :=
  {| _vertices := vertices; _faces := faces;
     _is_connected := None; _is_closed := None;
     _is_reoriented := false; _faces_subsets := None |}.

(** What a caller passes for [vertices] and for [faces]. *)
Variable array_like : Type.

(** [check_format_input_vector(inp, dims=(2,), shape_m1=3, sig_name,
    sig_type)], imported from [magpylib._src.input_checks], which is not
    part of the sources at hand: it returns the input as a float array of
    shape (n, 3) or raises.  The two calls differ in [sig_name] only. *)
Variable check_format_input_vector : array_like -> string -> outcome (list vec3).

(** [.astype(int)] on a float array of shape (n, 3). *)
Variable astype_int : list vec3 -> list face.

(** What [{self}] formats when [_input_check] runs; the formatting is
    defined in the base classes. *)
Variable self_str : string.

(** [super().__init__(position, orientation, magnetization, style,
    **kwargs)]: the constructor of [BaseMagnet], not part of the sources at
    hand, on the arguments passed on to it.  It returns or raises, after
    the events it emits; the attributes it writes are those of the base
    classes, none of the six above. *)
Variable BaseMagnet_init : outcome unit * list event.

Definition super_init : M unit :=
  fun self => (fst BaseMagnet_init, self, snd BaseMagnet_init).

Definition _input_check (vertices faces : option array_like)
    : outcome (list vec3 * list face) :=
  match vertices with
  | None => Raise (MagpylibMissingInput (msg_missing "vertices" self_str))
  | Some vertices =>
      match faces with
      | None => Raise (MagpylibMissingInput (msg_missing "faces" self_str))
      | Some faces =>
          match check_format_input_vector vertices "TriangularMesh.vertices" with
          | Raise e => Raise e
          | Return verts =>
              match check_format_input_vector faces "TriangularMesh.faces" with
              | Raise e => Raise e
              | Return trias => Return (verts, astype_int trias)
              end
          end
      end
  end.

(** [__init__].  When [_input_check] raises, no attribute has been
    written yet.  [reorient_faces()] runs with its default mode, "warn";
    the base constructor runs last. *)
Definition __init__ (vertices faces : option array_like)
    (validate_closed validate_connected : string) (reorient : bool)
    : outcome unit * option TriangularMesh * list event :=
  match _input_check vertices faces with
  | Raise e => (Raise e, None, [])
  | Return (v, f) =>
      let body : M unit :=
        (if negb (String.eqb validate_closed "ignore")
         then _ <- is_closed validate_closed ;; ret tt else ret tt) ;;
        (if negb (String.eqb validate_connected "ignore")
         then _ <- is_connected validate_connected ;; ret tt else ret tt) ;;
        (if reorient then reorient_faces "warn" else ret tt) ;;
        super_init in
      match body (fresh v f) with
      | (o, self, ev) => (o, Some self, ev)
      end
  end.

End Methods.


(** [repr] of a str of printable ASCII characters other than the quote
    and the backslash: the str between quotes. *)
Definition repr_plain (s : string) : string := "'" ++ s ++ "'".

(** The vertex indices of a face. *)
Definition face_indices (t : face) : list Z := [t3_0 t; t3_1 t; t3_2 t].

(** An open mesh: a single triangle. *)
Definition one_triangle : list face := [(0, 1, 2)%Z].
Definition one_triangle_vertices : list vec3 :=
  [ (B64.of_Z 0, B64.of_Z 0, B64.of_Z 0); (B64.of_Z 1, B64.of_Z 0, B64.of_Z 0);
    (B64.of_Z 0, B64.of_Z 1, B64.of_Z 0) ].

Definition never_inwards : list vec3 -> list face -> nat -> bool :=
  fun _ _ _ => false.

(** *** The imported mesh functions, for running the methods *)

(** The edges of the faces, each in the direction of its face's winding. *)
Definition directed_edges (faces : list face) : list (Z * Z) :=
  flat_map (fun t => [(t3_0 t, t3_1 t); (t3_1 t, t3_2 t); (t3_2 t, t3_0 t)]) faces.

Definition edge_eqb (e1 e2 : Z * Z) : bool :=
  Z.eqb (fst e1) (fst e2) && Z.eqb (snd e1) (snd e2).

Definition count_edge (e : Z * Z) (es : list (Z * Z)) : nat :=
  List.length (filter (edge_eqb e) es).

(** Modelled from the spec: [trimesh_is_closed] (the spec's
    ClosedMeshChecker) is imported from [field_BH_triangularmesh], which is
    not part of the sources at hand.  A mesh is closed iff every undirected
    edge appears in exactly two faces, once in each direction. *)
Definition trimesh_is_closed_spec (faces : list face) : bool :=
  let es := directed_edges faces in
  forallb (fun e => Nat.eqb (count_edge e es) 1
                    && Nat.eqb (count_edge (snd e, fst e) es) 1) es.

(** Two faces are adjacent when they share an undirected edge. *)
Definition adjacent (t u : face) : bool :=
  existsb (fun e => existsb (fun e' => edge_eqb e e' || edge_eqb e (snd e', fst e'))
                      (directed_edges [u]))
          (directed_edges [t]).

Definition add_face (t : face) (groups : list (list face)) : list (list face) :=
  let touching := filter (existsb (adjacent t)) groups in
  let others := filter (fun g => negb (existsb (adjacent t) g)) groups in
  (others ++ [List.concat touching ++ [t]])%list.

(** Modelled from the spec: [get_disjoint_faces_subsets] (the spec's
    MeshGraph) is imported from [field_BH_triangularmesh], which is not part
    of the sources at hand.  It returns the connected components of the
    face-adjacency relation. *)
Definition get_disjoint_faces_subsets_spec (faces : list face) : list (list face) :=
  fold_left (fun groups t => add_face t groups) faces [].

(** A disjoint mesh: two triangles without a common vertex. *)
Definition two_triangles : list face := [(0, 1, 2)%Z; (3, 4, 5)%Z].

(** *** The constructor's environment, for running it *)

(** Arguments that are float arrays of shape (n, 3) already: the format
    check returns them. *)
Definition accept_array (a : list vec3) (sig_name : string) : outcome (list vec3) :=
  Return a.

(** The integer part of a binary64 number (truncation toward zero), which
    is what [.astype(int)] gives for the numbers that have one in range. *)
Definition trunc (x : B64.F) : Z :=
  match x with
  | S754_finite s m e =>
      let a := match e with
               | Z.neg k => Z.shiftr (Z.pos m) (Z.pos k)
               | _ => Z.shiftl (Z.pos m) e
               end in
      if s then (- a)%Z else a
  | _ => 0%Z
  end.

Definition astype_int_trunc (a : list vec3) : list face := map (t3map trunc) a.

(** A base constructor that returns, silently. *)
Definition base_returns : outcome unit * list event := (Return tt, []).

(** The faces of [one_triangle] as a caller passes them. *)
Definition one_triangle_faces : list vec3 := [(B64.of_Z 0, B64.of_Z 1, B64.of_Z 2)].

End class_magnet_TriangularMesh.

(** ** disp_utility.py *)

Module disp_utility.
Import B64 class_magnet_TriangularMesh.
Local Open Scope b64_scope.

(** [np.minimum] and [np.maximum] on two floats: NaN wins; of two equal
    values (zeros of either sign) the first is kept. *)
Definition minimum (x y : F) : F :=
  if is_nan x then x else if is_nan y then y else if SFltb y x then y else x.
Definition maximum (x y : F) : F :=
  if is_nan x then x else if is_nan y then y else if SFltb x y then y else x.

(** [np.amin] and [np.amax] over all entries of an array: no value for an
    array without entries. *)
Definition amin (a : list F) : outcome F :=
  match a with
  | [] => Raise (ValueError
            "zero-size array to reduction operation minimum which has no identity"%string)
  | x :: a' => Return (fold_left minimum a' x)
  end.
Definition amax (a : list F) : outcome F :=
  match a with
  | [] => Raise (ValueError
            "zero-size array to reduction operation maximum which has no identity"%string)
  | x :: a' => Return (fold_left maximum a' x)
  end.

(** The entries of [np.array(pts)], row by row. *)
Definition entries (pts : list vec3) : list F :=
  flat_map (fun p => [t3_0 p; t3_1 p; t3_2 p]) pts.

(** The list [pts] that [system_size] collects. *)
Definition collect_points (face_points : list (list vec3))
    (pix_points markers path_points : list vec3) : list vec3 :=
  let pts := fold_left (fun pts face => pts ++ face) face_points [] in
  let pts := if Nat.ltb 0 (List.length markers) then pts ++ markers else pts in
  let pts := if Nat.ltb 0 (List.length pix_points) then pts ++ pix_points else pts in
  let pts := if Nat.ltb 0 (List.length path_points) then pts ++ path_points else pts in
  pts.

Definition system_size (face_points : list (list vec3))
    (pix_points markers path_points : list vec3) : outcome (F * F) :=
  let pts := entries (collect_points face_points pix_points markers path_points) in
  match amin pts with
  | Raise e => Raise e
  | Return lim0 =>
      match amax pts with
      | Raise e => Raise e
      | Return lim1 => Return (lim0, lim1)
      end
  end.

(** A source as the two face functions read it: its dimension and the
    path of its orientations and positions.  An orientation is a scipy
    [Rotation]; it is taken by what [apply] does to one point. *)
Record Source : Type := {
  dim : vec3;
  _rot : list (vec3 -> vec3);
  _pos : list vec3
}.

(** [l[-1]]: the last item; none (an IndexError) on an empty sequence. *)
Definition last_item {A} (l : list A) : option A :=
  match rev l with
  | x :: _ => Some x
  | [] => None
  end.

(** The corners of the box before it is placed: [vert - src.dim/2]. *)
Definition box_corners (d : vec3) : list vec3 :=
  let '(a, b, c) := d in
  map (fun p => t3map2 sub p (t3map (fun x => x / two) d))
    [ (pzero, pzero, pzero); (a, pzero, pzero); (pzero, b, pzero); (pzero, pzero, c);
      (a, b, pzero); (a, pzero, c); (pzero, b, c); (a, b, c) ].

(** The corner indices of the six faces, as [faces_box] lists them. *)
Definition box_faces : list (list nat) :=
  [ [0; 1; 4; 2]; [0; 1; 5; 3]; [0; 2; 6; 3];
    [7; 6; 2; 4]; [7; 6; 3; 5]; [7; 5; 1; 4] ].

(** [faces_box]: the corners are rotated and shifted to the last item of
    the path, and listed face by face. *)
Definition faces_box (src : Source) : option (list (list vec3)) :=
  match last_item (_rot src), last_item (_pos src) with
  | Some rot, Some pos =>
      let vert := map (fun p => t3map2 add (rot p) pos) (box_corners (dim src)) in
      Some (map (map (fun i => nth i vert (nan, nan, nan))) box_faces)
  | _, _ => None
  end.

(** Coordinate [k] of a point. *)
Definition coord (k : nat) (p : vec3) : F :=
  match k with 0 => t3_0 p | 1 => t3_1 p | _ => t3_2 p end.

(** The pairs of cyclically consecutive items of a list. *)
Definition cyclic_pairs {A} (l : list A) : list (A * A) :=
  match l with
  | [] => []
  | x :: l' => combine l (l' ++ [x])
  end.

(** *** The order of the floats, for stating what [amin] and [amax] return *)

(** Not NaN. *)
Definition number (x : F) : Prop := is_nan x = false.

(** A key that orders the floats other than NaN as their values are
    ordered: the class of the value, then exponent and mantissa. *)
Definition key (x : F) : Z * Z * Z :=
  match x with
  | S754_infinity true => (-2, 0, 0)
  | S754_finite true m e => (-1, - e, - Z.pos m)
  | S754_zero _ => (0, 0, 0)
  | S754_finite false m e => (1, e, Z.pos m)
  | S754_infinity false => (2, 0, 0)
  | S754_nan => (3, 0, 0)
  end%Z.

Definition lex_lt (a b : Z * Z * Z) : Prop :=
  let '(a1, a2, a3) := a in
  let '(b1, b2, b3) := b in
  (a1 < b1 \/ (a1 = b1 /\ (a2 < b2 \/ (a2 = b2 /\ a3 < b3))))%Z.

Definition lex_le (a b : Z * Z * Z) : Prop := ~ lex_lt b a.

End disp_utility.

(* ================================================================== *)
(** * Part II: properties *)
(* ================================================================== *)

Unset Implicit Arguments.

(** ** binary64 arithmetic *)

Module B64Facts.

Import B64.
Local Open Scope b64_scope.

Lemma mul_comm (x y : F) : x * y = y * x.
Proof.
  destruct x as [sx|sx| |sx mx ex], y as [sy|sy| |sy my ey]; cbn;
    rewrite ?(xorb_comm sx sy); try reflexivity.
  rewrite (Pos.mul_comm mx my), (Z.add_comm ex ey). reflexivity.
Qed.

Lemma nonfinite_mul_l x y : nonfinite x -> nonfinite (x * y).
Proof. destruct x; try discriminate; destruct y as [|[]| |]; intros _; reflexivity. Qed.

Lemma nonfinite_mul_r x y : nonfinite y -> nonfinite (x * y).
Proof. rewrite mul_comm. apply nonfinite_mul_l. Qed.

Lemma nonfinite_add_l x y : nonfinite x -> nonfinite (x + y).
Proof.
  destruct x as [|sx| |]; try discriminate; destruct y as [|sy| |]; intros _;
    try reflexivity. destruct sx, sy; reflexivity.
Qed.

Lemma nonfinite_add_r x y : nonfinite y -> nonfinite (x + y).
Proof.
  destruct y as [|sy| |]; try discriminate; destruct x as [|sx| |]; intros _;
    try reflexivity. destruct sx, sy; reflexivity.
Qed.

Lemma nonfinite_sub_l x y : nonfinite x -> nonfinite (x - y).
Proof.
  destruct x as [|sx| |]; try discriminate; destruct y as [|sy| |]; intros _;
    try reflexivity. destruct sx, sy; reflexivity.
Qed.

Lemma nonfinite_sub_r x y : nonfinite y -> nonfinite (x - y).
Proof.
  destruct y as [|sy| |]; try discriminate; destruct x as [|sx| |]; intros _;
    try reflexivity. destruct sx, sy; reflexivity.
Qed.

Lemma nonfinite_div_l x y : nonfinite x -> nonfinite (x / y).
Proof. destruct x; try discriminate; destruct y; intros _; reflexivity. Qed.

Lemma nonfinite_opp x : nonfinite x -> nonfinite (- x).
Proof. destruct x; try discriminate; intros _; reflexivity. Qed.

(** NaN is absorbing. *)
Lemma mul_nan_l y : nan * y = nan. Proof. reflexivity. Qed.
Lemma mul_nan_r x : x * nan = nan. Proof. destruct x; reflexivity. Qed.
Lemma add_nan_r x : x + nan = nan. Proof. destruct x; reflexivity. Qed.
Lemma sub_nan_r x : x - nan = nan. Proof. destruct x; reflexivity. Qed.
Lemma sub_nan_l y : nan - y = nan. Proof. reflexivity. Qed.
Lemma div_nan_l y : nan / y = nan. Proof. reflexivity. Qed.

Lemma sub_eqb x y : eqb y x = true -> zero_or_nan (x - y).
Proof.
  unfold eqb, SFeqb.
  destruct x as [sx|sx| |sx mx ex], y as [sy|sy| |sy my ey];
    repeat match goal with s : bool |- _ => destruct s end;
    cbn; try discriminate; try (intros _; exact I).
  all: destruct (Z.compare_spec ey ex) as [He|He|He]; try discriminate;
    change (Pos.compare_cont Eq my mx) with (Pos.compare my mx);
    destruct (Pos.compare_spec my mx) as [Hm|Hm|Hm]; try discriminate;
    intros _; subst; unfold binary_normalize; rewrite ?Z.pos_sub_diag;
    exact I.
Qed.

Lemma zero_or_nan_mul_l x y : zero_or_nan x -> zero_or_nan (x * y).
Proof. destruct x; try contradiction; destruct y; intros _; exact I. Qed.

Lemma zero_or_nan_add x y : zero_or_nan x -> zero_or_nan y -> zero_or_nan (x + y).
Proof.
  destruct x as [sx| | |]; try contradiction; destruct y as [sy| | |]; try contradiction;
    intros _ _; try exact I. destruct sx, sy; exact I.
Qed.

Lemma zero_or_nan_sqrt x : zero_or_nan x -> zero_or_nan (sqrt x).
Proof. destruct x; try contradiction; intros _; exact I. Qed.

Lemma zero_or_nan_div_l x y : zero_or_nan x -> zero_or_nan (x / y).
Proof. destruct x; try contradiction; destruct y; intros _; exact I. Qed.

Lemma zero_or_nan_fabs x : zero_or_nan x -> zero_or_nan (fabs x).
Proof. destruct x; try contradiction; intros _; exact I. Qed.

Lemma zero_or_nan_not_gtb x c : zero_or_nan x -> is_pos c = true -> gtb x c = false.
Proof.
  destruct x; try contradiction; intros _; destruct c as [|[]| |[]]; try discriminate;
    reflexivity.
Qed.

(** Dividing by a zero or by NaN never gives a number. *)
Lemma nonfinite_div_zero_or_nan x y : zero_or_nan y -> nonfinite (x / y).
Proof. destruct y; try contradiction; destruct x; intros _; reflexivity. Qed.

Lemma ltb_pos_finite mc ec m e :
  SFltb (S754_finite false mc ec) (S754_finite false m e) =
  match Z.compare ec e with
  | Lt => true
  | Gt => false
  | Eq => match Pos.compare mc m with Lt => true | _ => false end
  end.
Proof.
  unfold SFltb, SFcompare. change (Pos.compare_cont Eq mc m) with (Pos.compare mc m).
  destruct (Z.compare ec e); reflexivity.
Qed.

(** Raising a positive bound keeps what lies below it below. *)
Lemma not_gtb_fabs_mono mc mp e0 x :
  (mc < mp)%positive ->
  gtb (fabs x) (S754_finite false mc e0) = false ->
  gtb (fabs x) (S754_finite false mp e0) = false.
Proof.
  intros Hlt. unfold gtb.
  destruct x as [s|s| |s m e]; try (intros _; reflexivity).
  - discriminate.
  - unfold fabs, SFabs. rewrite !ltb_pos_finite.
    destruct (Z.compare_spec e0 e) as [He|He|He];
      try discriminate; try (intros _; reflexivity).
    destruct (Pos.compare_spec mc m) as [Hm|Hm|Hm];
      try discriminate; intros _;
      destruct (Pos.compare_spec mp m) as [Hm'|Hm'|Hm'];
      try reflexivity; exfalso; lia.
Qed.

(** The threshold of [solid_angle] lies below 2 pi, so what passes the
    clip does not exceed 2 pi. *)
Lemma below_cut_below_two_pi x :
  gtb (fabs x) sangle_cut = false -> gtb (fabs x) two_pi = false.
Proof. apply not_gtb_fabs_mono. reflexivity. Qed.
End B64Facts.

(** ** Lists as batches *)

Module ListFacts.

Lemma map2_map_same {A B C D} (f : B -> C -> D) (g : A -> B) (h : A -> C) l :
  map2 f (map g l) (map h l) = map (fun x => f (g x) (h x)) l.
Proof. induction l; cbn [map map2]; congruence. Qed.

Lemma map3_map_same {A B C D E} (f : B -> C -> D -> E)
    (g : A -> B) (h : A -> C) (k : A -> D) l :
  map3 f (map g l) (map h l) (map k l) = map (fun x => f (g x) (h x) (k x)) l.
Proof. induction l; cbn [map map3]; congruence. Qed.

(** A list is the table of its entries. *)
Lemma map_nth_seq {A} (l : list A) (d : A) n :
  List.length l = n -> map (fun j => nth j l d) (seq 0 n) = l.
Proof.
  intros <-. apply nth_ext with (d := d) (d' := d).
  - rewrite length_map, length_seq. reflexivity.
  - intros j Hj. rewrite length_map, length_seq in Hj.
    rewrite (nth_indep _ d (nth 0 l d)) by (rewrite length_map, length_seq; exact Hj).
    rewrite (map_nth (fun j => nth j l d) (seq 0 (List.length l)) 0 j).
    rewrite seq_nth by exact Hj. reflexivity.
Qed.

Lemma nth_map_seq {A} (f : nat -> A) (d : A) n j :
  j < n -> nth j (map f (seq 0 n)) d = f j.
Proof.
  intros Hj.
  rewrite (nth_indep _ d (f 0)) by (rewrite length_map, length_seq; exact Hj).
  rewrite (map_nth f (seq 0 n) 0 j). rewrite seq_nth by exact Hj. reflexivity.
Qed.
End ListFacts.

(** ** One row of the field *)

Module FieldFacts.

Import B64 Np field_BH_triangle B64Facts.
Local Open Scope b64_scope.

Lemma vsub_same_point obs vi : same_point obs vi = true -> zero_or_nan3 (vsub vi obs).
Proof.
  unfold same_point. intros H.
  apply andb_prop in H. destruct H as [H H2]. apply andb_prop in H. destruct H as [H0 H1].
  repeat split; cbn; apply sub_eqb; assumption.
Qed.

Lemma sumsq_zero_or_nan v : zero_or_nan3 v -> zero_or_nan (sumsq v).
Proof.
  intros (H0 & H1 & H2). unfold sumsq, sum3, t3map2. cbn [t3_0 t3_1 t3_2 fst snd].
  repeat apply zero_or_nan_add; apply zero_or_nan_mul_l; assumption.
Qed.

Lemma dot3_zero_or_nan a b : zero_or_nan3 a -> zero_or_nan (dot3 a b).
Proof.
  intros (H0 & H1 & H2). unfold dot3, sum3, t3map2. cbn [t3_0 t3_1 t3_2 fst snd].
  repeat apply zero_or_nan_add; apply zero_or_nan_mul_l; assumption.
Qed.

Section WithLibm.
Variable lm : Libm.
Hypothesis ieee : IEEE_libm lm.

Lemma log_nonfinite x : nonfinite x -> nonfinite (log lm x).
Proof.
  destruct x as [|[]| |]; try discriminate; intros _.
  - rewrite (log_neg ieee); reflexivity.
  - change (S754_infinity false) with pinf. rewrite (log_pinf ieee). reflexivity.
  - change S754_nan with nan. rewrite (log_nan ieee). reflexivity.
Qed.

(** The kernel of an edge whose start vertex is the observer. *)
Lemma edge_kernel_corner Ri Li : zero_or_nan3 Ri -> nonfinite (edge_kernel lm Ri Li).
Proof.
  intros HR. unfold edge_kernel, edge_integral.
  pose proof (zero_or_nan_sqrt _ (sumsq_zero_or_nan _ HR)) as Hr.
  pose proof (zero_or_nan_div_l _ (sqrt (sumsq Li)) (dot3_zero_or_nan _ Li HR)) as Hbl.
  rewrite (zero_or_nan_not_gtb _ ind_cut
             (zero_or_nan_fabs _ (zero_or_nan_add _ _ Hr Hbl)) eq_refl).
  apply nonfinite_mul_r, log_nonfinite, nonfinite_div_zero_or_nan, Hr.
Qed.
End WithLibm.

Lemma pqr_component_nonfinite i0 i1 i2 l0 l1 l2 :
  nonfinite i0 \/ nonfinite i1 \/ nonfinite i2 ->
  nonfinite ((i0 * l0 + i1 * l1) + i2 * l2).
Proof.
  intros [H | [H | H]].
  - apply nonfinite_add_l, nonfinite_add_l, nonfinite_mul_l, H.
  - apply nonfinite_add_l, nonfinite_add_r, nonfinite_mul_l, H.
  - apply nonfinite_add_r, nonfinite_mul_l, H.
Qed.

Lemma cross_nonfinite n P : nonfinite3 P -> nonfinite3 (cross n P).
Proof.
  intros (H0 & H1 & H2). unfold cross. repeat split; cbn [t3_0 t3_1 t3_2 fst snd];
    apply nonfinite_sub_l, nonfinite_mul_r; assumption.
Qed.

Lemma cross_has_nan n P : nonfinite3 P -> has_nan (cross n P).
Proof.
  destruct n as [[nx ny] nz], P as [[Px Py] Pz].
  intros (H0 & H1 & H2). unfold has_nan, cross, nonfinite in *.
  cbn [t3_0 t3_1 t3_2 fst snd] in *.
  destruct Px as [|sx| |]; try discriminate;
  destruct Py as [|sy| |]; try discriminate;
  destruct Pz as [|sz| |]; try discriminate.
  all: try (right; left; rewrite mul_nan_r; reflexivity).
  all: try (left; rewrite mul_nan_r, sub_nan_r; reflexivity).
  all: try (left; rewrite mul_nan_r; reflexivity).
  all: try (right; left; rewrite mul_nan_r, sub_nan_r; reflexivity).
  all: destruct nx as [[]|[]| |[] ? ?], ny as [[]|[]| |[] ? ?], nz as [[]|[]| |[] ? ?],
    sx, sy, sz; cbn; auto.
Qed.

Lemma t3map_strict f v :
  strict f -> nonfinite3 v -> has_nan v ->
  nonfinite3 (t3map f v) /\ has_nan (t3map f v).
Proof.
  intros [Hf Hn] (H0 & H1 & H2) Hnan. unfold nonfinite3, has_nan, t3map in *.
  cbn [t3_0 t3_1 t3_2 fst snd]. split; [auto|].
  destruct Hnan as [E | [E | E]]; rewrite E, Hn; auto.
Qed.

Lemma strict_mul_l c : strict (mul c).
Proof. split; [intros x; apply nonfinite_mul_r | apply mul_nan_r]. Qed.

Lemma strict_div_r c : strict (fun x => x / c).
Proof. split; [intros x H; apply nonfinite_div_l, H | reflexivity]. Qed.

Lemma strict_compose f g : strict f -> strict g -> strict (fun x => g (f x)).
Proof. intros [Hf Hfn] [Hg Hgn]. split; [auto | rewrite Hfn; exact Hgn]. Qed.

Lemma scale_B_strict : strict (fun x => (x / pi) / four).
Proof. exact (strict_compose _ _ (strict_div_r pi) (strict_div_r four)). Qed.

Lemma scale_H_strict : strict (fun x => ((x / four) / pi) / MU0).
Proof.
  exact (strict_compose _ _
           (strict_compose _ _ (strict_div_r four) (strict_div_r pi))
           (strict_div_r MU0)).
Qed.

Section Corner.
Variable lm : Libm.
Hypothesis ieee : IEEE_libm lm.

Lemma PQR_row_corner obs v : at_vertex obs v -> nonfinite3 (PQR_row lm obs v).
Proof.
  intros Hat. unfold PQR_row, R_row, L_row, t3map2, t3map.
  cbn [t3_0 t3_1 t3_2 fst snd].
  assert (HI : nonfinite (edge_kernel lm (vsub (t3_0 v) obs) (vsub (t3_1 v) (t3_0 v)))
               \/ nonfinite (edge_kernel lm (vsub (t3_1 v) obs) (vsub (t3_2 v) (t3_1 v)))
               \/ nonfinite (edge_kernel lm (vsub (t3_2 v) obs) (vsub (t3_0 v) (t3_2 v)))).
  { destruct Hat as [H | [H | H]]; [left | right; left | right; right];
      apply (edge_kernel_corner lm ieee), vsub_same_point, H. }
  repeat split; cbn [t3_0 t3_1 t3_2 fst snd]; apply pqr_component_nonfinite, HI.
Qed.

Lemma geometry_row_corner obs v :
  at_vertex obs v ->
  nonfinite3 (geometry_row lm obs v) /\ has_nan (geometry_row lm obs v).
Proof.
  intros Hat. unfold geometry_row. cbv zeta.
  pose proof (PQR_row_corner obs v Hat) as HP.
  pose proof (cross_nonfinite (norm_vector_row v) _ HP) as (C0 & C1 & C2).
  pose proof (cross_has_nan (norm_vector_row v) _ HP) as Hn.
  unfold nonfinite3, has_nan, t3map2 in *. cbn [t3_0 t3_1 t3_2 fst snd].
  split.
  - repeat split; apply nonfinite_sub_r; assumption.
  - destruct Hn as [E | [E | E]]; rewrite E, sub_nan_r; auto.
Qed.

Theorem corner_row field obs v pol :
  at_vertex obs v ->
  nonfinite3 (triangle_field_row lm field obs v pol)
  /\ has_nan (triangle_field_row lm field obs v pol).
Proof.
  intros Hat. destruct (geometry_row_corner obs v Hat) as [Hg Hn].
  destruct (t3map_strict _ _ (strict_mul_l (sigma_row v pol)) Hg Hn) as [Ha Han].
  unfold triangle_field_row, scale_B, scale_H, assembled_row.
  destruct (check_field_input field).
  - apply (t3map_strict _ _ scale_B_strict Ha Han).
  - apply (t3map_strict _ _ scale_H_strict Ha Han).
Qed.

(** An observer in the plane of the triangle: the oriented volume [N]
    is a zero.  Whatever the sign of [D], the solid angle is a zero:
    where [arctan2] answers pi, the clip replaces 2 pi by 0. *)
Lemma solid_angle_row_coplanar R r :
  is_zero (sangle_N R) = true -> is_nan (sangle_D R r) = false ->
  is_zero (solid_angle_row lm R r) = true.
Proof.
  unfold solid_angle_row. intros HN HD.
  destruct (sangle_N R) as [s| | |]; try discriminate.
  destruct (sangle_D R r) as [[]|[]| |[] m e]; try discriminate.
  all: first
    [ rewrite (arctan2_zero_pos ieee) by (first [left; reflexivity | right; reflexivity]);
      destruct s; reflexivity
    | rewrite (arctan2_zero_neg ieee) by (first [left; reflexivity | right; reflexivity]);
      destruct s; reflexivity ].
Qed.
End Corner.
End FieldFacts.

(** ** The batched functions, row by row *)

Module BatchFacts.

Import B64 Np field_BH_triangle B64Facts FieldFacts ListFacts.
Local Open Scope b64_scope.

Ltac fuse :=
  repeat (rewrite map_map || rewrite map2_map_same || rewrite map3_map_same).

Ltac project := cbn [t3_0 t3_1 t3_2 fst snd].

Section Rows.
Context {X : Type}.
Variable lm : Libm.
Variable l : list X.

Lemma vcross3_rows (f g : X -> vec3) :
  vcross3 (map f l) (map g l) = map (fun x => cross (f x) (g x)) l.
Proof.
  unfold vcross3, transpose, col0, col1, col2, sub1, mul1.
  project. fuse. reflexivity.
Qed.

Lemma norm_vector_rows (f : X -> T3 vec3) :
  norm_vector (map f l) = map (fun x => norm_vector_row (f x)) l.
Proof.
  unfold norm_vector, vertex0, vertex1, vertex2, sub2, linalg_norm, div_rows,
    sum_last, mul2.
  fuse. rewrite vcross3_rows. fuse. reflexivity.
Qed.

Lemma solid_angle_rows (R0 R1 R2 : X -> vec3) (r0 r1 r2 : X -> F) :
  solid_angle lm (map R0 l, map R1 l, map R2 l) (map r0 l, map r1 l, map r2 l)
  = map (fun x => solid_angle_row lm (R0 x, R1 x, R2 x) (r0 x, r1 x, r2 x)) l.
Proof.
  unfold solid_angle, einsum_ij_ij_i, add1, mul1, smul1, where_.
  project. rewrite vcross3_rows. fuse. reflexivity.
Qed.

Lemma edge_integrals_rows (R0 R1 R2 L0 L1 L2 : X -> vec3)
    (a0 a1 a2 b0 b1 b2 c0 c1 c2 d0 d1 d2 : X -> F) :
  edge_integrals lm (map R0 l, map R1 l, map R2 l) (map L0 l, map L1 l, map L2 l)
    (map a0 l, map a1 l, map a2 l) (map b0 l, map b1 l, map b2 l)
    (map c0 l, map c1 l, map c2 l) (map d0 l, map d1 l, map d2 l)
  = (map (fun x => edge_integral lm (R0 x) (L0 x) (a0 x) (b0 x) (c0 x) (d0 x)) l,
     map (fun x => edge_integral lm (R1 x) (L1 x) (a1 x) (b1 x) (c1 x) (d1 x)) l,
     map (fun x => edge_integral lm (R2 x) (L2 x) (a2 x) (b2 x) (c2 x) (d2 x)) l).
Proof.
  unfold edge_integrals, einsum_ij_ij_i, div1, add1, sub1, mul1, smul1, sdiv1,
    neg1, where_.
  unfold t3map, t3map2; project. fuse. reflexivity.
Qed.

(** The arrays [R], [L] and [I] that [triangle_field] builds, row by row. *)
Lemma vertex_observer_rows (o : X -> vec3) (v : X -> T3 vec3) :
  vertex_observer (map o l) (map v l)
  = (map (fun x => vsub (t3_0 (v x)) (o x)) l,
     map (fun x => vsub (t3_1 (v x)) (o x)) l,
     map (fun x => vsub (t3_2 (v x)) (o x)) l).
Proof.
  unfold vertex_observer, swapaxes01, vertex0, vertex1, vertex2, sub2.
  unfold t3map; project. fuse. reflexivity.
Qed.

Lemma vertex_vertex_rows (v : X -> T3 vec3) :
  vertex_vertex (map v l)
  = (map (fun x => vsub (t3_1 (v x)) (t3_0 (v x))) l,
     map (fun x => vsub (t3_2 (v x)) (t3_1 (v x))) l,
     map (fun x => vsub (t3_0 (v x)) (t3_2 (v x))) l).
Proof.
  unfold vertex_vertex, swapaxes01, vertex0, vertex1, vertex2.
  fuse. reflexivity.
Qed.

Lemma sum_squares_rows (f0 f1 f2 : X -> vec3) :
  sum_squares (map f0 l, map f1 l, map f2 l)
  = (map (fun x => sumsq (f0 x)) l, map (fun x => sumsq (f1 x)) l,
     map (fun x => sumsq (f2 x)) l).
Proof.
  unfold sum_squares, sum_last, mul2. unfold t3map; project. fuse. reflexivity.
Qed.

Lemma sqrt_rows (f0 f1 f2 : X -> F) :
  t3map (map sqrt) (map f0 l, map f1 l, map f2 l)
  = (map (fun x => sqrt (f0 x)) l, map (fun x => sqrt (f1 x)) l,
     map (fun x => sqrt (f2 x)) l).
Proof. unfold t3map; project. fuse. reflexivity. Qed.

Lemma triangle_field_rows field (o : X -> vec3) (v : X -> T3 vec3) (p : X -> vec3) :
  triangle_field lm field (map o l) (map v l) (map p l)
  = map (fun x => triangle_field_row lm field (o x) (v x) (p x)) l.
Proof.
  unfold triangle_field. cbv zeta.
  rewrite !norm_vector_rows, !vertex_observer_rows, !vertex_vertex_rows,
    !sum_squares_rows, !sqrt_rows, !edge_integrals_rows, !solid_angle_rows.
  unfold einsum_ij_ijk_jk, scale_rows, add2, einsum_ij_ij_i.
  project. fuse. rewrite vcross3_rows.
  unfold transposeT, transpose, col0, col1, col2, mul1, sub1, sdiv2.
  unfold t3map2, t3map. project. fuse.
  destruct field; cbn [check_field_input]; fuse.
  all: apply map_ext; intros x;
    cbv beta iota zeta delta [triangle_field_row scale_B scale_H assembled_row
      geometry_row sigma_row PQR_row R_row L_row edge_kernel check_field_input
      cross t3map t3map2 t3_0 t3_1 t3_2 fst snd];
    repeat (f_equal; []); reflexivity.
Qed.
End Rows.
End BatchFacts.

(** ** The coarse libm conforms *)

Module CoarseFacts.

Import B64.

Lemma coarse_is_ieee : IEEE_libm Coarse.libm.
Proof.
  constructor; cbn [log arctan2 Coarse.libm].
  - reflexivity.
  - reflexivity.
  - reflexivity.
  - intros [|[]| |[]]; try discriminate; reflexivity.
  - intros m e. unfold Coarse.log.
    match goal with |- context [if is_finite ?y then _ else _] =>
      destruct (is_finite y) eqn:E end; [exact E | reflexivity].
  - reflexivity.
  - intros [| | |]; reflexivity.
  - intros s x [H | ->]; [|reflexivity].
    destruct x as [|[]| |[]]; try discriminate; reflexivity.
  - intros s x [H | ->]; [|destruct s; reflexivity].
    destruct x as [|[]| |[]]; try discriminate; destruct s; reflexivity.
  - intros y s [H | H]; destruct y as [|[]| |[]]; try discriminate; reflexivity.
  - intros y x Hy Hx.
    destruct y as [sy|sy| |sy my ey]; try discriminate;
      destruct x as [sx|sx| |sx mx ex]; try discriminate;
      destruct sy, sx; reflexivity.
Qed.
End CoarseFacts.

(** ** Tables of rows, and rows that do not depend on the libm *)

Module FieldRows.
Import B64 Np field_BH_triangle B64Facts FieldFacts ListFacts BatchFacts CoarseFacts.
Local Open Scope b64_scope.

Lemma solid_angle_spec_row lm R0 R1 R2 r0 r1 r2 :
  solid_angle_spec lm R0 R1 R2 r0 r1 r2 = solid_angle_row lm (R0, R1, R2) (r0, r1, r2).
Proof.
  unfold solid_angle_spec, solid_angle_row, sangle_clip, sangle_N, sangle_D.
  cbn [t3_0 t3_1 t3_2 fst snd].
  rewrite (mul_comm r0 (dot3 R2 R1)), (mul_comm r1 (dot3 R2 R0)),
    (mul_comm r2 (dot3 R1 R0)).
  reflexivity.
Qed.

Lemma edge_kernel_spec_row lm R L : edge_kernel_spec lm R L = edge_kernel lm R L.
Proof. reflexivity. Qed.

Lemma sangle_clip_bound x : gtb (fabs (sangle_clip x)) two_pi = false.
Proof.
  unfold sangle_clip. destruct (gtb (fabs x) sangle_cut) eqn:E.
  - reflexivity.
  - apply below_cut_below_two_pi, E.
Qed.

Lemma solid_angle_table lm (R0 R1 R2 : arr2) (r0 r1 r2 : arr1) n :
  List.length R0 = n -> List.length R1 = n -> List.length R2 = n ->
  List.length r0 = n -> List.length r1 = n -> List.length r2 = n ->
  solid_angle lm (R0, R1, R2) (r0, r1, r2)
  = map (fun j => solid_angle_row lm
                    (nth j R0 origin, nth j R1 origin, nth j R2 origin)
                    (nth j r0 nan, nth j r1 nan, nth j r2 nan)) (seq 0 n).
Proof.
  intros H0 H1 H2 H3 H4 H5.
  rewrite <- (solid_angle_rows lm (seq 0 n)).
  rewrite !map_nth_seq by assumption. reflexivity.
Qed.

Lemma triangle_field_table lm field (observers : arr2) (vertices : arr3)
    (polarizations : arr2) n :
  List.length observers = n -> List.length vertices = n ->
  List.length polarizations = n ->
  triangle_field lm field observers vertices polarizations
  = map (fun j => triangle_field_row lm field (nth j observers origin)
                    (nth j vertices tri0) (nth j polarizations origin)) (seq 0 n).
Proof.
  intros Ho Hv Hp.
  rewrite <- (triangle_field_rows lm (seq 0 n)).
  rewrite !map_nth_seq by assumption. reflexivity.
Qed.

Lemma edge_integrals_table lm (observers : arr2) (vertices : arr3) n :
  List.length observers = n -> List.length vertices = n ->
  let R := vertex_observer observers vertices in
  let L := vertex_vertex vertices in
  edge_integrals lm R L (sum_squares R) (t3map (map sqrt) (sum_squares R))
    (sum_squares L) (t3map (map sqrt) (sum_squares L))
  = let kernel i j :=
      edge_kernel lm (i (R_row (nth j observers origin) (nth j vertices tri0)))
                     (i (L_row (nth j vertices tri0))) in
    (map (kernel (@t3_0 vec3)) (seq 0 n), map (kernel (@t3_1 vec3)) (seq 0 n),
     map (kernel (@t3_2 vec3)) (seq 0 n)).
Proof.
  intros Ho Hv R L. subst R L.
  pose proof (vertex_observer_rows (seq 0 n) (fun j => nth j observers origin)
                (fun j => nth j vertices tri0)) as ER.
  pose proof (vertex_vertex_rows (seq 0 n) (fun j => nth j vertices tri0)) as EL.
  rewrite !map_nth_seq in ER by assumption.
  rewrite !map_nth_seq in EL by assumption.
  rewrite ER, EL, !sum_squares_rows, !sqrt_rows, edge_integrals_rows.
  reflexivity.
Qed.

Lemma sigma_row_zero v pol :
  zero3 pol -> finite3 (norm_vector_row v) -> is_zero (sigma_row v pol) = true.
Proof.
  unfold sigma_row, dot3, sum3, t3map2, zero3, finite3.
  destruct (norm_vector_row v) as [[n0 n1] n2], pol as [[p0 p1] p2].
  cbn [t3_0 t3_1 t3_2 fst snd]. intros (H0 & H1 & H2) (F0 & F1 & F2).
  destruct p0 as [s0| | |], p1 as [s1| | |], p2 as [s2| | |]; try discriminate.
  destruct n0 as [t0| | |t0 ? ?], n1 as [t1| | |t1 ? ?], n2 as [t2| | |t2 ? ?];
    try discriminate;
    destruct s0, s1, s2, t0, t1, t2; reflexivity.
Qed.

Lemma zero_mul_finite x y : is_zero x = true -> is_finite y = true -> is_zero (x * y) = true.
Proof. destruct x; try discriminate; destruct y; try discriminate; reflexivity. Qed.

Lemma finite_mul_zero x y : is_finite x = true -> is_zero y = true -> is_zero (x * y) = true.
Proof. destruct x; try discriminate; destruct y; try discriminate; reflexivity. Qed.

Lemma sub_zero_l z c : is_zero z = true -> negated c (z - c).
Proof.
  destruct z as [sz| | |]; try discriminate. intros _.
  destruct c as [sc|sc| |sc m e].
  - right. split; [reflexivity|]. destruct sz, sc; reflexivity.
  - left. reflexivity.
  - left. reflexivity.
  - left. reflexivity.
Qed.

(** With a zero solid angle, only the edge term of the row remains. *)
Lemma geometry_row_coplanar lm obs v :
  let R := R_row obs v in
  let r := t3map (fun Ri => sqrt (sumsq Ri)) R in
  is_zero (solid_angle_row lm R r) = true ->
  finite3 (norm_vector_row v) ->
  negated3 (cross (norm_vector_row v) (PQR_row lm obs v)) (geometry_row lm obs v).
Proof.
  intros R r Hz (F0 & F1 & F2). unfold geometry_row. fold R r.
  unfold negated3, t3map2. cbn [t3_0 t3_1 t3_2 fst snd].
  repeat split; apply sub_zero_l, finite_mul_zero; assumption.
Qed.

Lemma zero_div_literal x c :
  is_zero x = true -> (exists m e, c = S754_finite false m e) -> is_zero (x / c) = true.
Proof. destruct x; try discriminate; intros _ (m & e & ->); reflexivity. Qed.

Lemma scale_zero field a :
  zero3 a -> zero3 (if check_field_input field then scale_B a else scale_H a).
Proof.
  intros (H0 & H1 & H2).
  assert (Hpi : exists m e, pi = S754_finite false m e) by (do 2 eexists; reflexivity).
  assert (H4 : exists m e, four = S754_finite false m e) by (do 2 eexists; reflexivity).
  assert (Hmu : exists m e, MU0 = S754_finite false m e) by (do 2 eexists; reflexivity).
  destruct (check_field_input field); unfold scale_B, scale_H, zero3, t3map;
    cbn [t3_0 t3_1 t3_2 fst snd]; repeat split;
    repeat (apply zero_div_literal; [|assumption]); assumption.
Qed.

Lemma add_nan_l y : nan + y = nan. Proof. reflexivity. Qed.

Ltac eval_args f :=
  repeat match goal with
         | |- context [f ?a] =>
             let a' := eval vm_compute in a in
             progress (replace a with a' by (vm_compute; reflexivity))
         end.

(** A batch of one row. *)
Lemma triangle_field_single lm field obs v pol :
  triangle_field lm field [obs] [v] [pol] = [triangle_field_row lm field obs v pol].
Proof.
  rewrite (triangle_field_table lm field [obs] [v] [pol] 1 eq_refl eq_refl eq_refl).
  reflexivity.
Qed.

Section AnyLibm.
Variable lm : Libm.
Hypothesis ieee : IEEE_libm lm.

(** A NaN kernel on the first edge makes the whole row NaN. *)
Lemma nan_kernel_row field obs v pol :
  edge_kernel lm (t3_0 (R_row obs v)) (t3_0 (L_row v)) = nan ->
  triangle_field_row lm field obs v pol = (nan, nan, nan).
Proof.
  intros HI.
  assert (HP : PQR_row lm obs v = (nan, nan, nan)).
  { unfold PQR_row, t3map2, t3map. cbn [t3_0 t3_1 t3_2 fst snd] in *.
    rewrite HI. reflexivity. }
  unfold triangle_field_row, scale_B, scale_H, assembled_row, geometry_row.
  cbv zeta. rewrite HP. unfold cross, t3map2, t3map.
  cbn [t3_0 t3_1 t3_2 fst snd].
  rewrite !mul_nan_r, !sub_nan_r, !mul_nan_r.
  destruct (check_field_input field); reflexivity.
Qed.

(** The observer [obs_flat] lies in the plane of [tri_flat], outside the
    triangle, on the line of its first edge.  There the rounded
    closeness measure is 2^-39 > 1e-12 and the rounded argument of the
    logarithm is -1: the kernel of that edge is NaN for every libm. *)
Lemma flat_kernel :
  edge_kernel lm (t3_0 (R_row obs_flat tri_flat)) (t3_0 (L_row tri_flat)) = nan.
Proof.
  unfold edge_kernel, edge_integral. cbv zeta.
  match goal with
  | |- (if ?c then _ else _) = _ =>
      replace c with true by (vm_compute; reflexivity)
  end.
  eval_args (log lm).
  rewrite (log_neg ieee) by reflexivity. apply mul_nan_r.
Qed.

Lemma flat_row field pol :
  triangle_field_row lm field obs_flat tri_flat pol = (nan, nan, nan).
Proof. apply nan_kernel_row, flat_kernel. Qed.

Lemma solid_angle_tri_pi :
  solid_angle_row lm (R_row origin tri_pi)
    (t3map (fun Ri => sqrt (sumsq Ri)) (R_row origin tri_pi)) = - pi.
Proof.
  unfold solid_angle_row.
  replace (sangle_N (R_row origin tri_pi)) with (of_Z (-40))
    by (vm_compute; reflexivity).
  replace (sangle_D (R_row origin tri_pi)
             (t3map (fun Ri => sqrt (sumsq Ri)) (R_row origin tri_pi)))
    with (S754_zero false) by (vm_compute; reflexivity).
  rewrite (arctan2_y_zero ieee) by (right; reflexivity).
  vm_compute. reflexivity.
Qed.

(** At the origin under [tri_pi] the z component of the field does not
    depend on the libm, as long as its logarithms leave [PQR] finite:
    the normal is (0, 0, 1), the solid angle is -pi. *)
Lemma tri_pi_z_component field c :
  finite3 (PQR_row lm origin tri_pi) ->
  t3_2 (triangle_field_row lm field origin tri_pi (pol_z c))
  = t3_2 ((if check_field_input field then scale_B else scale_H)
            (pzero, pzero, (pzero + one * c) * (- pi))).
Proof.
  intros HP.
  unfold triangle_field_row, assembled_row, geometry_row, sigma_row. cbv zeta.
  rewrite solid_angle_tri_pi.
  replace (norm_vector_row tri_pi) with (pzero, pzero, one)
    by (vm_compute; reflexivity).
  destruct (PQR_row lm origin tri_pi) as [[Px Py] Pz].
  destruct HP as (H0 & H1 & _). cbn [t3_0 t3_1 t3_2 fst snd] in H0, H1.
  assert (Hg : one * - pi - (pzero * Py - pzero * Px) = - pi).
  { destruct Px as [[]| | |[] ? ?], Py as [[]| | |[] ? ?]; try discriminate;
      vm_compute; reflexivity. }
  assert (Hs : dot3 (pzero, pzero, one) (pol_z c) = pzero + one * c).
  { unfold dot3, sum3, t3map2, pol_z. cbn [t3_0 t3_1 t3_2 fst snd]. reflexivity. }
  rewrite Hs.
  destruct (check_field_input field);
    unfold scale_B, scale_H, t3map, t3map2, cross;
    cbn [t3_0 t3_1 t3_2 fst snd]; rewrite Hg; reflexivity.
Qed.

(** With the polarization 2^-1073 along z, H is not B / MU0. *)
Lemma tri_pi_tiny :
  finite3 (PQR_row lm origin tri_pi) ->
  t3_2 (triangle_field_row lm FieldB origin tri_pi (pol_z tiny)) = nzero
  /\ t3_2 (triangle_field_row lm FieldH origin tri_pi (pol_z tiny))
     = S754_finite true 795775 (-1074).
Proof.
  intros HP. rewrite !(tri_pi_z_component _ _ HP). vm_compute. split; reflexivity.
Qed.

(** With the polarizations 1 and 11 along z, the field of 11 p is not 11
    times the field of p. *)
Lemma tri_pi_eleven :
  finite3 (PQR_row lm origin tri_pi) ->
  t3_2 (triangle_field_row lm FieldB origin tri_pi (pol_z one))
  = S754_finite true 4503599627370496 (-54)
  /\ t3_2 (triangle_field_row lm FieldB origin tri_pi (pol_z (of_Z 11)))
     = S754_finite true 6192449487634431 (-51).
Proof.
  intros HP. rewrite !(tri_pi_z_component _ _ HP). vm_compute. split; reflexivity.
Qed.

Lemma PQR_row_edges obs v :
  PQR_row lm obs v
  = t3map2 add
      (t3map2 add
         (t3map (mul (edge_kernel lm (t3_0 (R_row obs v)) (t3_0 (L_row v))))
            (t3_0 (L_row v)))
         (t3map (mul (edge_kernel lm (t3_1 (R_row obs v)) (t3_1 (L_row v))))
            (t3_1 (L_row v))))
      (t3map (mul (edge_kernel lm (t3_2 (R_row obs v)) (t3_2 (L_row v))))
         (t3_2 (L_row v))).
Proof.
  unfold PQR_row. cbv zeta. unfold t3map2, t3map.
  cbn [t3_0 t3_1 t3_2 fst snd]. reflexivity.
Qed.

(** The corner of [tri_corner] at the origin.  The kernels of the two
    edges that meet there are -inf and +inf for every libm. *)
Lemma corner_kernels :
  edge_kernel lm (t3_0 (R_row origin tri_corner)) (t3_0 (L_row tri_corner)) = ninf
  /\ edge_kernel lm (t3_2 (R_row origin tri_corner)) (t3_2 (L_row tri_corner)) = pinf.
Proof.
  split; unfold edge_kernel, edge_integral; cbv zeta;
    match goal with
    | |- (if ?c then _ else _) = _ =>
        replace c with false by (vm_compute; reflexivity)
    end;
    eval_args (log lm).
  - change (S754_infinity false) with pinf. rewrite (log_pinf ieee).
    vm_compute. reflexivity.
  - rewrite (log_zero ieee). vm_compute. reflexivity.
Qed.

Lemma corner_sum (m : vec3) :
  finite3 m ->
  t3map2 add
    (t3map2 add (t3map (mul ninf) (t3_0 (L_row tri_corner))) m)
    (t3map (mul pinf) (t3_2 (L_row tri_corner)))
  = (ninf, ninf, ninf).
Proof.
  destruct m as [[m0 m1] m2]. intros (F0 & F1 & F2).
  cbn [t3_0 t3_1 t3_2 fst snd] in F0, F1, F2.
  destruct m0 as [[]| | |[] ? ?], m1 as [[]| | |[] ? ?], m2 as [[]| | |[] ? ?];
    try discriminate; vm_compute; reflexivity.
Qed.

(** With a finite contribution of the third edge, two components of the
    row are infinite and one is NaN. *)
Lemma corner_example_row :
  finite3 (t3map (mul (edge_kernel lm (t3_1 (R_row origin tri_corner))
                         (t3_1 (L_row tri_corner))))
             (t3_1 (L_row tri_corner))) ->
  triangle_field_row lm FieldB origin tri_corner (vec_Z 1 0 0) = (ninf, nan, pinf).
Proof.
  intros HF. destruct corner_kernels as [HI0 HI2].
  assert (HP : PQR_row lm origin tri_corner = (ninf, ninf, ninf)).
  { rewrite PQR_row_edges. rewrite HI0, HI2. apply corner_sum, HF. }
  unfold triangle_field_row, assembled_row, geometry_row. cbv zeta. rewrite HP.
  unfold solid_angle_row.
  replace (sangle_N (R_row origin tri_corner)) with (S754_zero false)
    by (vm_compute; reflexivity).
  replace (sangle_D (R_row origin tri_corner)
             (t3map (fun Ri => sqrt (sumsq Ri)) (R_row origin tri_corner)))
    with pzero by (vm_compute; reflexivity).
  rewrite (arctan2_zero_pos ieee) by (right; reflexivity).
  vm_compute. reflexivity.
Qed.
End AnyLibm.
End FieldRows.

(** ** Division by 4 and by pi, away from underflow *)

Module ScaleFacts.
Import B64 Np field_BH_triangle B64Facts.
Local Open Scope Z_scope.

Lemma fexp_normal z : -1021 <= z -> fexp prec emax z = z - 53.
Proof. intros H. unfold fexp, SpecFloat.emin, prec, emax. lia. Qed.

(** Dividing a normal number by 4 lowers its exponent by 2. *)
Lemma div_four_normal s m e :
  digits2_pos m = 53%positive -> -1071 <= e -> e <= 973 ->
  SFdiv prec emax (S754_finite s m e) four = S754_finite s m (e - 2).
Proof.
  intros Hd Hlo Hhi. unfold four, SFdiv, SFdiv_core_binary.
  cbn [Zdigits2]. rewrite Hd.
  change (Z.pos (digits2_pos 4503599627370496)) with 53.
  replace (53 + e - (53 + -50)) with (e + 50) by lia.
  rewrite (fexp_normal (e + 50)) by lia.
  replace (Z.min (e + 50 - 53) (e - -50)) with (e - 3) by lia.
  replace (e - -50 - (e - 3)) with 53 by lia.
  assert (Hdiv : Z.div_eucl (Z.shiftl (Z.pos m) 53) 4503599627370496 = (Z.pos m~0, 0)).
  { rewrite Z.shiftl_mul_pow2 by lia.
    pose proof (Z.div_eucl_eq (Z.pos m * 2 ^ 53) 4503599627370496 ltac:(lia)) as Heq.
    pose proof (Z.mod_pos_bound (Z.pos m * 2 ^ 53) 4503599627370496 ltac:(lia)) as Hb.
    unfold Z.modulo in Hb.
    destruct (Z.div_eucl (Z.pos m * 2 ^ 53) 4503599627370496) as [q r].
    change (2 ^ 53) with (2 * 4503599627370496) in Heq.
    assert (q = Z.pos m~0 /\ r = 0) as [-> ->]; [|reflexivity].
    change (Z.pos m~0) with (2 * Z.pos m). nia. }
  rewrite Hdiv.
  change (new_location 4503599627370496 0) with loc_Exact.
  unfold binary_round_aux, shr_fexp.
  cbn [Zdigits2 digits2_pos]. rewrite Hd.
  change (Z.pos (Pos.succ 53)) with 54.
  rewrite (fexp_normal (54 + (e - 3))) by lia.
  replace (54 + (e - 3) - 53 - (e - 3)) with 1 by lia.
  cbn [shr shr_record_of_loc iter_pos shr_1 shr_m loc_of_shr_record round_nearest_even orb].
  cbn [Zdigits2]. rewrite Hd.
  rewrite (fexp_normal (53 + (e - 3 + 1))) by lia.
  replace (53 + (e - 3 + 1) - 53 - (e - 3 + 1)) with 0 by lia.
  cbn [shr shr_record_of_loc shr_m].
  replace (e - 3 + 1) with (e - 2) by lia.
  destruct (Z.leb_spec (e - 2) (emax - prec)) as [H|H].
  - rewrite xorb_false_r. reflexivity.
  - unfold emax, prec in H. lia.
Qed.

(** *** The mantissa of a quotient by pi *)

Lemma digits2_pos_bounds p :
  2 ^ (Z.pos (digits2_pos p) - 1) <= Z.pos p < 2 ^ Z.pos (digits2_pos p).
Proof.
  induction p as [p IH|p IH|]; cbn [digits2_pos].
  - rewrite Pos2Z.inj_succ.
    replace (Z.succ (Z.pos (digits2_pos p)) - 1) with (Z.succ (Z.pos (digits2_pos p) - 1))
      by lia.
    rewrite !Z.pow_succ_r by lia. lia.
  - rewrite Pos2Z.inj_succ.
    replace (Z.succ (Z.pos (digits2_pos p)) - 1) with (Z.succ (Z.pos (digits2_pos p) - 1))
      by lia.
    rewrite !Z.pow_succ_r by lia. lia.
  - cbn. lia.
Qed.

Lemma digits2_pos_unique p d :
  0 < d -> 2 ^ (d - 1) <= Z.pos p < 2 ^ d -> Z.pos (digits2_pos p) = d.
Proof.
  intros Hd [Hlo Hhi]. destruct (digits2_pos_bounds p) as [Blo Bhi].
  set (k := Z.pos (digits2_pos p)) in *.
  destruct (Z.lt_trichotomy k d) as [H | [H | H]]; [|exact H|].
  - assert (2 ^ k <= 2 ^ (d - 1)) by (apply Z.pow_le_mono_r; lia). lia.
  - assert (2 ^ d <= 2 ^ (k - 1)) by (apply Z.pow_le_mono_r; lia). lia.
Qed.

Lemma round_nearest_even_step m l :
  round_nearest_even m l = m \/ round_nearest_even m l = m + 1.
Proof.
  unfold round_nearest_even. destruct l as [|[]]; auto. destruct (Z.even m); auto.
Qed.

Lemma shr_m_of_loc m l : shr_m (shr_record_of_loc m l) = m.
Proof. destruct l as [|[]]; reflexivity. Qed.

Lemma shr_1_halves p r t :
  2 ^ 53 <= Z.pos p < 2 ^ 54 ->
  exists p', shr_m (shr_1 (Build_shr_record (Z.pos p) r t)) = Z.pos p'
             /\ 2 ^ 52 <= Z.pos p' < 2 ^ 53.
Proof.
  intros H. destruct p as [p'|p'|]; cbn [shr_1 shr_m].
  - exists p'. split; [reflexivity|]. change (2 ^ 53) with (2 * 2 ^ 52) in H.
    change (2 ^ 54) with (2 * 2 ^ 53) in H. lia.
  - exists p'. split; [reflexivity|]. change (2 ^ 53) with (2 * 2 ^ 52) in H.
    change (2 ^ 54) with (2 * 2 ^ 53) in H. lia.
  - cbn in H. lia.
Qed.

(** The second rounding step of [binary_round_aux] on a mantissa of 53
    bits that was rounded up by at most one: mantissa and exponent shift
    do not depend on the exponent. *)
Lemma round_stage2 m1 l1 :
  2 ^ 52 <= m1 < 2 ^ 53 ->
  exists my d,
    digits2_pos my = 53%positive /\ 0 <= d <= 1
    /\ forall e1, -1074 <= e1 ->
         shr_fexp prec emax (round_nearest_even m1 l1) e1 loc_Exact
         = (Build_shr_record (Z.pos my) false false, e1 + d).
Proof.
  intros Hm.
  assert (Hr : 2 ^ 52 <= round_nearest_even m1 l1 < 2 ^ 53
               \/ round_nearest_even m1 l1 = 2 ^ 53).
  { destruct (round_nearest_even_step m1 l1) as [-> | ->]; lia. }
  destruct Hr as [Hr | ->].
  - destruct (round_nearest_even m1 l1) as [|pr|pr] eqn:Er; try lia.
    assert (Hd : Z.pos (digits2_pos pr) = 53) by (apply digits2_pos_unique; [lia|exact Hr]).
    exists pr, 0. split; [congruence|]. split; [lia|]. intros e1 He.
    unfold shr_fexp. cbn [Zdigits2]. rewrite Hd.
    rewrite (fexp_normal (53 + e1)) by lia.
    replace (53 + e1 - 53 - e1) with 0 by lia. rewrite Z.add_0_r. reflexivity.
  - exists 4503599627370496%positive, 1. split; [reflexivity|]. split; [lia|].
    intros e1 He.
    unfold shr_fexp. change (Zdigits2 (2 ^ 53)) with 54.
    rewrite (fexp_normal (54 + e1)) by lia.
    replace (54 + e1 - 53 - e1) with 1 by lia. reflexivity.
Qed.

(** The first shift of [binary_round_aux] on a quotient of 53 or 54
    bits leaves a mantissa of 53 bits. *)
Lemma round_stage1 q l :
  2 ^ 52 <= q < 2 ^ 54 ->
  exists m1 r1 t1 d,
    2 ^ 52 <= m1 < 2 ^ 53 /\ 0 <= d <= 1
    /\ forall E, -1074 <= E ->
         shr_fexp prec emax q E l = (Build_shr_record m1 r1 t1, E + d).
Proof.
  intros Hq.
  destruct q as [|pq|pq]; try lia.
  assert (Hc : 2 ^ 52 <= Z.pos pq < 2 ^ 53 \/ 2 ^ 53 <= Z.pos pq < 2 ^ 54) by lia.
  pose proof (shr_m_of_loc (Z.pos pq) l) as Hx.
  destruct (shr_record_of_loc (Z.pos pq) l) as [m0 r0 t0] eqn:Erec.
  cbn [shr_m] in Hx. subst m0.
  destruct Hc as [Hc | Hc].
  - assert (Hd : Z.pos (digits2_pos pq) = 53) by (apply digits2_pos_unique; [lia|exact Hc]).
    exists (Z.pos pq), r0, t0, 0. split; [exact Hc|]. split; [lia|]. intros E HE.
    unfold shr_fexp. cbn [Zdigits2]. rewrite Hd.
    rewrite (fexp_normal (53 + E)) by lia.
    replace (53 + E - 53 - E) with 0 by lia. cbn [shr].
    rewrite Erec, Z.add_0_r. reflexivity.
  - assert (Hd : Z.pos (digits2_pos pq) = 54) by (apply digits2_pos_unique; [lia|exact Hc]).
    destruct (shr_1_halves pq r0 t0 Hc) as (p' & Hp' & Hb).
    destruct (shr_1 {| shr_m := Z.pos pq; shr_r := r0; shr_s := t0 |}) as [m1 r1 t1] eqn:E1.
    cbn [shr_m] in Hp'. subst m1.
    exists (Z.pos p'), r1, t1, 1. split; [exact Hb|]. split; [lia|]. intros E HE.
    unfold shr_fexp. cbn [Zdigits2]. rewrite Hd.
    rewrite (fexp_normal (54 + E)) by lia.
    replace (54 + E - 53 - E) with 1 by lia. cbn [shr iter_pos].
    rewrite Erec, E1. reflexivity.
Qed.

(** [binary_round_aux] on a quotient of 53 or 54 bits: the result is a
    normal number whose mantissa does not depend on the exponent. *)
Lemma binary_round_aux_normal s q l :
  2 ^ 52 <= q < 2 ^ 54 ->
  exists my d,
    digits2_pos my = 53%positive /\ 0 <= d <= 2
    /\ forall E, -1074 <= E -> E + 2 <= 971 ->
         binary_round_aux prec emax s q E l = S754_finite s my (E + d).
Proof.
  intros Hq.
  destruct (round_stage1 q l Hq) as (m1 & r1 & t1 & d1 & Hm1 & Hd1 & S1).
  destruct (round_stage2 m1
              (loc_of_shr_record {| shr_m := m1; shr_r := r1; shr_s := t1 |}) Hm1)
    as (my & d2 & Hdy & Hd2 & S2).
  exists my, (d1 + d2). split; [exact Hdy|]. split; [lia|]. intros E Hlo Hhi.
  unfold binary_round_aux. rewrite (S1 E Hlo). cbn [shr_m].
  rewrite (S2 (E + d1)) by lia. cbn [shr_m].
  replace (E + d1 + d2) with (E + (d1 + d2)) by lia.
  destruct (Z.leb_spec (E + (d1 + d2)) (emax - prec)) as [H|H];
    [reflexivity | unfold emax, prec in H; lia].
Qed.

(** The quotient of a normal number by pi is a normal number; its
    mantissa depends on the mantissa of the dividend only. *)
Lemma div_pi_normal s m :
  digits2_pos m = 53%positive ->
  exists my d,
    digits2_pos my = 53%positive /\ -2 <= d <= 0
    /\ forall e, -1072 <= e -> e <= 971 ->
         SFdiv prec emax (S754_finite s m e) pi = S754_finite s my (e + d).
Proof.
  intros Hd.
  pose proof (digits2_pos_bounds m) as Hm. rewrite Hd in Hm.
  change (2 ^ (53 - 1)) with (2 ^ 52) in Hm.
  assert (Hq : 2 ^ 52 <= fst (Z.div_eucl (Z.shiftl (Z.pos m) 53) 7074237752028440) < 2 ^ 54).
  { rewrite Z.shiftl_mul_pow2 by lia.
    pose proof (Z.div_eucl_eq (Z.pos m * 2 ^ 53) 7074237752028440 ltac:(lia)) as Heq.
    pose proof (Z.mod_pos_bound (Z.pos m * 2 ^ 53) 7074237752028440 ltac:(lia)) as Hb.
    unfold Z.modulo in Hb.
    destruct (Z.div_eucl (Z.pos m * 2 ^ 53) 7074237752028440) as [q r]. cbn [fst].
    change (2 ^ 53) with 9007199254740992 in *. change (2 ^ 52) with 4503599627370496 in *.
    change (2 ^ 54) with 18014398509481984. nia. }
  destruct (Z.div_eucl (Z.shiftl (Z.pos m) 53) 7074237752028440) as [q r] eqn:Ediv.
  cbn [fst] in Hq.
  destruct (binary_round_aux_normal s q (new_location 7074237752028440 r) Hq)
    as (my & d & Hdy & Hdd & R).
  exists my, (d - 2). split; [exact Hdy|]. split; [lia|]. intros e Hlo Hhi.
  unfold pi, SFdiv, SFdiv_core_binary.
  cbn [Zdigits2]. rewrite Hd.
  change (Z.pos (digits2_pos 7074237752028440)) with 53.
  replace (53 + e - (53 + -51)) with (e + 51) by lia.
  rewrite (fexp_normal (e + 51)) by lia.
  replace (Z.min (e + 51 - 53) (e - -51)) with (e - 2) by lia.
  replace (e - -51 - (e - 2)) with 53 by lia.
  rewrite Ediv, xorb_false_r, (R (e - 2)) by lia.
  f_equal. lia.
Qed.

(** Dividing a normal number by 4 lowers its exponent by 2, down to the
    least exponent. *)
Lemma div_four_exact s m e :
  digits2_pos m = 53%positive -> -1072 <= e -> e <= 973 ->
  SFdiv prec emax (S754_finite s m e) four = S754_finite s m (e - 2).
Proof.
  intros Hd Hlo Hhi.
  destruct (Z.eq_dec e (-1072)) as [-> | Hne];
    [|apply div_four_normal; [exact Hd|lia|exact Hhi]].
  unfold four, SFdiv, SFdiv_core_binary.
  cbn [Zdigits2]. rewrite Hd.
  change (Z.pos (digits2_pos 4503599627370496)) with 53.
  change (Z.min (fexp prec emax (53 + -1072 - (53 + -50))) (-1072 - -50)) with (-1074).
  change (-1072 - -50 - -1074) with 52. cbv beta iota zeta.
  assert (Hdiv : Z.div_eucl (Z.shiftl (Z.pos m) 52) 4503599627370496 = (Z.pos m, 0)).
  { rewrite Z.shiftl_mul_pow2 by lia.
    pose proof (Z.div_eucl_eq (Z.pos m * 2 ^ 52) 4503599627370496 ltac:(lia)) as Heq.
    pose proof (Z.mod_pos_bound (Z.pos m * 2 ^ 52) 4503599627370496 ltac:(lia)) as Hb.
    unfold Z.modulo in Hb.
    destruct (Z.div_eucl (Z.pos m * 2 ^ 52) 4503599627370496) as [q r].
    change (2 ^ 52) with 4503599627370496 in Heq.
    assert (q = Z.pos m /\ r = 0) as [-> ->]; [|reflexivity]. nia. }
  rewrite Hdiv.
  change (new_location 4503599627370496 0) with loc_Exact.
  unfold binary_round_aux, shr_fexp.
  cbn [Zdigits2]. rewrite Hd.
  change (fexp prec emax (53 + -1074) - -1074) with 0.
  cbn [shr shr_record_of_loc shr_m loc_of_shr_record round_nearest_even orb].
  cbn [Zdigits2]. rewrite Hd.
  change (fexp prec emax (53 + -1074) - -1074) with 0.
  cbn [shr shr_record_of_loc shr_m].
  rewrite xorb_false_r. reflexivity.
Qed.

(** The two orders of dividing by 4 and by pi agree on normal numbers
    of magnitude 2^-1018 and above. *)
Lemma div_four_pi_normal s m e :
  digits2_pos m = 53%positive -> -1070 <= e -> e <= 971 ->
  div (div (S754_finite s m e) four) pi = div (div (S754_finite s m e) pi) four.
Proof.
  intros Hd Hlo Hhi. unfold div.
  destruct (div_pi_normal s m Hd) as (my & d & Hdy & Hdd & R).
  rewrite (div_four_exact s m e Hd) by lia.
  rewrite (R (e - 2)) by lia. rewrite (R e) by lia.
  rewrite (div_four_exact s my (e + d) Hdy) by lia.
  f_equal. lia.
Qed.

(** Away from underflow the two orders of dividing by 4 and by pi give
    the same number. *)
Lemma div_four_pi x :
  clear_of_underflow x = true -> div (div x four) pi = div (div x pi) four.
Proof.
  destruct x as [s|s| |s m e]; try (intros _; destruct s; reflexivity);
    try (intros _; reflexivity).
  unfold clear_of_underflow. intros H.
  apply andb_prop in H. destruct H as [H He2].
  apply andb_prop in H. destruct H as [Hd He1].
  apply Pos.eqb_eq in Hd. apply Z.leb_le in He1. apply Z.leb_le in He2.
  apply div_four_pi_normal; assumption.
Qed.

End ScaleFacts.

(** ** The claims on field_BH_triangle.py *)

Module FieldClaims.
Import B64 Np field_BH_triangle B64Facts FieldFacts ListFacts BatchFacts CoarseFacts
  FieldRows ScaleFacts.
Local Open Scope b64_scope.

(** C2.  For every batch of observer vectors [R] (shape (3,n,3)) and norms
    [r] (shape (3,n)), [solid_angle] returns n values; row j is
    2 atan2(N, D) with N = R2 . (R1 x R0) and
    D = r0 r1 r2 + r0 (R2 . R1) + r1 (R2 . R0) + r2 (R1 . R0), replaced by 0
    when its magnitude exceeds 6.2831853; the magnitude of the returned
    value never exceeds 2 pi. *)
Theorem solid_angle_formula_and_bound lm (R0 R1 R2 : arr2) (r0 r1 r2 : arr1) n :
  List.length R0 = n -> List.length R1 = n -> List.length R2 = n ->
  List.length r0 = n -> List.length r1 = n -> List.length r2 = n ->
  List.length (solid_angle lm (R0, R1, R2) (r0, r1, r2)) = n
  /\ forall j, j < n ->
       nth j (solid_angle lm (R0, R1, R2) (r0, r1, r2)) nan
       = solid_angle_spec lm (nth j R0 origin) (nth j R1 origin) (nth j R2 origin)
                          (nth j r0 nan) (nth j r1 nan) (nth j r2 nan)
       /\ gtb (fabs (nth j (solid_angle lm (R0, R1, R2) (r0, r1, r2)) nan)) two_pi
          = false.
Proof.
  intros H0 H1 H2 H3 H4 H5.
  rewrite (solid_angle_table lm R0 R1 R2 r0 r1 r2 n H0 H1 H2 H3 H4 H5).
  split; [rewrite length_map, length_seq; reflexivity|].
  intros j Hj. rewrite nth_map_seq by exact Hj.
  split; [symmetry; apply solid_angle_spec_row | apply sangle_clip_bound].
Qed.

Lemma solid_angle_formula_and_bound_witness :
  nth 0 (solid_angle Coarse.libm
           ([t3_0 tri_pi], [t3_1 tri_pi], [t3_2 tri_pi])
           ([of_Z 9], [of_Z 3], [of_Z 3])) nan
  = solid_angle_spec Coarse.libm (t3_0 tri_pi) (t3_1 tri_pi) (t3_2 tri_pi)
      (of_Z 9) (of_Z 3) (of_Z 3).
Proof.
  exact (proj1 (proj2 (solid_angle_formula_and_bound Coarse.libm
           [t3_0 tri_pi] [t3_1 tri_pi] [t3_2 tri_pi] [of_Z 9] [of_Z 3] [of_Z 3] 1
           eq_refl eq_refl eq_refl eq_refl eq_refl eq_refl) 0 (le_n 1))).
Defined.

(** C3.  In [triangle_field], for each of the three edges and each row j
    on its own, the kernel [I] is (1/l) ln[(sqrt(l^2 + 2b + r^2) + l + b/l) / ind]
    when ind = |r + b/l| exceeds 1e-12, and -(1/l) ln(|l - r| / r)
    otherwise, with b = R . L computed from row j of the observers and of
    the vertices. *)
Theorem edge_integrals_per_element lm (observers : arr2) (vertices : arr3) n :
  List.length observers = n -> List.length vertices = n ->
  let R := vertex_observer observers vertices in
  let r2 := sum_squares R in
  let r := t3map (map sqrt) r2 in
  let L := vertex_vertex vertices in
  let l2 := sum_squares L in
  let l := t3map (map sqrt) l2 in
  let I := edge_integrals lm R L r2 r l2 l in
  forall j, j < n ->
    let obs := nth j observers origin in
    let v := nth j vertices tri0 in
    nth j (t3_0 I) nan
    = edge_kernel_spec lm (vsub (t3_0 v) obs) (vsub (t3_1 v) (t3_0 v))
    /\ nth j (t3_1 I) nan
       = edge_kernel_spec lm (vsub (t3_1 v) obs) (vsub (t3_2 v) (t3_1 v))
    /\ nth j (t3_2 I) nan
       = edge_kernel_spec lm (vsub (t3_2 v) obs) (vsub (t3_0 v) (t3_2 v)).
Proof.
  intros Ho Hv R r2 r L l2 l I j Hj obs v. subst I l l2 r r2.
  subst R L. rewrite (edge_integrals_table lm observers vertices n Ho Hv).
  cbv zeta. cbn [t3_0 t3_1 t3_2 fst snd].
  rewrite !nth_map_seq by exact Hj.
  repeat split.
Qed.

Lemma edge_integrals_per_element_witness :
  nth 0 (t3_0 (let R := vertex_observer [origin] [tri_pi] in
               let L := vertex_vertex [tri_pi] in
               edge_integrals Coarse.libm R L (sum_squares R)
                 (t3map (map sqrt) (sum_squares R))
                 (sum_squares L) (t3map (map sqrt) (sum_squares L)))) nan
  = edge_kernel_spec Coarse.libm (vsub (t3_0 tri_pi) origin)
      (vsub (t3_1 tri_pi) (t3_0 tri_pi)).
Proof.
  exact (proj1 (edge_integrals_per_element Coarse.libm [origin] [tri_pi] 1
                  eq_refl eq_refl 0 (le_n 1))).
Defined.

(** X14.  [triangle_field] computes row j of its result from row j of
    its arguments alone.  At a row whose observer has the coordinates of a
    vertex of the triangle no component of the contribution is a finite
    number and at least one is NaN.  At a row where the oriented volume
    [N], as computed, is a zero and [D] is not NaN the solid angle is a
    zero, and with a finite normal the factor of the charge is the
    negated edge term n x PQR alone. *)
Theorem degenerate_rows lm field (observers : arr2) (vertices : arr3)
    (polarizations : arr2) n :
  IEEE_libm lm ->
  List.length observers = n -> List.length vertices = n ->
  List.length polarizations = n ->
  let out := triangle_field lm field observers vertices polarizations in
  List.length out = n
  /\ forall j, j < n ->
       let obs := nth j observers origin in
       let v := nth j vertices tri0 in
       let R := R_row obs v in
       let r := t3map (fun Ri => sqrt (sumsq Ri)) R in
       nth j out origin = triangle_field_row lm field obs v (nth j polarizations origin)
       /\ (at_vertex obs v ->
           nonfinite3 (nth j out origin) /\ has_nan (nth j out origin))
       /\ (is_zero (sangle_N R) = true -> is_nan (sangle_D R r) = false ->
           is_zero (solid_angle_row lm R r) = true
           /\ (finite3 (norm_vector_row v) ->
               negated3 (cross (norm_vector_row v) (PQR_row lm obs v))
                        (geometry_row lm obs v))).
Proof.
  intros ieee Ho Hv Hp out. subst out.
  rewrite (triangle_field_table lm field observers vertices polarizations n Ho Hv Hp).
  split; [rewrite length_map, length_seq; reflexivity|].
  intros j Hj obs v R r. rewrite nth_map_seq by exact Hj.
  split; [reflexivity|]. split.
  - apply corner_row, ieee.
  - intros HN HD.
    pose proof (solid_angle_row_coplanar lm ieee R r HN HD) as Hz.
    split; [exact Hz|]. intros Hn.
    apply (geometry_row_coplanar lm obs v Hz Hn).
Qed.

Lemma degenerate_rows_witness :
  (at_vertex origin tri_corner
   /\ has_nan (nth 0 (triangle_field Coarse.libm FieldB [origin] [tri_corner]
                        [vec_Z 1 0 0]) origin))
  /\ (is_zero (sangle_N (R_row obs_flat tri_flat)) = true
      /\ is_zero (solid_angle_row Coarse.libm (R_row obs_flat tri_flat)
                   (t3map (fun Ri => sqrt (sumsq Ri)) (R_row obs_flat tri_flat)))
         = true).
Proof.
  assert (Hat : at_vertex origin tri_corner) by (left; reflexivity).
  assert (HN : is_zero (sangle_N (R_row obs_flat tri_flat)) = true)
    by (vm_compute; reflexivity).
  split; split.
  - exact Hat.
  - exact (proj2 (proj1 (proj2 (proj2 (degenerate_rows Coarse.libm FieldB
             [origin] [tri_corner] [vec_Z 1 0 0] 1 coarse_is_ieee
             eq_refl eq_refl eq_refl) 0 (le_n 1))) Hat)).
  - exact HN.
  - refine (proj1 (proj2 (proj2 (proj2 (degenerate_rows Coarse.libm FieldB
              [obs_flat] [tri_flat] [pol_z one] 1 coarse_is_ieee
              eq_refl eq_refl eq_refl) 0 (le_n 1))) HN _)).
    vm_compute. reflexivity.
Defined.

(** C4.  The docstring of [triangle_field] says: corners give
    (nan, nan, nan); edges and in-plane perp components are set to 0.
    With the observer at the first vertex of [tri_corner] the row is
    (-inf, NaN, +inf), not NaN in all three components; so it is with the
    coarse libm, and with every libm under which the edge opposite to
    that vertex contributes finitely.  With the observer [obs_flat] in the
    plane z = 0 of [tri_flat], outside the triangle on the line of its
    first edge, the row is NaN in every component for every libm, not the
    zero vector.  Nothing is raised in either case. *)
Lemma degenerate_rows_evaluated :
  (at_vertex origin tri_corner
   /\ triangle_field Coarse.libm FieldB [origin] [tri_corner] [vec_Z 1 0 0]
      = [(ninf, nan, pinf)]
   /\ (forall lm, IEEE_libm lm ->
         finite3 (t3map (mul (edge_kernel lm (t3_1 (R_row origin tri_corner))
                                (t3_1 (L_row tri_corner))))
                    (t3_1 (L_row tri_corner))) ->
         triangle_field lm FieldB [origin] [tri_corner] [vec_Z 1 0 0]
         = [(ninf, nan, pinf)]))
  /\ (t3map (@t3_2 F) tri_flat = (pzero, pzero, pzero) /\ t3_2 obs_flat = pzero
      /\ sangle_N (R_row obs_flat tri_flat) = pzero
      /\ triangle_field Coarse.libm FieldB [obs_flat] [tri_flat] [pol_z one]
         = [(nan, nan, nan)]
      /\ (forall lm, IEEE_libm lm ->
            triangle_field lm FieldB [obs_flat] [tri_flat] [pol_z one]
            = [(nan, nan, nan)])).
Proof.
  split.
  - split; [left; reflexivity|]. split; [vm_compute; reflexivity|].
    intros lm ieee HF. rewrite triangle_field_single.
    rewrite (corner_example_row lm ieee HF). reflexivity.
  - split; [reflexivity|]. split; [reflexivity|]. split; [vm_compute; reflexivity|].
    split; [vm_compute; reflexivity|].
    intros lm ieee. rewrite triangle_field_single, (flat_row lm ieee). reflexivity.
Qed.

(** C5, as amended.  For co-indexed batches of n rows, [triangle_field]
    returns n rows of three components.  With field B, row j is the
    assembled field sigma (n solid_angle - n x PQR) divided by pi and then
    by 4; with field H it is the same assembled field divided by 4, by pi
    and by MU0.  A component of row j of H is that component of row j of B
    divided by MU0 whenever the assembled value is far enough from
    underflow: a zero, an infinity, NaN, or a number of magnitude 2^-1018
    and above. *)
Theorem field_kind_scaling lm (observers : arr2) (vertices : arr3)
    (polarizations : arr2) n :
  List.length observers = n -> List.length vertices = n ->
  List.length polarizations = n ->
  let B := triangle_field lm FieldB observers vertices polarizations in
  let H := triangle_field lm FieldH observers vertices polarizations in
  List.length B = n /\ List.length H = n
  /\ forall j, j < n ->
       let assembled :=
         assembled_row lm (nth j observers origin) (nth j vertices tri0)
           (nth j polarizations origin) in
       nth j B origin = t3map (fun x => (x / pi) / four) assembled
       /\ nth j H origin = t3map (fun x => ((x / four) / pi) / MU0) assembled
       /\ (clear_of_underflow (t3_0 assembled) = true ->
           t3_0 (nth j H origin) = t3_0 (nth j B origin) / MU0)
       /\ (clear_of_underflow (t3_1 assembled) = true ->
           t3_1 (nth j H origin) = t3_1 (nth j B origin) / MU0)
       /\ (clear_of_underflow (t3_2 assembled) = true ->
           t3_2 (nth j H origin) = t3_2 (nth j B origin) / MU0).
Proof.
  intros Ho Hv Hp B H. subst B H.
  rewrite !(triangle_field_table lm _ observers vertices polarizations n Ho Hv Hp).
  rewrite !length_map, !length_seq.
  split; [reflexivity|]. split; [reflexivity|].
  intros j Hj assembled. rewrite !nth_map_seq by exact Hj.
  unfold triangle_field_row. cbn [check_field_input]. fold assembled.
  unfold scale_B, scale_H. destruct assembled as [[x y] z].
  unfold t3map. cbn [t3_0 t3_1 t3_2 fst snd].
  split; [reflexivity|]. split; [reflexivity|].
  repeat split; intros E; apply (f_equal (fun u => u / MU0)); apply div_four_pi, E.
Qed.

(** Under [tri_pi] with unit polarization along z the assembled z
    component is far from underflow. *)
Lemma field_kind_scaling_witness :
  clear_of_underflow
    (t3_2 (assembled_row Coarse.libm origin tri_pi (pol_z one))) = true
  /\ t3_2 (nth 0 (triangle_field Coarse.libm FieldH [origin] [tri_pi] [pol_z one]) origin)
     = t3_2 (nth 0 (triangle_field Coarse.libm FieldB [origin] [tri_pi] [pol_z one])
               origin) / MU0.
Proof.
  assert (E : clear_of_underflow
                (t3_2 (assembled_row Coarse.libm origin tri_pi (pol_z one))) = true)
    by (vm_compute; reflexivity).
  split; [exact E|].
  exact (proj2 (proj2 (proj2 (proj2 (proj2 (proj2 (field_kind_scaling Coarse.libm
            [origin] [tri_pi] [pol_z one] 1 eq_refl eq_refl eq_refl)) 0 (le_n 1)))))
          E).
Defined.

(** C5, counterexample.  Under [tri_pi], with the polarization 2^-1073
    along z, the z component of B is -0 while that of H is
    -795775 * 2^-1074: H is not B / MU0.  So it is with the coarse libm,
    and with every libm whose logarithms leave [PQR] finite. *)
Lemma field_kind_scaling_counterexample :
  (let B := nth 0 (triangle_field Coarse.libm FieldB [origin] [tri_pi] [pol_z tiny])
              origin in
   let H := nth 0 (triangle_field Coarse.libm FieldH [origin] [tri_pi] [pol_z tiny])
              origin in
   t3_2 B = nzero
   /\ t3_2 B / MU0 = nzero
   /\ t3_2 H = S754_finite true 795775 (-1074)
   /\ eqb (t3_2 H) (t3_2 B / MU0) = false)
  /\ (forall lm, IEEE_libm lm -> finite3 (PQR_row lm origin tri_pi) ->
        t3_2 (nth 0 (triangle_field lm FieldB [origin] [tri_pi] [pol_z tiny]) origin)
        = nzero
        /\ t3_2 (nth 0 (triangle_field lm FieldH [origin] [tri_pi] [pol_z tiny]) origin)
           = S754_finite true 795775 (-1074)).
Proof.
  split.
  - vm_compute. repeat split.
  - intros lm ieee HP. rewrite !triangle_field_single. cbn [nth].
    apply (tri_pi_tiny lm ieee HP).
Qed.

(** C10, counterexample.  First, zero polarization with the observer at a
    vertex of [tri_corner]: the field is NaN, not zero, for every libm.
    Second, under [tri_pi] all rows are finite, and with a = 11, b = 0,
    p = (0, 0, 1) and q = 0 the z component of the field of a p + b q is
    -2.7499999999999996 while a times the field of p plus b times the
    field of q has -2.75; so it is with the coarse libm, and with every
    libm whose logarithms leave [PQR] finite. *)
Lemma polarization_linearity_counterexample :
  (let field p :=
     nth 0 (triangle_field Coarse.libm FieldB [origin] [tri_pi] [p]) origin in
   let a := of_Z 11 in
   let b := pzero in
   let p := pol_z one in
   let q := origin in
   let combination := t3map2 add (t3map (mul a) p) (t3map (mul b) q) in
   let expected := t3map2 add (t3map (mul a) (field p)) (t3map (mul b) (field q)) in
   triangle_field Coarse.libm FieldB [origin] [tri_corner] [origin] = [(nan, nan, nan)]
   /\ combination = pol_z (of_Z 11)
   /\ finite3 (field p) /\ finite3 (field q) /\ finite3 (field combination)
   /\ t3_2 (field combination) = S754_finite true 6192449487634431 (-51)
   /\ t3_2 expected = S754_finite true 6192449487634432 (-51)
   /\ eqb (t3_2 (field combination)) (t3_2 expected) = false)
  /\ (forall lm, IEEE_libm lm ->
        has_nan (nth 0 (triangle_field lm FieldB [origin] [tri_corner] [origin])
                   origin))
  /\ (forall lm, IEEE_libm lm -> finite3 (PQR_row lm origin tri_pi) ->
        t3_2 (nth 0 (triangle_field lm FieldB [origin] [tri_pi] [pol_z one]) origin)
        = S754_finite true 4503599627370496 (-54)
        /\ t3_2 (nth 0 (triangle_field lm FieldB [origin] [tri_pi] [pol_z (of_Z 11)])
                   origin)
           = S754_finite true 6192449487634431 (-51)).
Proof.
  split; [|split].
  - vm_compute. repeat split.
  - intros lm ieee. rewrite triangle_field_single. cbn [nth].
    apply (corner_row lm ieee). left; reflexivity.
  - intros lm ieee HP. rewrite !triangle_field_single. cbn [nth].
    apply (tri_pi_eleven lm ieee HP).
Qed.
End FieldClaims.

(** ** The claims on class_magnet_TriangularMesh.py *)

Module MeshClaims.

Import class_magnet_TriangularMesh.
Local Open Scope string_scope.

Lemma accepted_cases (errors : string) :
  In errors accepted_errors_vals ->
  errors = "warn" \/ errors = "raise" \/ errors = "ignore".
Proof.
  unfold accepted_errors_vals. simpl. intuition auto.
Qed.

Lemma not_accepted (errors : string) :
  ~ In errors accepted_errors_vals ->
  existsb (String.eqb errors) accepted_errors_vals = false.
Proof.
  intros H. destruct (existsb _ _) eqn:E; [|reflexivity].
  apply existsb_exists in E. destruct E as (x & Hx & Heq).
  apply String.eqb_eq in Heq. subst x. contradiction.
Qed.

Section WithMeshFunctions.
Variable repr : string -> string.
Variable trimesh_is_closed : list face -> bool.
Variable get_disjoint_faces_subsets : list face -> list (list face).
Variable inwards : list vec3 -> list face -> nat -> bool.
Variable array_like : Type.
Variable check_format_input_vector : array_like -> string -> outcome (list vec3).
Variable astype_int : list vec3 -> list face.
Variable self_str : string.
Variable BaseMagnet_init : outcome unit * list event.

Lemma is_closed_invalid errors self :
  ~ In errors accepted_errors_vals ->
  is_closed repr trimesh_is_closed errors self
  = (Raise (ValueError (msg_bad_arg (repr errors))), self, []).
Proof.
  intros H. unfold is_closed, _validate_error_arg, bind.
  rewrite (not_accepted errors H). reflexivity.
Qed.

Lemma is_closed_cached errors self b :
  In errors accepted_errors_vals ->
  _is_closed self = Some b ->
  is_closed repr trimesh_is_closed errors self = (Return (Some b), self, []).
Proof.
  intros H Hc. apply accepted_cases in H.
  destruct H as [-> | [-> | ->]];
    unfold is_closed, _validate_error_arg, bind, get, ret; cbn;
    rewrite Hc; cbn; rewrite Hc; reflexivity.
Qed.

Lemma is_closed_first errors self :
  In errors accepted_errors_vals ->
  _is_closed self = None ->
  is_closed repr trimesh_is_closed errors self =
  let c := trimesh_is_closed (_faces self) in
  let self' := with_is_closed (Some c) self in
  if c then (Return (Some true), self', [Called "trimesh_is_closed"])
  else if String.eqb errors "warn"
       then (Return (Some false), self', [Called "trimesh_is_closed"; Warning msg_open])
  else if String.eqb errors "raise"
       then (Raise (ValueError msg_open), self', [Called "trimesh_is_closed"])
  else (Return (Some false), self', [Called "trimesh_is_closed"]).
Proof.
  intros H Hc. apply accepted_cases in H.
  destruct H as [-> | [-> | ->]];
    unfold is_closed, _validate_error_arg, bind, get, ret; cbn;
    rewrite Hc; cbn; destruct (trimesh_is_closed (_faces self)); reflexivity.
Qed.

Lemma get_faces_subsets_run self :
  get_faces_subsets get_disjoint_faces_subsets self =
  match _faces_subsets self with
  | None =>
      (Return (get_disjoint_faces_subsets (_faces self)),
       with_faces_subsets (Some (get_disjoint_faces_subsets (_faces self))) self,
       [Called "get_disjoint_faces_subsets"])
  | Some subsets => (Return subsets, self, [])
  end.
Proof.
  unfold get_faces_subsets, bind, get, ret. cbn.
  destruct (_faces_subsets self); reflexivity.
Qed.

Lemma is_connected_cached errors self b :
  In errors accepted_errors_vals ->
  _is_connected self = Some b ->
  is_connected repr get_disjoint_faces_subsets errors self = (Return (Some b), self, []).
Proof.
  intros H Hc. apply accepted_cases in H.
  destruct H as [-> | [-> | ->]];
    unfold is_connected, _validate_error_arg, bind, get, ret; cbn;
    rewrite Hc; cbn; rewrite Hc; reflexivity.
Qed.

(** Whatever a call of [is_closed] does, it leaves the closed flag set
    unless the mode was rejected. *)
Lemma is_closed_sets_flag errors self o self' ev :
  is_closed repr trimesh_is_closed errors self = (o, self', ev) ->
  In errors accepted_errors_vals ->
  exists b, _is_closed self' = Some b.
Proof.
  intros Hrun H.
  destruct (_is_closed self) as [b|] eqn:Hc.
  - rewrite (is_closed_cached errors self b H Hc) in Hrun. inversion Hrun; subst. eauto.
  - rewrite (is_closed_first errors self H Hc) in Hrun. cbv zeta in Hrun.
    destruct (trimesh_is_closed (_faces self));
      [|destruct (String.eqb errors "warn"); [|destruct (String.eqb errors "raise")]];
      inversion Hrun; subst; cbn; eauto.
Qed.

Lemma is_closed_returns errors self v self' ev :
  is_closed repr trimesh_is_closed errors self = (Return v, self', ev) ->
  In errors accepted_errors_vals /\ v = _is_closed self' /\ exists b, v = Some b.
Proof.
  intros Hrun.
  destruct (in_dec string_dec errors accepted_errors_vals) as [H|H].
  - split; [exact H|].
    destruct (_is_closed self) as [b|] eqn:Hc.
    + rewrite (is_closed_cached errors self b H Hc) in Hrun. inversion Hrun; subst. eauto.
    + rewrite (is_closed_first errors self H Hc) in Hrun. cbv zeta in Hrun.
      destruct (trimesh_is_closed (_faces self));
        [|destruct (String.eqb errors "warn"); [|destruct (String.eqb errors "raise")]];
        inversion Hrun; subst; cbn; eauto.
  - rewrite (is_closed_invalid errors self H) in Hrun. discriminate.
Qed.

Lemma is_connected_first errors self :
  In errors accepted_errors_vals ->
  _is_connected self = None ->
  is_connected repr get_disjoint_faces_subsets errors self =
  let '(subsets, self1, ev1) :=
    match _faces_subsets self with
    | None =>
        (get_disjoint_faces_subsets (_faces self),
         with_faces_subsets (Some (get_disjoint_faces_subsets (_faces self))) self,
         [Called "get_disjoint_faces_subsets"])
    | Some subsets => (subsets, self, [])
    end in
  let c := Nat.eqb (List.length subsets) 1 in
  let self' := with_is_connected (Some c) self1 in
  if c then (Return (Some true), self', ev1)
  else if String.eqb errors "warn"
       then (Return (Some false), self', (ev1 ++ [Warning msg_disjoint])%list)
  else if String.eqb errors "raise"
       then (Raise (ValueError msg_disjoint), self', ev1)
  else (Return (Some false), self', ev1).
Proof.
  intros H Hc. apply accepted_cases in H.
  destruct H as [-> | [-> | ->]];
    unfold is_connected, get_faces_subsets, _validate_error_arg, bind, get, ret;
    cbn; rewrite Hc; cbn;
    destruct (_faces_subsets self) as [ss|]; cbn;
    match goal with
    | |- context [Nat.eqb ?n 1] => destruct (Nat.eqb n 1)
    end; reflexivity.
Qed.

Lemma is_connected_invalid errors self :
  ~ In errors accepted_errors_vals ->
  is_connected repr get_disjoint_faces_subsets errors self
  = (Raise (ValueError (msg_bad_arg (repr errors))), self, []).
Proof.
  intros H. unfold is_connected, _validate_error_arg, bind.
  rewrite (not_accepted errors H). reflexivity.
Qed.

Lemma is_connected_returns errors self v self' ev :
  is_connected repr get_disjoint_faces_subsets errors self = (Return v, self', ev) ->
  In errors accepted_errors_vals /\ v = _is_connected self' /\ exists b, v = Some b.
Proof.
  intros Hrun.
  destruct (in_dec string_dec errors accepted_errors_vals) as [H|H].
  - split; [exact H|].
    destruct (_is_connected self) as [b|] eqn:Hc.
    + rewrite (is_connected_cached errors self b H Hc) in Hrun. inversion Hrun; subst. eauto.
    + rewrite (is_connected_first errors self H Hc) in Hrun.
      destruct (_faces_subsets self) as [ss|]; cbv zeta beta iota in Hrun;
      match type of Hrun with
      | context [Nat.eqb ?n 1] => destruct (Nat.eqb n 1)
      end;
      [|destruct (String.eqb errors "warn"); [|destruct (String.eqb errors "raise")]
       | |destruct (String.eqb errors "warn"); [|destruct (String.eqb errors "raise")]];
      inversion Hrun; subst; cbn; eauto.
  - rewrite (is_connected_invalid errors self H) in Hrun. discriminate.
Qed.

Lemma reorient_faces_checked errors self b :
  _is_closed self = Some b ->
  reorient_faces repr trimesh_is_closed inwards errors self =
  (Return tt,
   with_is_reoriented true
     (with_faces (fix_trimesh_orientation inwards (_vertices self) (_faces self)) self),
   [Called "fix_trimesh_orientation"]).
Proof.
  intros Hc. unfold reorient_faces, bind, get, ret. cbn. rewrite Hc. reflexivity.
Qed.

Lemma reorient_faces_unchecked errors self :
  _is_closed self = None ->
  reorient_faces repr trimesh_is_closed inwards errors self =
  match is_closed repr trimesh_is_closed errors self with
  | (Return _, self1, ev1) =>
      (Return tt,
       with_is_reoriented true
         (with_faces (fix_trimesh_orientation inwards (_vertices self1) (_faces self1))
            self1),
       Warning msg_unchecked :: (ev1 ++ [Called "fix_trimesh_orientation"])%list)
  | (Raise e, self1, ev1) => (Raise e, self1, Warning msg_unchecked :: ev1)
  end.
Proof.
  intros Hc. unfold reorient_faces, bind at 1 2, get. cbn [warn]. rewrite Hc.
  unfold bind at 1 2, warn. cbn [app].
  unfold bind at 1.
  destruct (is_closed repr trimesh_is_closed errors self) as [[[v|e] self1] ev1]; cbn.
  - rewrite app_nil_r. reflexivity.
  - reflexivity.
Qed.

Lemma is_closed_state errors self o self' ev :
  is_closed repr trimesh_is_closed errors self = (o, self', ev) ->
  self' = self \/
  (_is_closed self = None /\
   self' = with_is_closed (Some (trimesh_is_closed (_faces self))) self).
Proof.
  intros Hrun.
  destruct (in_dec string_dec errors accepted_errors_vals) as [H|H].
  - destruct (_is_closed self) as [b|] eqn:Hc.
    + rewrite (is_closed_cached errors self b H Hc) in Hrun. inversion Hrun; auto.
    + rewrite (is_closed_first errors self H Hc) in Hrun. cbv zeta in Hrun.
      right. split; [reflexivity|].
      destruct (trimesh_is_closed (_faces self));
        [|destruct (String.eqb errors "warn"); [|destruct (String.eqb errors "raise")]];
        inversion Hrun; reflexivity.
  - rewrite (is_closed_invalid errors self H) in Hrun. inversion Hrun; auto.
Qed.

Lemma flip_face_indices t :
  Permutation (face_indices t) (face_indices (flip_face t)).
Proof.
  destruct t as [[a b] c]. unfold face_indices, flip_face. cbn.
  apply perm_skip. apply perm_swap.
Qed.

Lemma mapi_flip_indices (d : nat -> bool) faces i :
  Forall2 (fun t t' => Permutation (face_indices t) (face_indices t'))
    faces (mapi_from i (fun k t => if d k then flip_face t else t) faces).
Proof.
  revert i. induction faces as [|t faces IH]; intros i; cbn.
  - constructor.
  - constructor; [|apply IH].
    destruct (d i); [apply flip_face_indices | apply Permutation_refl].
Qed.

Lemma fix_trimesh_orientation_indices vertices faces :
  Forall2 (fun t t' => Permutation (face_indices t) (face_indices t'))
    faces (fix_trimesh_orientation inwards vertices faces).
Proof. apply mapi_flip_indices. Qed.

Lemma Forall2_perm_refl (faces : list face) :
  Forall2 (fun t t' => Permutation (face_indices t) (face_indices t')) faces faces.
Proof. induction faces; constructor; auto. Qed.

(** C7, as amended.  [reorient_faces] leaves the vertex array unchanged
    and every face keeps its three vertex indices (possibly in another
    order).  When the call returns, [is_reoriented()] answers [True].
    If closedness had not been checked, the call first emits a warning
    and then runs [is_closed] itself; when that check raises, the call
    ends there with the faces and the reoriented flag as they were.  After
    a call with an accepted mode the closed flag is known. *)
Theorem reorient_faces_frame errors self :
  let '(o, self', ev) := reorient_faces repr trimesh_is_closed inwards errors self in
  _vertices self' = _vertices self
  /\ Forall2 (fun t t' => Permutation (face_indices t) (face_indices t'))
       (_faces self) (_faces self')
  /\ (o = Return tt -> is_reoriented self' = (Return true, self', []))
  /\ (forall e, o = Raise e ->
        _is_closed self = None /\
        _faces self' = _faces self /\ _is_reoriented self' = _is_reoriented self)
  /\ (_is_closed self = None ->
        exists o1 self1 ev1 rest,
          is_closed repr trimesh_is_closed errors self = (o1, self1, ev1) /\
          ev = (Warning msg_unchecked :: ev1 ++ rest)%list)
  /\ (_is_closed self <> None -> ev = [Called "fix_trimesh_orientation"])
  /\ (In errors accepted_errors_vals -> exists b, _is_closed self' = Some b).
Proof.
  destruct (_is_closed self) as [b|] eqn:Hc.
  - rewrite (reorient_faces_checked errors self b Hc).
    cbn. split; [reflexivity|]. split; [apply fix_trimesh_orientation_indices|].
    split; [reflexivity|]. split; [intros e He; discriminate|].
    split; [intros He; discriminate|].
    split; [reflexivity|]. intros _. exists b. exact Hc.
  - rewrite (reorient_faces_unchecked errors self Hc).
    destruct (is_closed repr trimesh_is_closed errors self) as [[[v|e] self1] ev1] eqn:Hrun;
      pose proof (is_closed_sets_flag errors self _ _ _ Hrun) as Hflag;
      destruct (is_closed_state errors self _ _ _ Hrun) as [-> | [_ ->]]; cbn.
    all: split; [reflexivity|].
    all: split;
      [first [apply fix_trimesh_orientation_indices | apply Forall2_perm_refl]|].
    all: split; [first [reflexivity | intros He; discriminate]|].
    all: split;
      [intros e' He; first [discriminate | repeat split; reflexivity]|].
    all: split; [|split; [intros He; congruence|
      intros Hin; destruct (Hflag Hin) as [b' Hb']; exists b'; exact Hb']].
    all: intros _; do 3 eexists.
    1,2: exists [Called "fix_trimesh_orientation"]; split; reflexivity.
    all: exists []; rewrite app_nil_r; split; reflexivity.
Qed.

(** X15.  [is_closed] on an open mesh.  A mode outside ("warn", "raise",
    "ignore") raises a ValueError whatever the mesh and whatever is
    cached, and changes nothing.  On an open mesh whose closedness has not
    been checked yet, [is_closed] computes the flag, stores [False] and:
    with "warn" emits the warning and returns [False]; with "raise" raises
    a ValueError; with "ignore" returns [False] silently.  Once a flag is
    cached, every accepted mode returns it with no warning and no error. *)
Theorem is_closed_open_mesh self :
  (forall errors, ~ In errors accepted_errors_vals ->
     is_closed repr trimesh_is_closed errors self
     = (Raise (ValueError (msg_bad_arg (repr errors))), self, []))
  /\ (trimesh_is_closed (_faces self) = false -> _is_closed self = None ->
      is_closed repr trimesh_is_closed "warn" self
      = (Return (Some false), with_is_closed (Some false) self,
         [Called "trimesh_is_closed"; Warning msg_open])
      /\ is_closed repr trimesh_is_closed "raise" self
         = (Raise (ValueError msg_open), with_is_closed (Some false) self,
            [Called "trimesh_is_closed"])
      /\ is_closed repr trimesh_is_closed "ignore" self
         = (Return (Some false), with_is_closed (Some false) self,
            [Called "trimesh_is_closed"]))
  /\ (forall b, _is_closed self = Some b ->
      forall errors, In errors accepted_errors_vals ->
        is_closed repr trimesh_is_closed errors self = (Return (Some b), self, [])).
Proof.
  split; [|split].
  - intros errors H. apply is_closed_invalid; assumption.
  - intros Hopen Hc.
    assert (Hw : In "warn" accepted_errors_vals) by (cbn; auto).
    assert (Hr : In "raise" accepted_errors_vals) by (cbn; auto).
    assert (Hi : In "ignore" accepted_errors_vals) by (cbn; auto).
    rewrite (is_closed_first _ _ Hw Hc), (is_closed_first _ _ Hr Hc), (is_closed_first _ _ Hi Hc).
    cbv zeta. rewrite Hopen. cbn. auto.
  - intros b Hc errors H. apply is_closed_cached; assumption.
Qed.




End WithMeshFunctions.

(** An open mesh of one triangle, not yet checked: "raise" raises. *)
Lemma is_closed_open_mesh_witness :
  trimesh_is_closed_spec (_faces (fresh one_triangle_vertices one_triangle)) = false /\
  is_closed repr_plain trimesh_is_closed_spec "raise"
    (fresh one_triangle_vertices one_triangle)
  = (Raise (ValueError msg_open),
     with_is_closed (Some false) (fresh one_triangle_vertices one_triangle),
     [Called "trimesh_is_closed"]).
Proof.
  split; [reflexivity|].
  apply (is_closed_open_mesh repr_plain trimesh_is_closed_spec
           (fresh one_triangle_vertices one_triangle)); reflexivity.
Defined.

(** C6.  The open mesh of one triangle, constructed without validation
    and without reorientation.  A first call of [is_closed] with "raise"
    raises the ValueError.  After a first call with "ignore", which stores
    [False], a call with "raise" raises nothing and a call with "warn"
    warns of nothing: both return the stored [False] silently, although
    the mesh is open. *)
Lemma is_closed_raise_after_ignore :
  let self0 := fresh one_triangle_vertices one_triangle in
  let self1 := with_is_closed (Some false) self0 in
  trimesh_is_closed_spec one_triangle = false
  /\ __init__ repr_plain trimesh_is_closed_spec get_disjoint_faces_subsets_spec
       never_inwards accept_array astype_int_trunc "TriangularMesh" base_returns
       (Some one_triangle_vertices) (Some one_triangle_faces) "ignore" "ignore" false
     = (Return tt, Some self0, [])
  /\ is_closed repr_plain trimesh_is_closed_spec "raise" self0
     = (Raise (ValueError msg_open), self1, [Called "trimesh_is_closed"])
  /\ is_closed repr_plain trimesh_is_closed_spec "ignore" self0
     = (Return (Some false), self1, [Called "trimesh_is_closed"])
  /\ is_closed repr_plain trimesh_is_closed_spec "raise" self1
     = (Return (Some false), self1, [])
  /\ is_closed repr_plain trimesh_is_closed_spec "warn" self1
     = (Return (Some false), self1, []).
Proof. cbv zeta. repeat split; vm_compute; reflexivity. Qed.

(** C7, counterexample.  On the open, unchecked mesh of one triangle,
    [reorient_faces] with "raise" ends in the ValueError of the closedness
    check, and [is_reoriented()] still answers [False] after the call. *)
Lemma reorient_faces_frame_counterexample :
  let self0 := fresh [] one_triangle in
  let self1 := with_is_closed (Some false) self0 in
  reorient_faces repr_plain trimesh_is_closed_spec never_inwards "raise" self0
  = (Raise (ValueError msg_open), self1,
     [Warning msg_unchecked; Called "trimesh_is_closed"])
  /\ is_reoriented self1 = (Return false, self1, []).
Proof. repeat split. Qed.

End MeshClaims.

(** ** Negation in binary64 *)

Module NegFacts.
Import B64 Np field_BH_triangle B64Facts.
Local Open Scope b64_scope.

Lemma binary_round_aux_opp p em s m e l :
  SFopp (binary_round_aux p em s m e l) = binary_round_aux p em (negb s) m e l.
Proof.
  unfold binary_round_aux.
  destruct (shr_fexp p em m e l) as [mrs' e'].
  destruct (shr_fexp p em (round_nearest_even (shr_m mrs') (loc_of_shr_record mrs')) e' loc_Exact)
    as [mrs'' e''].
  destruct (shr_m mrs''); [reflexivity| |reflexivity].
  destruct (Z.leb e'' (em - p)); reflexivity.
Qed.

Lemma binary_round_opp p em s m e :
  SFopp (binary_round p em s m e) = binary_round p em (negb s) m e.
Proof.
  unfold binary_round.
  destruct (shl_align m e (fexp p em (Z.pos (digits2_pos m) + e))) as [mz ez].
  apply binary_round_aux_opp.
Qed.

Lemma binary_normalize_opp p em m e sz :
  m <> 0%Z ->
  binary_normalize p em (- m) e sz = SFopp (binary_normalize p em m e sz).
Proof.
  destruct m as [|q|q]; intros H; [congruence| |]; cbn [Z.opp binary_normalize];
    rewrite binary_round_opp; reflexivity.
Qed.

Lemma negated_refl_opp x : negated x (- x).
Proof. left. reflexivity. Qed.

Lemma opp_involutive x : - (- x) = x.
Proof. destruct x as [s|s| |s m e]; cbn; rewrite ?negb_involutive; reflexivity. Qed.

Lemma negated_sym x y : negated x y -> negated y x.
Proof.
  intros [-> | [Hx Hy]]; [left; symmetry; apply opp_involutive | right; split; assumption].
Qed.

(** [y - x] is [-(x - y)]; an exact cancellation gives [+0] both ways. *)
Lemma sub_swap x y : negated (x - y) (y - x).
Proof.
  destruct x as [sx|sx| |sx mx ex], y as [sy|sy| |sy my ey];
    try (left; reflexivity);
    try (destruct sx, sy; (left; reflexivity) || (right; split; reflexivity)).
  unfold sub, SFsub. rewrite (Z.min_comm ey ex).
  set (A := cond_Zopp sx (Z.pos (fst (shl_align mx ex (Z.min ex ey))))).
  set (B := cond_Zopp sy (Z.pos (fst (shl_align my ey (Z.min ex ey))))).
  destruct (Z.eq_dec (A - B) 0) as [E|E].
  - right. replace (B - A)%Z with 0%Z by lia. rewrite E. split; reflexivity.
  - left. replace (B - A)%Z with (- (A - B))%Z by lia.
    apply binary_normalize_opp, E.
Qed.

Lemma mul_opp_l x y : (- x) * y = - (x * y).
Proof.
  destruct x as [sx|sx| |sx mx ex], y as [sy|sy| |sy my ey]; try reflexivity;
    try (cbn; destruct sx, sy; reflexivity).
  unfold mul, opp, SFmul, SFopp at 1. rewrite binary_round_aux_opp.
  destruct sx, sy; reflexivity.
Qed.

Lemma mul_opp_r x y : x * (- y) = - (x * y).
Proof. rewrite (mul_comm x (- y)), mul_opp_l, (mul_comm y x). reflexivity. Qed.

Lemma div_opp_l x d : (- x) / d = - (x / d).
Proof.
  destruct x as [sx|sx| |sx mx ex], d as [sy|sy| |sy my ey]; try reflexivity;
    try (cbn; destruct sx, sy; reflexivity).
  unfold div, opp, SFdiv, SFopp at 1.
  destruct (SFdiv_core_binary prec emax (Z.pos mx) ex (Z.pos my) ey) as [[mz ez] lz].
  rewrite binary_round_aux_opp. destruct sx, sy; reflexivity.
Qed.

Lemma add_opp x u : negated (x + u) ((- x) + (- u)).
Proof.
  destruct x as [sx|sx| |sx mx ex], u as [su|su| |su mu eu];
    try (left; reflexivity);
    try (destruct sx, su; (left; reflexivity) || (right; split; reflexivity)).
  unfold add, opp, SFadd, SFopp.
  set (A := cond_Zopp sx (Z.pos (fst (shl_align mx ex (Z.min ex eu))))).
  set (B := cond_Zopp su (Z.pos (fst (shl_align mu eu (Z.min ex eu))))).
  assert (EA : cond_Zopp (negb sx) (Z.pos (fst (shl_align mx ex (Z.min ex eu)))) = (- A)%Z)
    by (subst A; destruct sx; reflexivity).
  assert (EB : cond_Zopp (negb su) (Z.pos (fst (shl_align mu eu (Z.min ex eu)))) = (- B)%Z)
    by (subst B; destruct su; reflexivity).
  rewrite EA, EB.
  destruct (Z.eq_dec (A + B) 0) as [E|E].
  - right. replace (- A + - B)%Z with 0%Z by lia. rewrite E. split; reflexivity.
  - left. replace (- A + - B)%Z with (- (A + B))%Z by lia.
    apply binary_normalize_opp, E.
Qed.

Lemma zero_mul_zero_or_nan x y : is_zero x = true -> zero_or_nan (x * y).
Proof. destruct x; try discriminate; destruct y; intros _; exact I. Qed.

Lemma negated_mul_l x y p : negated x y -> negated (x * p) (y * p).
Proof.
  intros [-> | [Hx Hy]]; [left; apply mul_opp_l|].
  destruct x as [sx| | |]; try discriminate. destruct y as [sy| | |]; try discriminate.
  destruct p as [sp|sp| |sp mp ep]; try (left; reflexivity); right; split; reflexivity.
Qed.

Lemma negated_mul_r x y p : negated x y -> negated (p * x) (p * y).
Proof. rewrite (mul_comm p x), (mul_comm p y). apply negated_mul_l. Qed.

Lemma negated_div_l x y d : negated x y -> negated (x / d) (y / d).
Proof.
  intros [-> | [Hx Hy]]; [left; apply div_opp_l|].
  destruct x as [sx| | |]; try discriminate. destruct y as [sy| | |]; try discriminate.
  destruct d as [sp|sp| |sp mp ep]; try (left; reflexivity); right; split; reflexivity.
Qed.

Lemma negated_add x y u v : negated x y -> negated u v -> negated (x + u) (y + v).
Proof.
  intros [-> | [Hx Hy]] [-> | [Hu Hv]].
  - apply add_opp.
  - destruct u as [su| | |]; try discriminate. destruct v as [sv| | |]; try discriminate.
    destruct x as [sx|sx| |sx mx ex]; try (left; reflexivity).
    right; split; [destruct sx, su | destruct sx, sv]; reflexivity.
  - destruct x as [sx| | |]; try discriminate. destruct y as [sy| | |]; try discriminate.
    destruct u as [su|su| |su mu eu]; try (left; reflexivity).
    right; split; [destruct sx, su | destruct sy, su]; reflexivity.
  - destruct x as [sx| | |]; try discriminate. destruct y as [sy| | |]; try discriminate.
    destruct u as [su| | |]; try discriminate. destruct v as [sv| | |]; try discriminate.
    right; split; [destruct sx, su | destruct sy, sv]; reflexivity.
Qed.

Lemma negated_square x y : negated x y -> x * x = y * y.
Proof.
  intros [-> | [Hx Hy]].
  - rewrite mul_opp_l, mul_opp_r, opp_involutive. reflexivity.
  - destruct x as [sx| | |]; try discriminate. destruct y as [sy| | |]; try discriminate.
    destruct sx, sy; reflexivity.
Qed.

End NegFacts.

(** ** Linearity in the polarization *)

Module LinFacts.
Import B64 Np field_BH_triangle B64Facts FieldFacts ListFacts BatchFacts FieldRows NegFacts.

Lemma rational_exact : exact_arith rational.
Proof.
  constructor; cbn; intros.
  - apply Qcanon.Qcplus_comm.
  - apply Qcanon.Qcplus_assoc.
  - apply Qcanon.Qcmult_comm.
  - apply Qcanon.Qcmult_assoc.
  - apply Qcanon.Qcmult_plus_distr_r.
  - unfold Qcanon.Qcdiv. apply Qcanon.Qcmult_plus_distr_l.
  - unfold Qcanon.Qcdiv. symmetry. apply Qcanon.Qcmult_assoc.
Qed.

Section Exact.
Variable T : Type.
Variable A : Arith T.
Hypothesis E : exact_arith A.

Local Notation "x + y" := (aplus A x y).
Local Notation "x * y" := (atimes A x y).

Lemma plus_shuffle x y u v : (x + y) + (u + v) = (x + u) + (y + v).
Proof.
  rewrite <- (aplus_assoc E x y (u + v)), (aplus_assoc E y u v), (aplus_comm E y u),
    <- (aplus_assoc E u y v), (aplus_assoc E x u (y + v)). reflexivity.
Qed.

Lemma times_swap n a p : n * (a * p) = a * (n * p).
Proof.
  rewrite (atimes_assoc E n a p), (atimes_comm E n a), <- (atimes_assoc E a n p).
  reflexivity.
Qed.

Lemma times_combination n a b p q :
  n * ((a * p) + (b * q)) = (a * (n * p)) + (b * (n * q)).
Proof.
  rewrite (atimes_plus E), (times_swap n a p), (times_swap n b q). reflexivity.
Qed.

Lemma plus_times x y z : (x + y) * z = (x * z) + (y * z).
Proof.
  rewrite (atimes_comm E (x + y) z), (atimes_plus E), (atimes_comm E z x),
    (atimes_comm E z y). reflexivity.
Qed.

Lemma sigma_over_linear n a b p q :
  sigma_over A n (combine A a b p q)
  = (a * sigma_over A n p) + (b * sigma_over A n q).
Proof.
  destruct n as [[n0 n1] n2], p as [[p0 p1] p2], q as [[q0 q1] q2].
  unfold sigma_over, combine, t3map, t3map2. cbn [t3_0 t3_1 t3_2 fst snd].
  rewrite !times_combination, !(atimes_plus E).
  rewrite (plus_shuffle (a * (n0 * p0)) (b * (n0 * q0))).
  apply plus_shuffle.
Qed.

Lemma field_over_linear field n G a b p q :
  field_over A field n G (combine A a b p q)
  = combine A a b (field_over A field n G p) (field_over A field n G q).
Proof.
  unfold field_over. rewrite sigma_over_linear.
  set (sp := sigma_over A n p). set (sq := sigma_over A n q).
  destruct G as [[g0 g1] g2].
  destruct (check_field_input field);
    unfold combine, t3map, t3map2; cbn [t3_0 t3_1 t3_2 fst snd];
    rewrite !plus_times, <- !(atimes_assoc E), !(aover_plus E), !(aover_times E),
      ?(aover_plus E), ?(aover_times E), ?(aover_plus E), ?(aover_times E);
    reflexivity.
Qed.

End Exact.

(** The row of [triangle_field] is [field_over] at binary64 arithmetic. *)
Lemma triangle_field_row_over lm field obs v pol :
  triangle_field_row lm field obs v pol
  = field_over binary64 field (norm_vector_row v) (geometry_row lm obs v) pol.
Proof.
  unfold triangle_field_row, field_over, scale_B, scale_H, assembled_row, sigma_row,
    sigma_over, dot3, sum3, t3map2.
  destruct (norm_vector_row v) as [[n0 n1] n2], pol as [[p0 p1] p2].
  cbn [t3_0 t3_1 t3_2 fst snd aplus atimes aover c_pi c_four c_mu0 binary64].
  reflexivity.
Qed.

Local Open Scope b64_scope.

Lemma negated_dot3_r n p p' : negated3 p p' -> negated (dot3 n p) (dot3 n p').
Proof.
  intros (H0 & H1 & H2). unfold dot3, sum3, t3map2. cbn [t3_0 t3_1 t3_2 fst snd].
  repeat apply negated_add; apply negated_mul_r; assumption.
Qed.

Lemma triangle_field_row_negated lm field obs v p p' :
  negated3 p p' ->
  negated3 (triangle_field_row lm field obs v p) (triangle_field_row lm field obs v p').
Proof.
  intros H. pose proof (negated_dot3_r (norm_vector_row v) p p' H) as Hs.
  unfold triangle_field_row, assembled_row, sigma_row, scale_B, scale_H.
  destruct (geometry_row lm obs v) as [[g0 g1] g2].
  destruct (check_field_input field); unfold negated3, t3map;
    cbn [t3_0 t3_1 t3_2 fst snd];
    repeat split; repeat apply negated_div_l; apply negated_mul_l; exact Hs.
Qed.

End LinFacts.

(** ** The claim on the polarization *)

Module LinearityClaims.
Import B64 Np field_BH_triangle B64Facts FieldFacts ListFacts BatchFacts CoarseFacts
  FieldRows NegFacts LinFacts.
Local Open Scope b64_scope.

(** C10, as amended.  Row j of [triangle_field] is [field_over] at
    binary64 arithmetic: the polarization enters through the sum of
    products sigma, which multiplies a factor that does not read the
    polarization, and the product is divided by the constants of the field
    kind.  Over every arithmetic whose sum, product and quotient obey the
    laws of exact arithmetic that expression is linear: its value at
    a p + b q is a times its value at p plus b times its value at q.  In
    binary64, where these laws hold up to rounding only, two cases stay
    exact: negating the polarization negates the row, and zero
    polarization gives a row of zeros wherever the normal and the factor
    are finite. *)
Theorem polarization_linearity lm field (observers : arr2) (vertices : arr3)
    (p p' : arr2) n :
  List.length observers = n -> List.length vertices = n ->
  List.length p = n -> List.length p' = n ->
  forall j, j < n ->
    let obs := nth j observers origin in
    let v := nth j vertices tri0 in
    let out := nth j (triangle_field lm field observers vertices p) origin in
    let out' := nth j (triangle_field lm field observers vertices p') origin in
    out = field_over binary64 field (norm_vector_row v) (geometry_row lm obs v)
            (nth j p origin)
    /\ (forall (T : Type) (A : Arith T), exact_arith A ->
        forall (normal G : T3 T) (a b : T) (x y : T3 T),
          field_over A field normal G (combine A a b x y)
          = combine A a b (field_over A field normal G x)
              (field_over A field normal G y))
    /\ (negated3 (nth j p origin) (nth j p' origin) -> negated3 out out')
    /\ (zero3 (nth j p origin) -> finite3 (norm_vector_row v) ->
        finite3 (geometry_row lm obs v) -> zero3 out).
Proof.
  intros Ho Hv Hp Hp' j Hj obs v out out'. subst out out'.
  rewrite (triangle_field_table lm field observers vertices p n Ho Hv Hp).
  rewrite (triangle_field_table lm field observers vertices p' n Ho Hv Hp').
  rewrite !nth_map_seq by exact Hj. fold obs v.
  split; [apply triangle_field_row_over|].
  split; [intros T A E normal G a b x y; apply field_over_linear, E|].
  split; [apply triangle_field_row_negated|].
  intros Hz Hn (G0 & G1 & G2).
  unfold triangle_field_row, assembled_row. apply scale_zero.
  pose proof (sigma_row_zero v _ Hz Hn) as Hs.
  unfold zero3, t3map. cbn [t3_0 t3_1 t3_2 fst snd].
  repeat split; apply zero_mul_finite; assumption.
Qed.

(** In exact rational arithmetic, with normal (0, 0, 1), factor (1, 2, 3),
    a = 11, b = 2, p = (0, 0, 1) and q = (1, 1, 1): the field of
    a p + b q is a times the field of p plus b times the field of q.  In
    binary64, under [tri_pi]: the field of (0, 0, -1) is the negated field
    of (0, 0, 1). *)
Lemma polarization_linearity_witness :
  exact_arith rational
  /\ negated3
       (nth 0 (triangle_field Coarse.libm FieldB [origin] [tri_pi] [pol_z one]) origin)
       (nth 0 (triangle_field Coarse.libm FieldB [origin] [tri_pi] [pol_z (opp one)])
          origin)
  /\ field_over rational FieldB (qc 0, qc 0, qc 1) (qc 1, qc 2, qc 3)
       (combine rational (qc 11) (qc 2) (qc 0, qc 0, qc 1) (qc 1, qc 1, qc 1))
     = combine rational (qc 11) (qc 2)
         (field_over rational FieldB (qc 0, qc 0, qc 1) (qc 1, qc 2, qc 3)
            (qc 0, qc 0, qc 1))
         (field_over rational FieldB (qc 0, qc 0, qc 1) (qc 1, qc 2, qc 3)
            (qc 1, qc 1, qc 1)).
Proof.
  split; [exact rational_exact|]. split.
  { apply (proj1 (proj2 (proj2 (polarization_linearity Coarse.libm FieldB
            [origin] [tri_pi] [pol_z one] [pol_z (opp one)] 1
            eq_refl eq_refl eq_refl eq_refl 0 (le_n 1))))).
    cbn [nth pol_z]. unfold negated3. cbn [t3_0 t3_1 t3_2 fst snd].
    repeat split; [right; split; reflexivity | right; split; reflexivity
                  | left; reflexivity]. }
  exact (proj1 (proj2 (polarization_linearity Coarse.libm FieldB
            [origin] [tri_pi] [origin] [origin] 1 eq_refl eq_refl eq_refl eq_refl
            0 (le_n 1))) Qcanon.Qc rational rational_exact
          (qc 0, qc 0, qc 1) (qc 1, qc 2, qc 3) (qc 11) (qc 2)
          (qc 0, qc 0, qc 1) (qc 1, qc 1, qc 1)).
Defined.
End LinearityClaims.

(** ** Windings, degenerate triangles and the range of the solid angle *)

Module WindingFacts.
Import B64 Np field_BH_triangle B64Facts FieldFacts ListFacts BatchFacts NegFacts.
Local Open Scope b64_scope.

Lemma cross_swap a b : negated3 (cross a b) (cross b a).
Proof.
  unfold negated3, cross. cbn [t3_0 t3_1 t3_2 fst snd].
  rewrite (mul_comm (t3_1 b) (t3_2 a)), (mul_comm (t3_2 b) (t3_1 a)),
    (mul_comm (t3_2 b) (t3_0 a)), (mul_comm (t3_0 b) (t3_2 a)),
    (mul_comm (t3_0 b) (t3_1 a)), (mul_comm (t3_1 b) (t3_0 a)).
  repeat split; apply sub_swap.
Qed.

Lemma negated3_sumsq a b : negated3 a b -> sumsq a = sumsq b.
Proof.
  intros (H0 & H1 & H2). unfold sumsq, sum3, t3map2. cbn [t3_0 t3_1 t3_2 fst snd].
  rewrite (negated_square _ _ H0), (negated_square _ _ H1), (negated_square _ _ H2).
  reflexivity.
Qed.

Lemma norm_vector_row_reverse v :
  negated3 (norm_vector_row v) (norm_vector_row (reverse_winding v)).
Proof.
  unfold norm_vector_row, reverse_winding. cbn [t3_0 t3_1 t3_2 fst snd]. cbv zeta.
  set (a := vsub (t3_1 v) (t3_0 v)). set (b := vsub (t3_2 v) (t3_0 v)).
  pose proof (cross_swap a b) as Hc.
  rewrite <- (negated3_sumsq _ _ Hc).
  destruct Hc as (H0 & H1 & H2).
  unfold negated3, t3map. cbn [t3_0 t3_1 t3_2 fst snd].
  repeat split; apply negated_div_l; assumption.
Qed.

Lemma negated3_dot3 a b p : negated3 a b -> negated (dot3 a p) (dot3 b p).
Proof.
  intros (H0 & H1 & H2). unfold dot3, sum3, t3map2. cbn [t3_0 t3_1 t3_2 fst snd].
  repeat apply negated_add; apply negated_mul_l; assumption.
Qed.

Lemma sigma_row_reverse v p : negated (sigma_row v p) (sigma_row (reverse_winding v) p).
Proof. apply negated3_dot3, norm_vector_row_reverse. Qed.

(** *** Degenerate triangles *)

Lemma eqb_veq x y : eqb x y = true -> veq x y.
Proof.
  unfold eqb, SFeqb, veq.
  destruct x as [sx|sx| |sx mx ex], y as [sy|sy| |sy my ey]; cbn;
    try discriminate; try (intros _; right; split; reflexivity);
    try (destruct sx, sy; try discriminate; intros _; left; reflexivity);
    try (destruct sx; discriminate); try (destruct sy; discriminate).
  destruct sx, sy; try discriminate;
    destruct (Z.compare_spec ex ey) as [He|He|He]; try discriminate;
    change (Pos.compare_cont Eq mx my) with (Pos.compare mx my);
    destruct (Pos.compare_spec mx my) as [Hm|Hm|Hm]; try discriminate;
    intros _; left; subst; reflexivity.
Qed.

Lemma veq_sub_r x y c : veq x y -> veq (x - c) (y - c).
Proof.
  intros [-> | [Hx Hy]]; [left; reflexivity|].
  destruct x as [sx| | |]; try discriminate. destruct y as [sy| | |]; try discriminate.
  destruct c as [sc|sc| |sc mc ec]; try (left; reflexivity).
  right; split; [destruct sx, sc | destruct sy, sc]; reflexivity.
Qed.

Lemma sub_diag x : zero_or_nan (x - x).
Proof.
  destruct x as [s|s| |s m e]; try exact I; try (destruct s; exact I).
  unfold sub, SFsub. rewrite Z.sub_diag. exact I.
Qed.

Lemma zero_or_nan_sub x y : zero_or_nan x -> zero_or_nan y -> zero_or_nan (x - y).
Proof.
  destruct x as [sx| | |]; try contradiction; destruct y as [sy| | |]; try contradiction;
    intros _ _; try exact I. destruct sx, sy; exact I.
Qed.

Lemma zero_zero_or_nan x : is_zero x = true -> zero_or_nan x.
Proof. destruct x; try discriminate; intros _; exact I. Qed.

Lemma zero_or_nan_mul_r x y : zero_or_nan y -> zero_or_nan (x * y).
Proof. rewrite mul_comm. apply zero_or_nan_mul_l. Qed.

Lemma cross_term_veq ai aj bi bj :
  veq ai bi -> veq aj bj -> zero_or_nan (ai * bj - aj * bi).
Proof.
  intros [-> | [Hi Hi']] [-> | [Hj Hj']].
  - rewrite (mul_comm bj bi). apply sub_diag.
  - apply zero_or_nan_sub;
      [apply zero_or_nan_mul_r | apply zero_or_nan_mul_l]; apply zero_zero_or_nan; assumption.
  - apply zero_or_nan_sub;
      [apply zero_or_nan_mul_l | apply zero_or_nan_mul_r]; apply zero_zero_or_nan; assumption.
  - apply zero_or_nan_sub;
      [apply zero_or_nan_mul_l | apply zero_or_nan_mul_l]; apply zero_zero_or_nan; assumption.
Qed.

Lemma cross_zero_l a b : zero_or_nan3 a -> zero_or_nan3 (cross a b).
Proof.
  intros (H0 & H1 & H2). unfold zero_or_nan3, cross. cbn [t3_0 t3_1 t3_2 fst snd].
  repeat split; apply zero_or_nan_sub; apply zero_or_nan_mul_l; assumption.
Qed.

Lemma cross_zero_r a b : zero_or_nan3 b -> zero_or_nan3 (cross a b).
Proof.
  intros (H0 & H1 & H2). unfold zero_or_nan3, cross. cbn [t3_0 t3_1 t3_2 fst snd].
  repeat split; apply zero_or_nan_sub; apply zero_or_nan_mul_r; assumption.
Qed.

Lemma same_point_veq a b :
  same_point a b = true ->
  veq (t3_0 a) (t3_0 b) /\ veq (t3_1 a) (t3_1 b) /\ veq (t3_2 a) (t3_2 b).
Proof.
  unfold same_point. intros H.
  apply andb_prop in H. destruct H as [H H2]. apply andb_prop in H. destruct H as [H0 H1].
  repeat split; apply eqb_veq; assumption.
Qed.

Lemma same_point_sym a b : same_point a b = true -> same_point b a = true.
Proof.
  assert (E : forall x y, eqb x y = true -> eqb y x = true).
  { intros x y. unfold eqb, SFeqb.
    destruct x as [sx|sx| |sx mx ex], y as [sy|sy| |sy my ey]; cbn;
      try discriminate; try (intros _; reflexivity);
      try (destruct sx, sy; try discriminate; intros _; reflexivity);
      try (destruct sx; discriminate); try (destruct sy; discriminate).
    destruct sx, sy; try discriminate;
      destruct (Z.compare_spec ex ey) as [He|He|He]; try discriminate;
      change (Pos.compare_cont Eq mx my) with (Pos.compare mx my);
      destruct (Pos.compare_spec mx my) as [Hm|Hm|Hm]; try discriminate;
      intros _; subst; rewrite Z.compare_refl;
      change (Pos.compare_cont Eq my my) with (Pos.compare my my);
      rewrite Pos.compare_refl; reflexivity. }
  unfold same_point. intros H.
  apply andb_prop in H. destruct H as [H H2]. apply andb_prop in H. destruct H as [H0 H1].
  rewrite (E _ _ H0), (E _ _ H1), (E _ _ H2). reflexivity.
Qed.

Lemma cross_degenerate v :
  degenerate v ->
  zero_or_nan3 (cross (vsub (t3_1 v) (t3_0 v)) (vsub (t3_2 v) (t3_0 v))).
Proof.
  intros [H | [H | H]].
  - apply cross_zero_l, vsub_same_point, H.
  - apply cross_zero_r, vsub_same_point, H.
  - destruct (same_point_veq _ _ H) as (E0 & E1 & E2).
    unfold zero_or_nan3, cross, vsub, t3map2. cbn [t3_0 t3_1 t3_2 fst snd].
    repeat split; apply cross_term_veq; apply veq_sub_r; assumption.
Qed.

Lemma div_zero_or_nan x y : zero_or_nan x -> zero_or_nan y -> x / y = nan.
Proof.
  destruct x as [sx| | |]; try contradiction; destruct y as [sy| | |]; try contradiction;
    reflexivity.
Qed.

Lemma norm_vector_row_degenerate v : degenerate v -> norm_vector_row v = nan3.
Proof.
  intros H. pose proof (cross_degenerate v H) as Hc.
  unfold norm_vector_row. cbv zeta.
  set (n := cross (vsub (t3_1 v) (t3_0 v)) (vsub (t3_2 v) (t3_0 v))) in *.
  pose proof (zero_or_nan_sqrt _ (sumsq_zero_or_nan _ Hc)) as Hn.
  destruct Hc as (H0 & H1 & H2).
  unfold t3map, nan3. rewrite !div_zero_or_nan by assumption. reflexivity.
Qed.

Lemma triangle_field_row_degenerate lm field obs v pol :
  degenerate v -> triangle_field_row lm field obs v pol = nan3.
Proof.
  intros H. unfold triangle_field_row, assembled_row, sigma_row.
  rewrite (norm_vector_row_degenerate v H).
  assert (E : dot3 nan3 pol = nan).
  { unfold dot3, sum3, t3map2, nan3. cbn [t3_0 t3_1 t3_2 fst snd].
    rewrite !mul_nan_l. reflexivity. }
  rewrite E. unfold t3map. rewrite !mul_nan_l.
  destruct (check_field_input field); reflexivity.
Qed.

(** *** The solid angle is a number *)

Lemma iter_pos_inv {A} (f : A -> A) (P : A -> Prop) :
  (forall x, P x -> P (f x)) -> forall n x, P x -> P (iter_pos f n x).
Proof.
  intros Hf. induction n as [n IH|n IH|]; intros x Hx; cbn; auto.
Qed.

Lemma shr_1_nonneg mrs : (0 <= shr_m mrs)%Z -> (0 <= shr_m (shr_1 mrs))%Z.
Proof.
  destruct mrs as [m r s]. cbn [shr_m]. intros H.
  destruct m as [|p|p]; [cbn; lia| |lia].
  destruct p; cbn; lia.
Qed.

Lemma shr_nonneg mrs e n : (0 <= shr_m mrs)%Z -> (0 <= shr_m (fst (shr mrs e n)))%Z.
Proof.
  intros H. unfold shr. destruct n; cbn [fst]; try assumption.
  apply iter_pos_inv; [apply shr_1_nonneg | assumption].
Qed.

Lemma shr_fexp_nonneg p em m e l :
  (0 <= m)%Z -> (0 <= shr_m (fst (shr_fexp p em m e l)))%Z.
Proof.
  intros H. unfold shr_fexp. apply shr_nonneg.
  destruct l as [|[]]; cbn; assumption.
Qed.

Lemma round_nearest_even_nonneg m l : (0 <= m)%Z -> (0 <= round_nearest_even m l)%Z.
Proof.
  intros H. unfold round_nearest_even. destruct l as [|[]]; try lia.
  destruct (Z.even m); lia.
Qed.

Lemma binary_round_aux_not_nan p em s m e l :
  (0 <= m)%Z -> is_nan (binary_round_aux p em s m e l) = false.
Proof.
  intros H. unfold binary_round_aux.
  pose proof (shr_fexp_nonneg p em m e l H) as H1.
  destruct (shr_fexp p em m e l) as [mrs' e']. cbn [fst] in H1.
  pose proof (shr_fexp_nonneg p em _ e' loc_Exact
                (round_nearest_even_nonneg _ (loc_of_shr_record mrs') H1)) as H2.
  destruct (shr_fexp p em (round_nearest_even (shr_m mrs') (loc_of_shr_record mrs')) e' loc_Exact)
    as [mrs'' e'']. cbn [fst] in H2.
  destruct (shr_m mrs'') as [|q|q]; [reflexivity| |lia].
  destruct (Z.leb e'' (em - p)); reflexivity.
Qed.

Lemma mul_finite_not_nan x y :
  is_finite x = true -> is_finite y = true -> is_nan (x * y) = false.
Proof.
  destruct x as [sx|sx| |sx mx ex]; try discriminate;
    destruct y as [sy|sy| |sy my ey]; try discriminate; intros _ _; try reflexivity.
  apply binary_round_aux_not_nan. lia.
Qed.

Lemma sangle_clip_cut x : gtb (fabs (sangle_clip x)) sangle_cut = false.
Proof.
  unfold sangle_clip. destruct (gtb (fabs x) sangle_cut) eqn:E; [reflexivity | exact E].
Qed.

Lemma sangle_clip_finite x : is_nan x = false -> is_finite (sangle_clip x) = true.
Proof.
  unfold sangle_clip. intros H. destruct (gtb (fabs x) sangle_cut) eqn:E; [reflexivity|].
  destruct x as [s|s| |s m e]; try reflexivity; try discriminate.
Qed.

Section WithLibm.
Variable lm : Libm.
Hypothesis ieee : IEEE_libm lm.

Lemma solid_angle_row_number R r :
  is_nan (sangle_N R) = false -> is_nan (sangle_D R r) = false ->
  is_finite (solid_angle_row lm R r) = true.
Proof.
  intros HN HD. unfold solid_angle_row. apply sangle_clip_finite.
  apply mul_finite_not_nan; [reflexivity|].
  apply (arctan2_finite ieee); assumption.
Qed.
End WithLibm.

End WindingFacts.

(** ** More on field_BH_triangle.py *)

Module FieldExtras.
Import B64 Np field_BH_triangle B64Facts FieldFacts ListFacts BatchFacts
  CoarseFacts FieldRows NegFacts WindingFacts.
Local Open Scope b64_scope.

Lemma norm_vector_table (vertices : arr3) :
  norm_vector vertices = map norm_vector_row vertices.
Proof.
  rewrite <- (map_id vertices) at 1. apply (norm_vector_rows vertices (fun v => v)).
Qed.

Lemma norm_vector_row_tri0 : norm_vector_row tri0 = nan3.
Proof. vm_compute. reflexivity. Qed.

Lemma nth_norm_vector (vertices : arr3) j :
  nth j (norm_vector vertices) nan3 = norm_vector_row (nth j vertices tri0).
Proof.
  rewrite norm_vector_table, <- norm_vector_row_tri0. apply map_nth.
Qed.

Lemma vcross3_table (a b : arr2) n :
  List.length a = n -> List.length b = n ->
  vcross3 a b = map (fun j => cross (nth j a origin) (nth j b origin)) (seq 0 n).
Proof.
  intros Ha Hb.
  rewrite <- (map_nth_seq a origin n Ha) at 1.
  rewrite <- (map_nth_seq b origin n Hb) at 1.
  apply (vcross3_rows (seq 0 n)).
Qed.

(** X1.  [vcross3] returns one row per row of its arguments, the cross
    product of the two rows; exchanging the arguments negates every
    component (a zero stays a zero, of either sign), and the product of an
    array with itself has only zeros and NaN. *)
Theorem vcross3_anticommutative (a b : arr2) n :
  List.length a = n -> List.length b = n ->
  List.length (vcross3 a b) = n
  /\ forall j, j < n ->
       nth j (vcross3 a b) origin = cross (nth j a origin) (nth j b origin)
       /\ negated3 (nth j (vcross3 a b) origin) (nth j (vcross3 b a) origin)
       /\ zero_or_nan3 (nth j (vcross3 a a) origin).
Proof.
  intros Ha Hb.
  rewrite (vcross3_table a b n Ha Hb), (vcross3_table b a n Hb Ha),
    (vcross3_table a a n Ha Ha).
  split; [rewrite length_map, length_seq; reflexivity|].
  intros j Hj. rewrite !nth_map_seq by exact Hj.
  split; [reflexivity|]. split; [apply cross_swap|].
  unfold zero_or_nan3, cross. cbn [t3_0 t3_1 t3_2 fst snd].
  rewrite (mul_comm (t3_2 (nth j a origin)) (t3_1 (nth j a origin))),
    (mul_comm (t3_0 (nth j a origin)) (t3_2 (nth j a origin))),
    (mul_comm (t3_1 (nth j a origin)) (t3_0 (nth j a origin))).
  repeat split; apply sub_diag.
Qed.

Lemma vcross3_anticommutative_witness :
  negated3 (nth 0 (vcross3 [vec_Z 1 2 3] [vec_Z 4 5 6]) origin)
           (nth 0 (vcross3 [vec_Z 4 5 6] [vec_Z 1 2 3]) origin).
Proof.
  exact (proj1 (proj2 (proj2 (vcross3_anticommutative [vec_Z 1 2 3] [vec_Z 4 5 6] 1
           eq_refl eq_refl) 0 (le_n 1)))).
Defined.

(** X2.  [norm_vector] returns one normal per triangle, and reversing the
    winding of the triangles (exchanging the second and third vertex)
    negates every component of every normal exactly, a zero staying a zero
    of either sign; the charge [sigma] of a row is negated with it. *)
Theorem norm_vector_reverse_winding (vertices : arr3) (pol : vec3) j :
  List.length (norm_vector vertices) = List.length vertices
  /\ negated3 (nth j (norm_vector vertices) nan3)
              (nth j (norm_vector (map reverse_winding vertices)) nan3)
  /\ negated (sigma_row (nth j vertices tri0) pol)
             (sigma_row (reverse_winding (nth j vertices tri0)) pol).
Proof.
  split; [rewrite norm_vector_table; apply length_map|].
  split; [|apply sigma_row_reverse].
  rewrite !nth_norm_vector.
  replace (nth j (map reverse_winding vertices) tri0)
    with (reverse_winding (nth j vertices tri0))
    by (symmetry; apply (map_nth reverse_winding vertices tri0 j)).
  apply norm_vector_row_reverse.
Qed.

(** X3.  At a row whose triangle has two vertices with the same
    coordinates, [norm_vector] returns (nan, nan, nan), and so does
    [triangle_field], whatever the observer, the polarization, the field
    kind and the libm are. *)
Theorem degenerate_triangle_rows lm field (observers : arr2) (vertices : arr3)
    (polarizations : arr2) n j :
  List.length observers = n -> List.length vertices = n ->
  List.length polarizations = n ->
  j < n -> degenerate (nth j vertices tri0) ->
  nth j (norm_vector vertices) nan3 = nan3
  /\ nth j (triangle_field lm field observers vertices polarizations) origin = nan3.
Proof.
  intros Ho Hv Hp Hj Hd. split.
  - rewrite nth_norm_vector. apply norm_vector_row_degenerate, Hd.
  - rewrite (triangle_field_table lm field observers vertices polarizations n Ho Hv Hp).
    rewrite nth_map_seq by exact Hj. apply triangle_field_row_degenerate, Hd.
Qed.

Lemma degenerate_triangle_rows_witness :
  nth 1 (triangle_field Coarse.libm FieldH [origin; vec_Z 1 1 1] 
           [tri_pi; (vec_Z 1 0 0, vec_Z 1 0 0, vec_Z 0 1 0)]
           [pol_z one; pol_z one]) origin = nan3.
Proof.
  refine (proj2 (degenerate_triangle_rows Coarse.libm FieldH [origin; vec_Z 1 1 1]
            [tri_pi; (vec_Z 1 0 0, vec_Z 1 0 0, vec_Z 0 1 0)] [pol_z one; pol_z one]
            2 1 eq_refl eq_refl eq_refl (le_n 2) _)).
  left. reflexivity.
Defined.

(** X4.  The magnitude of every value [solid_angle] returns is at most its
    threshold 6.2831853.  The value is a number (neither NaN nor infinite)
    whenever the row's [N] and [D] are not NaN, and it is NaN when one of
    them is. *)
Theorem solid_angle_nan_only_from_nan lm (R0 R1 R2 : arr2) (r0 r1 r2 : arr1) n j :
  IEEE_libm lm ->
  List.length R0 = n -> List.length R1 = n -> List.length R2 = n ->
  List.length r0 = n -> List.length r1 = n -> List.length r2 = n ->
  j < n ->
  let R := (nth j R0 origin, nth j R1 origin, nth j R2 origin) in
  let r := (nth j r0 nan, nth j r1 nan, nth j r2 nan) in
  let omega := nth j (solid_angle lm (R0, R1, R2) (r0, r1, r2)) nan in
  gtb (fabs omega) sangle_cut = false
  /\ (is_nan (sangle_N R) = false -> is_nan (sangle_D R r) = false ->
      is_finite omega = true)
  /\ (is_nan (sangle_N R) = true \/ is_nan (sangle_D R r) = true -> omega = nan).
Proof.
  intros ieee H0 H1 H2 H3 H4 H5 Hj R r omega. subst omega.
  rewrite (solid_angle_table lm R0 R1 R2 r0 r1 r2 n H0 H1 H2 H3 H4 H5).
  rewrite nth_map_seq by exact Hj. fold R r.
  split; [apply sangle_clip_cut|]. split; [apply solid_angle_row_number, ieee|].
  unfold solid_angle_row.
  intros [HN | HD].
  - destruct (sangle_N R); try discriminate.
    rewrite (arctan2_nan_l ieee). reflexivity.
  - destruct (sangle_D R r); try discriminate.
    rewrite (arctan2_nan_r ieee). 
    unfold sangle_clip. rewrite mul_nan_r. reflexivity.
Qed.

Lemma solid_angle_nan_only_from_nan_witness :
  is_finite (nth 0 (solid_angle Coarse.libm
           ([t3_0 tri_pi], [t3_1 tri_pi], [t3_2 tri_pi])
           ([of_Z 9], [of_Z 3], [of_Z 3])) nan) = true.
Proof.
  refine (proj1 (proj2 (solid_angle_nan_only_from_nan Coarse.libm
           [t3_0 tri_pi] [t3_1 tri_pi] [t3_2 tri_pi] [of_Z 9] [of_Z 3] [of_Z 3] 1 0
           coarse_is_ieee eq_refl eq_refl eq_refl eq_refl eq_refl eq_refl (le_n 1))) _ _);
    vm_compute; reflexivity.
Defined.

(** *** A NaN coordinate of the observer *)

Lemma dot3_nan_l a b : has_nan a -> dot3 a b = nan.
Proof.
  destruct a as [[a0 a1] a2]. unfold has_nan, dot3, sum3, t3map2.
  cbn [t3_0 t3_1 t3_2 fst snd].
  intros [-> | [-> | ->]]; rewrite ?mul_nan_l, ?add_nan_r; reflexivity.
Qed.

Lemma vsub_nan_r vi obs : has_nan obs -> has_nan (vsub vi obs).
Proof.
  destruct obs as [[o0 o1] o2]. unfold has_nan, vsub, t3map2.
  cbn [t3_0 t3_1 t3_2 fst snd].
  intros [-> | [-> | ->]]; rewrite sub_nan_r; auto.
Qed.

Lemma triangle_field_row_nan_observer lm field obs v pol :
  IEEE_libm lm -> has_nan obs -> triangle_field_row lm field obs v pol = nan3.
Proof.
  intros ieee Hobs.
  assert (HN : sangle_N (R_row obs v) = nan).
  { unfold sangle_N. apply dot3_nan_l. unfold R_row, t3map.
    cbn [t3_0 t3_1 t3_2 fst snd]. apply vsub_nan_r, Hobs. }
  unfold triangle_field_row, assembled_row, geometry_row. cbv zeta.
  unfold solid_angle_row. rewrite HN, (arctan2_nan_l ieee).
  rewrite mul_nan_r. change (sangle_clip nan) with nan.
  unfold t3map2, t3map. cbn [t3_0 t3_1 t3_2 fst snd].
  rewrite !mul_nan_r.
  destruct (check_field_input field); reflexivity.
Qed.

(** X5.  A NaN among the coordinates of an observer makes its row of
    [triangle_field] (nan, nan, nan); the other rows of the batch are what
    they are without it. *)
Theorem nan_observer_rows lm field (observers : arr2) (vertices : arr3)
    (polarizations : arr2) n j :
  IEEE_libm lm ->
  List.length observers = n -> List.length vertices = n ->
  List.length polarizations = n ->
  j < n -> has_nan (nth j observers origin) ->
  nth j (triangle_field lm field observers vertices polarizations) origin = nan3
  /\ forall i, i < n -> i <> j ->
       nth i (triangle_field lm field observers vertices polarizations) origin
       = triangle_field_row lm field (nth i observers origin) (nth i vertices tri0)
           (nth i polarizations origin).
Proof.
  intros ieee Ho Hv Hp Hj Hnan.
  rewrite (triangle_field_table lm field observers vertices polarizations n Ho Hv Hp).
  split.
  - rewrite nth_map_seq by exact Hj. apply triangle_field_row_nan_observer; assumption.
  - intros i Hi _. rewrite nth_map_seq by exact Hi. reflexivity.
Qed.

Lemma nan_observer_rows_witness :
  nth 0 (triangle_field Coarse.libm FieldB [(pzero, nan, pzero); origin]
           [tri_pi; tri_pi] [pol_z one; pol_z one]) origin = nan3.
Proof.
  refine (proj1 (nan_observer_rows Coarse.libm FieldB [(pzero, nan, pzero); origin]
            [tri_pi; tri_pi] [pol_z one; pol_z one] 2 0 coarse_is_ieee
            eq_refl eq_refl eq_refl (Nat.lt_0_succ 1) _)).
  right. left. reflexivity.
Defined.

End FieldExtras.

(** ** More on class_magnet_TriangularMesh.py *)

Module MeshExtras.
Import class_magnet_TriangularMesh MeshClaims.
Local Open Scope string_scope.

Lemma ignore_accepted : In "ignore" accepted_errors_vals.
Proof. cbn; auto. Qed.

Lemma not_accepted_not_ignore errors :
  ~ In errors accepted_errors_vals -> String.eqb errors "ignore" = false.
Proof.
  intros H. apply String.eqb_neq. intros ->. apply H, ignore_accepted.
Qed.

Lemma not_accepted_cases errors :
  ~ In errors accepted_errors_vals ->
  String.eqb errors "warn" = false /\ String.eqb errors "raise" = false
  /\ String.eqb errors "ignore" = false.
Proof.
  intros H. repeat split; apply String.eqb_neq; intros ->; apply H; cbn; auto.
Qed.

Section WithMeshFunctions.
Variable repr : string -> string.
Variable trimesh_is_closed : list face -> bool.
Variable get_disjoint_faces_subsets : list face -> list (list face).
Variable inwards : list vec3 -> list face -> nat -> bool.
Variable array_like : Type.
Variable check_format_input_vector : array_like -> string -> outcome (list vec3).
Variable astype_int : list vec3 -> list face.
Variable self_str : string.
Variable BaseMagnet_init : outcome unit * list event.

Ltac run_init :=
  unfold reorient_faces, is_closed, is_connected, get_faces_subsets,
    _validate_error_arg, super_init, bind, ret, get, called, warn, raise, set_is_closed,
    set_is_connected, set_faces_subsets, set_faces, set_is_reoriented, modify, fresh;
  cbn.

(** [_input_check] returns exactly when both arguments are given and
    [check_format_input_vector] accepts both. *)
Lemma input_check_returns vertices faces v f :
  _input_check check_format_input_vector astype_int self_str vertices faces
  = Return (v, f)
  <-> exists a b t,
        vertices = Some a /\ faces = Some b
        /\ check_format_input_vector a "TriangularMesh.vertices" = Return v
        /\ check_format_input_vector b "TriangularMesh.faces" = Return t
        /\ f = astype_int t.
Proof.
  unfold _input_check. split.
  - destruct vertices as [a|]; [|discriminate].
    destruct faces as [b|]; [|discriminate].
    destruct (check_format_input_vector a _) as [v'|e] eqn:Ea; [|discriminate].
    destruct (check_format_input_vector b _) as [t|e] eqn:Eb; [|discriminate].
    intros E. injection E as <- <-. exists a, b, t. auto.
  - intros (a & b & t & -> & -> & Ea & Eb & ->). rewrite Ea, Eb. reflexivity.
Qed.

(** The constructor after an accepted input: the checks, the repair and
    the base constructor run on the object with unknown flags. *)
Lemma init_run vertices faces v f vc vn reorient :
  _input_check check_format_input_vector astype_int self_str vertices faces
  = Return (v, f) ->
  __init__ repr trimesh_is_closed get_disjoint_faces_subsets inwards
    check_format_input_vector astype_int self_str BaseMagnet_init
    vertices faces vc vn reorient
  = let '(o, self, ev) :=
      bind (if negb (String.eqb vc "ignore")
            then bind (is_closed repr trimesh_is_closed vc) (fun _ => ret tt)
            else ret tt)
        (fun _ =>
           bind (if negb (String.eqb vn "ignore")
                 then bind (is_connected repr get_disjoint_faces_subsets vn)
                        (fun _ => ret tt)
                 else ret tt)
             (fun _ =>
                bind (if reorient
                      then reorient_faces repr trimesh_is_closed inwards "warn"
                      else ret tt)
                  (fun _ => super_init BaseMagnet_init)))
        (fresh v f) in
    (o, Some self, ev).
Proof. intros H. unfold __init__. rewrite H. reflexivity. Qed.

(** X6.  [__init__] returns if and only if [_input_check] accepts the
    vertices and faces, both validation modes are among "warn", "raise"
    and "ignore", the mesh is closed when [validate_closed] is "raise" and
    connected when [validate_connected] is "raise", and the base
    constructor returns.  The object then has the vertices as checked, the
    faces as checked or as repaired, the reoriented flag as asked for, the
    closed flag known unless [validate_closed] is "ignore" and no
    reorientation was asked for, and the connected flag known unless
    [validate_connected] is "ignore".  When [_input_check] raises, the
    constructor raises the same exception before it has written anything. *)
Theorem init_outcome vertices faces vc vn reorient :
  let checked :=
    _input_check check_format_input_vector astype_int self_str vertices faces in
  let '(o, obj, ev) :=
    __init__ repr trimesh_is_closed get_disjoint_faces_subsets inwards
      check_format_input_vector astype_int self_str BaseMagnet_init
      vertices faces vc vn reorient in
  (o = Return tt <->
     exists v f, checked = Return (v, f)
       /\ In vc accepted_errors_vals
       /\ (vc = "raise" -> trimesh_is_closed f = true)
       /\ In vn accepted_errors_vals
       /\ (vn = "raise" -> Nat.eqb (List.length (get_disjoint_faces_subsets f)) 1 = true)
       /\ fst BaseMagnet_init = Return tt)
  /\ (o = Return tt ->
      exists v f self, checked = Return (v, f) /\ obj = Some self
        /\ _vertices self = v
        /\ _faces self = (if reorient then fix_trimesh_orientation inwards v f else f)
        /\ _is_reoriented self = reorient
        /\ _is_closed self
           = (if negb (String.eqb vc "ignore") || reorient
              then Some (trimesh_is_closed f) else None)
        /\ _is_connected self
           = (if negb (String.eqb vn "ignore")
              then Some (Nat.eqb (List.length (get_disjoint_faces_subsets f)) 1)
              else None))
  /\ (forall e, checked = Raise e -> o = Raise e /\ obj = None /\ ev = []).
Proof.
  cbv zeta.
  destruct (_input_check check_format_input_vector astype_int self_str vertices faces)
    as [[v f]|e0] eqn:Hin.
  2:{ unfold __init__. rewrite Hin.
      split; [split; [discriminate | intros (v & f & H & _); discriminate]|].
      split; [discriminate|]. intros e E. injection E as <-. auto. }
  rewrite (init_run _ _ _ _ vc vn reorient Hin).
  assert (K : forall x : outcome unit * option TriangularMesh * list event,
             (let '(o, obj, ev) := x in
             (o = Return tt <->
                In vc accepted_errors_vals
                /\ (vc = "raise" -> trimesh_is_closed f = true)
                /\ In vn accepted_errors_vals
                /\ (vn = "raise" ->
                    Nat.eqb (List.length (get_disjoint_faces_subsets f)) 1 = true)
                /\ fst BaseMagnet_init = Return tt)
             /\ (o = Return tt ->
                 exists self, obj = Some self
                   /\ _vertices self = v
                   /\ _faces self
                      = (if reorient then fix_trimesh_orientation inwards v f else f)
                   /\ _is_reoriented self = reorient
                   /\ _is_closed self
                      = (if negb (String.eqb vc "ignore") || reorient
                         then Some (trimesh_is_closed f) else None)
                   /\ _is_connected self
                      = (if negb (String.eqb vn "ignore")
                         then Some (Nat.eqb (List.length (get_disjoint_faces_subsets f)) 1)
                         else None))) ->
             let '(o, obj, ev) := x in
             (o = Return tt <->
                exists v' f', @Return (list vec3 * list face) (v, f) = Return (v', f')
                  /\ In vc accepted_errors_vals
                  /\ (vc = "raise" -> trimesh_is_closed f' = true)
                  /\ In vn accepted_errors_vals
                  /\ (vn = "raise" ->
                      Nat.eqb (List.length (get_disjoint_faces_subsets f')) 1 = true)
                  /\ fst BaseMagnet_init = Return tt)
             /\ (o = Return tt ->
                 exists v' f' self,
                   @Return (list vec3 * list face) (v, f) = Return (v', f')
                   /\ obj = Some self
                   /\ _vertices self = v'
                   /\ _faces self
                      = (if reorient then fix_trimesh_orientation inwards v' f' else f')
                   /\ _is_reoriented self = reorient
                   /\ _is_closed self
                      = (if negb (String.eqb vc "ignore") || reorient
                         then Some (trimesh_is_closed f') else None)
                   /\ _is_connected self
                      = (if negb (String.eqb vn "ignore")
                         then Some
                                (Nat.eqb (List.length (get_disjoint_faces_subsets f')) 1)
                         else None))
             /\ (forall e, @Return (list vec3 * list face) (v, f) = Raise e ->
                   o = Raise e /\ obj = None /\ ev = [])).
  { intros [[o obj] ev] [K1 K2]. split; [|split].
    - rewrite K1. split.
      + intros H. exists v, f. split; [reflexivity|exact H].
      + intros (v' & f' & E & H). injection E as <- <-. exact H.
    - intros H. destruct (K2 H) as (self & H'). exists v, f, self.
      split; [reflexivity|exact H'].
    - intros e E. discriminate E. }
  apply K. clear K.
  destruct (in_dec string_dec vc accepted_errors_vals) as [Hc|Hc].
  - destruct (in_dec string_dec vn accepted_errors_vals) as [Hn|Hn].
    + apply accepted_cases in Hc. apply accepted_cases in Hn.
      destruct Hc as [-> | [-> | ->]], Hn as [-> | [-> | ->]];
        destruct (trimesh_is_closed f) eqn:Ec;
        destruct (Nat.eqb (List.length (get_disjoint_faces_subsets f)) 1) eqn:En;
        destruct reorient; run_init; rewrite ?Ec, ?En; cbn; rewrite ?Ec, ?En; cbn;
        rewrite ?Ec, ?En; cbn;
        (split; [split; [intros H; try discriminate H; repeat split; cbn; auto;
                          intros; congruence
                        | intros (_ & H1 & _ & H2 & H3);
                          first [exact H3
                                | specialize (H1 eq_refl); discriminate
                                | specialize (H2 eq_refl); discriminate]]
                | intros H; try discriminate H; eexists; repeat split; cbn;
                  rewrite ?Ec; reflexivity]).
    + destruct (not_accepted_cases _ Hn) as (Ew & Er & Ei).
      apply accepted_cases in Hc.
      destruct Hc as [-> | [-> | ->]];
        destruct (trimesh_is_closed f) eqn:Ec; run_init; rewrite ?Ec, ?Ew, ?Er, ?Ei; cbn;
        rewrite ?Ec, ?Ew, ?Er, ?Ei; cbn;
        (split; [split; [intros H; discriminate H | intros (_ & _ & H & _); contradiction]
                | intros H; discriminate H]).
  - destruct (not_accepted_cases _ Hc) as (Ew & Er & Ei).
    run_init. rewrite ?Ew, ?Er, ?Ei. cbn. rewrite ?Ew, ?Er, ?Ei. cbn.
    split; [split; [intros H; discriminate H | intros (H & _); contradiction]
           | intros H; discriminate H].
Qed.

(** X7.  With both validation modes "ignore" and an input that
    [_input_check] accepts, [__init__] without reorientation calls nothing
    and warns of nothing before the base constructor runs.  With
    reorientation it still checks closedness: it warns that the mesh was
    not checked, calls [trimesh_is_closed], stores the answer, warns of an
    open mesh, and only then repairs the orientation; it never raises for
    that.  The outcome is that of the base constructor, whose events come
    last. *)
Theorem init_ignore_still_checks vertices faces v f :
  _input_check check_format_input_vector astype_int self_str vertices faces
  = Return (v, f) ->
  let closed := trimesh_is_closed f in
  __init__ repr trimesh_is_closed get_disjoint_faces_subsets inwards
    check_format_input_vector astype_int self_str BaseMagnet_init
    vertices faces "ignore" "ignore" false
  = (fst BaseMagnet_init, Some (fresh v f), snd BaseMagnet_init)
  /\ __init__ repr trimesh_is_closed get_disjoint_faces_subsets inwards
       check_format_input_vector astype_int self_str BaseMagnet_init
       vertices faces "ignore" "ignore" true
     = (fst BaseMagnet_init,
        Some (with_is_reoriented true
                (with_faces (fix_trimesh_orientation inwards v f)
                   (with_is_closed (Some closed) (fresh v f)))),
        ((Warning msg_unchecked :: Called "trimesh_is_closed"
            :: (if closed then [] else [Warning msg_open])
            ++ [Called "fix_trimesh_orientation"])
         ++ snd BaseMagnet_init)%list).
Proof.
  intros Hin. cbv zeta. rewrite !(init_run _ _ _ _ _ _ _ Hin).
  split; [reflexivity|].
  run_init. destruct (trimesh_is_closed f); reflexivity.
Qed.

(** X8.  On a disjoint mesh whose connectedness has not been checked and
    whose subsets are not cached, [is_connected] computes the subsets once,
    caches them and the flag [False], and then: with "warn" warns and
    returns [False]; with "raise" raises a ValueError; with "ignore" returns
    [False] silently.  Afterwards every accepted mode returns [False]
    silently and [get_faces_subsets] returns the cached subsets without
    computing. *)
Theorem is_connected_disjoint_mesh self :
  Nat.eqb (List.length (get_disjoint_faces_subsets (_faces self))) 1 = false ->
  _is_connected self = None -> _faces_subsets self = None ->
  let subsets := get_disjoint_faces_subsets (_faces self) in
  let self' := with_is_connected (Some false) (with_faces_subsets (Some subsets) self) in
  is_connected repr get_disjoint_faces_subsets "warn" self
  = (Return (Some false), self',
     [Called "get_disjoint_faces_subsets"; Warning msg_disjoint])
  /\ is_connected repr get_disjoint_faces_subsets "raise" self
     = (Raise (ValueError msg_disjoint), self', [Called "get_disjoint_faces_subsets"])
  /\ is_connected repr get_disjoint_faces_subsets "ignore" self
     = (Return (Some false), self', [Called "get_disjoint_faces_subsets"])
  /\ (forall errors, In errors accepted_errors_vals ->
        is_connected repr get_disjoint_faces_subsets errors self'
        = (Return (Some false), self', []))
  /\ get_faces_subsets get_disjoint_faces_subsets self' = (Return subsets, self', []).
Proof.
  intros Hd Hc Hs subsets self'.
  assert (Hw : In "warn" accepted_errors_vals) by (cbn; auto).
  assert (Hr : In "raise" accepted_errors_vals) by (cbn; auto).
  assert (Hi : In "ignore" accepted_errors_vals) by (cbn; auto).
  rewrite (is_connected_first repr get_disjoint_faces_subsets _ _ Hw Hc),
    (is_connected_first repr get_disjoint_faces_subsets _ _ Hr Hc),
    (is_connected_first repr get_disjoint_faces_subsets _ _ Hi Hc).
  rewrite Hs. cbv zeta. rewrite Hd. cbn.
  repeat split.
  - intros errors He. apply is_connected_cached; [exact He | reflexivity].
Qed.

(** X9.  When the subsets are cached already, [is_connected] judges
    connectedness by their number and never calls
    [get_disjoint_faces_subsets]: it only sets the connected flag. *)
Theorem is_connected_uses_cached_subsets errors self s :
  In errors accepted_errors_vals ->
  _is_connected self = None -> _faces_subsets self = Some s ->
  let '(o, self', ev) := is_connected repr get_disjoint_faces_subsets errors self in
  self' = with_is_connected (Some (Nat.eqb (List.length s) 1)) self
  /\ ~ In (Called "get_disjoint_faces_subsets") ev
  /\ (List.length s = 1 -> o = Return (Some true) /\ ev = []).
Proof.
  intros He Hc Hs.
  rewrite (is_connected_first repr get_disjoint_faces_subsets _ _ He Hc), Hs.
  cbv zeta.
  destruct (Nat.eqb (List.length s) 1) eqn:E.
  - split; [reflexivity|]. split; [intros []|]. intros _. split; reflexivity.
  - apply Nat.eqb_neq in E.
    destruct (String.eqb errors "warn"); [|destruct (String.eqb errors "raise")];
      (split; [reflexivity|]);
      (split; [intros H; first [destruct H as [H|[]]; discriminate H | destruct H]
              | intros H; contradiction]).
Qed.

(** X10.  [reorient_faces] leaves the connected flag and the cached
    subsets as they were, and a closed flag that was known stays what it
    was: the caches are not invalidated when the faces change, and
    [get_faces_subsets] afterwards still returns the subsets cached before,
    without computing. *)
Theorem reorient_faces_keeps_caches errors self :
  let '(o, self', ev) := reorient_faces repr trimesh_is_closed inwards errors self in
  _is_connected self' = _is_connected self
  /\ _faces_subsets self' = _faces_subsets self
  /\ (forall b, _is_closed self = Some b -> _is_closed self' = Some b)
  /\ (forall s, _faces_subsets self = Some s ->
        get_faces_subsets get_disjoint_faces_subsets self' = (Return s, self', [])).
Proof.
  assert (G : forall self', _faces_subsets self' = _faces_subsets self ->
            forall s, _faces_subsets self = Some s ->
              get_faces_subsets get_disjoint_faces_subsets self' = (Return s, self', [])).
  { intros self' E s Hs. rewrite get_faces_subsets_run, E, Hs. reflexivity. }
  destruct (_is_closed self) as [b|] eqn:Hc.
  - rewrite (reorient_faces_checked repr trimesh_is_closed inwards errors self b Hc).
    split; [reflexivity|]. split; [reflexivity|].
    split; [intros b' Hb; cbn; congruence | apply G; reflexivity].
  - rewrite (reorient_faces_unchecked repr trimesh_is_closed inwards errors self Hc).
    destruct (is_closed repr trimesh_is_closed errors self) as [[[x|e] self1] ev1] eqn:Hrun;
      destruct (is_closed_state repr trimesh_is_closed errors self _ _ _ Hrun) as [-> | [_ ->]];
      (split; [reflexivity|]); (split; [reflexivity|]);
      (split; [intros b' Hb; congruence | apply G; reflexivity]).
Qed.

(** *** The two checks do not read each other's cache *)

Ltac run_check :=
  unfold is_closed, is_connected, get_faces_subsets, _validate_error_arg, bind, ret,
    get, called, warn, raise, set_is_closed, set_is_connected, set_faces_subsets,
    modify;
  cbn -[msg_bad_arg msg_open msg_disjoint].

Ltac by_mode errors :=
  destruct (String.eqb errors "warn"), (String.eqb errors "raise"),
    (String.eqb errors "ignore");
  cbn -[msg_bad_arg msg_open msg_disjoint].

Lemma is_closed_frame_connected errors self b :
  is_closed repr trimesh_is_closed errors (with_is_connected b self)
  = let '(o, s', ev) := is_closed repr trimesh_is_closed errors self in
    (o, with_is_connected b s', ev).
Proof.
  destruct self as [vs fs cn cl ro sub]. run_check.
  by_mode errors; try reflexivity;
    destruct cl as [c|]; cbn -[msg_open]; try reflexivity;
    destruct (trimesh_is_closed fs); reflexivity.
Qed.

Lemma is_closed_frame_subsets errors self x :
  is_closed repr trimesh_is_closed errors (with_faces_subsets x self)
  = let '(o, s', ev) := is_closed repr trimesh_is_closed errors self in
    (o, with_faces_subsets x s', ev).
Proof.
  destruct self as [vs fs cn cl ro sub]. run_check.
  by_mode errors; try reflexivity;
    destruct cl as [c|]; cbn -[msg_open]; try reflexivity;
    destruct (trimesh_is_closed fs); reflexivity.
Qed.

Lemma is_connected_frame_closed errors self b :
  is_connected repr get_disjoint_faces_subsets errors (with_is_closed b self)
  = let '(o, s', ev) := is_connected repr get_disjoint_faces_subsets errors self in
    (o, with_is_closed b s', ev).
Proof.
  destruct self as [vs fs cn cl ro sub]. run_check.
  by_mode errors; try reflexivity;
    destruct cn as [c|]; cbn -[msg_disjoint]; try reflexivity;
    destruct sub as [x|]; cbn -[msg_disjoint];
    match goal with |- context [Nat.eqb ?n 1] => destruct (Nat.eqb n 1) end;
    reflexivity.
Qed.

(** What a call of [is_connected] can have written. *)
Lemma is_connected_state errors self o self' ev :
  is_connected repr get_disjoint_faces_subsets errors self = (o, self', ev) ->
  exists a x, self' = with_is_connected a (with_faces_subsets x self).
Proof.
  destruct self as [vs fs cn cl ro sub]. run_check.
  by_mode errors;
    try (intros E; injection E as _ <- _; exists cn, sub; reflexivity);
    destruct cn as [c|]; cbn -[msg_disjoint];
    try (intros E; injection E as _ <- _; exists (Some c), sub; reflexivity);
    destruct sub as [x|]; cbn -[msg_disjoint];
    match goal with |- context [Nat.eqb ?n 1] => destruct (Nat.eqb n 1) end;
    intros E; injection E as _ <- _; eexists _, (Some _); reflexivity.
Qed.

Lemma setters_commute a x b self :
  with_is_connected a (with_faces_subsets x (with_is_closed b self))
  = with_is_closed b (with_is_connected a (with_faces_subsets x self)).
Proof. reflexivity. Qed.

(** X11.  [is_closed] and [is_connected] do not interfere: when
    [is_closed] followed by [is_connected] returns, so does
    [is_connected] followed by [is_closed], with the same two values and
    the same object; only the events of the two calls come in the other
    order. *)
Theorem checks_commute errors1 errors2 self c d s ev :
  bind (is_closed repr trimesh_is_closed errors1)
    (fun c => bind (is_connected repr get_disjoint_faces_subsets errors2)
                (fun d => ret (c, d))) self
  = (Return (c, d), s, ev) ->
  exists ev1 ev2,
    ev = (ev1 ++ ev2)%list
    /\ bind (is_connected repr get_disjoint_faces_subsets errors2)
         (fun d => bind (is_closed repr trimesh_is_closed errors1)
                     (fun c => ret (c, d))) self
       = (Return (c, d), s, (ev2 ++ ev1)%list).
Proof.
  unfold bind at 1 2.
  destruct (is_closed repr trimesh_is_closed errors1 self) as [[[c0|e] s1] ev1] eqn:H1;
    [|discriminate].
  destruct (is_connected repr get_disjoint_faces_subsets errors2 s1) as [[[d0|e] s2] ev2] eqn:H2;
    [|discriminate].
  unfold ret. intros E. injection E as <- <- <- <-.
  exists ev1, ev2. rewrite app_nil_r. split; [reflexivity|].
  assert (K : exists s0, is_connected repr get_disjoint_faces_subsets errors2 self
                         = (Return d0, s0, ev2)
              /\ is_closed repr trimesh_is_closed errors1 s0 = (Return c0, s2, ev1)).
  { destruct (is_closed_state repr trimesh_is_closed errors1 self _ _ _ H1) as [-> | [_ ->]].
    - exists s2. split; [exact H2|].
      destruct (is_connected_state _ _ _ _ _ H2) as (a & x & ->).
      rewrite is_closed_frame_connected, is_closed_frame_subsets, H1. reflexivity.
    - rewrite is_connected_frame_closed in H2.
      destruct (is_connected repr get_disjoint_faces_subsets errors2 self)
        as [[o' s0] ev'] eqn:H3.
      injection H2 as -> <- ->. exists s0. split; [reflexivity|].
      destruct (is_connected_state _ _ _ _ _ H3) as (a & x & ->).
      rewrite is_closed_frame_connected, is_closed_frame_subsets, H1. reflexivity. }
  destruct K as (s0 & K1 & K2).
  unfold bind. rewrite K1, K2. unfold ret. rewrite app_nil_r. reflexivity.
Qed.

End WithMeshFunctions.

(** The open mesh of one triangle, constructed with both modes "ignore"
    and with reorientation: the closedness check runs and warns. *)
Lemma init_ignore_still_checks_witness :
  __init__ repr_plain trimesh_is_closed_spec get_disjoint_faces_subsets_spec
    never_inwards accept_array astype_int_trunc "TriangularMesh" base_returns
    (Some one_triangle_vertices) (Some one_triangle_faces) "ignore" "ignore" true
  = (Return tt,
     Some (with_is_reoriented true
             (with_faces one_triangle
                (with_is_closed (Some false)
                   (fresh one_triangle_vertices one_triangle)))),
     [Warning msg_unchecked; Called "trimesh_is_closed"; Warning msg_open;
      Called "fix_trimesh_orientation"]).
Proof.
  exact (proj2 (init_ignore_still_checks repr_plain trimesh_is_closed_spec
                  get_disjoint_faces_subsets_spec never_inwards (list vec3)
                  accept_array astype_int_trunc "TriangularMesh" base_returns
                  (Some one_triangle_vertices) (Some one_triangle_faces)
                  one_triangle_vertices one_triangle eq_refl)).
Defined.

Lemma is_connected_disjoint_mesh_witness :
  is_connected repr_plain get_disjoint_faces_subsets_spec "raise" (fresh [] two_triangles)
  = (Raise (ValueError msg_disjoint),
     with_is_connected (Some false)
       (with_faces_subsets (Some (get_disjoint_faces_subsets_spec two_triangles))
          (fresh [] two_triangles)),
     [Called "get_disjoint_faces_subsets"]).
Proof.
  exact (proj1 (proj2 (is_connected_disjoint_mesh repr_plain get_disjoint_faces_subsets_spec
                         (fresh [] two_triangles) eq_refl eq_refl eq_refl))).
Defined.

Lemma is_connected_uses_cached_subsets_witness :
  let self := with_faces_subsets (Some [one_triangle]) (fresh [] two_triangles) in
  is_connected repr_plain get_disjoint_faces_subsets_spec "raise" self
  = (Return (Some true), with_is_connected (Some true) self, []).
Proof.
  cbv zeta.
  pose proof (is_connected_uses_cached_subsets repr_plain get_disjoint_faces_subsets_spec "raise"
                (with_faces_subsets (Some [one_triangle]) (fresh [] two_triangles))
                [one_triangle] (or_intror (or_introl eq_refl)) eq_refl eq_refl) as H.
  destruct (is_connected repr_plain get_disjoint_faces_subsets_spec "raise"
              (with_faces_subsets (Some [one_triangle]) (fresh [] two_triangles)))
    as [[o s'] ev].
  destruct H as (-> & _ & H). destruct (H eq_refl) as [-> ->]. reflexivity.
Defined.

Lemma checks_commute_witness :
  exists ev1 ev2,
    [Called "trimesh_is_closed"; Warning msg_open; Called "get_disjoint_faces_subsets"]
    = (ev1 ++ ev2)%list
    /\ bind (is_connected repr_plain get_disjoint_faces_subsets_spec "warn")
         (fun d => bind (is_closed repr_plain trimesh_is_closed_spec "warn")
                     (fun c => ret (c, d))) (fresh [] one_triangle)
       = (Return (Some false, Some true),
          with_is_connected (Some true)
            (with_faces_subsets (Some (get_disjoint_faces_subsets_spec one_triangle))
               (with_is_closed (Some false) (fresh [] one_triangle))),
          (ev2 ++ ev1)%list).
Proof.
  apply (checks_commute repr_plain trimesh_is_closed_spec get_disjoint_faces_subsets_spec
           "warn" "warn" (fresh [] one_triangle)).
  reflexivity.
Defined.
End MeshExtras.

(** ** The order of binary64 *)

Module OrderFacts.
Import B64 disp_utility.

Lemma ltb_key x y :
  is_nan x = false -> is_nan y = false ->
  (SFltb x y = true <-> lex_lt (key x) (key y)).
Proof.
  unfold SFltb, SFcompare, lex_lt, key.
  destruct x as [sx|sx| |sx mx ex], y as [sy|sy| |sy my ey]; try discriminate;
    intros _ _;
    repeat match goal with s : bool |- _ => destruct s end;
    try (split; [discriminate | lia]); try (split; [intros _; lia | reflexivity]).
  all: destruct (Z.compare_spec ex ey) as [He|He|He];
    change (Pos.compare_cont Eq mx my) with (Pos.compare mx my);
    try destruct (Pos.compare_spec mx my) as [Hm|Hm|Hm]; cbn;
    split; try discriminate; try reflexivity; try lia; intros _; lia.
Qed.

Lemma leb_key x y :
  is_nan x = false -> is_nan y = false ->
  (SFleb x y = true <-> lex_le (key x) (key y)).
Proof.
  unfold SFleb, SFcompare, lex_le, lex_lt, key.
  destruct x as [sx|sx| |sx mx ex], y as [sy|sy| |sy my ey]; try discriminate;
    intros _ _;
    repeat match goal with s : bool |- _ => destruct s end;
    try (split; [discriminate | lia]); try (split; [intros _; lia | reflexivity]).
  all: destruct (Z.compare_spec ex ey) as [He|He|He];
    change (Pos.compare_cont Eq mx my) with (Pos.compare mx my);
    try destruct (Pos.compare_spec mx my) as [Hm|Hm|Hm]; cbn;
    split; try discriminate; try reflexivity; try lia; intros _; lia.
Qed.

Lemma lex_le_trans a b c : lex_le a b -> lex_le b c -> lex_le a c.
Proof.
  destruct a as [[a1 a2] a3], b as [[b1 b2] b3], c as [[c1 c2] c3].
  unfold lex_le, lex_lt. lia.
Qed.

Lemma lex_le_refl a : lex_le a a.
Proof. destruct a as [[a1 a2] a3]. unfold lex_le, lex_lt. lia. Qed.

Lemma leb_trans x y z :
  is_nan x = false -> is_nan y = false -> is_nan z = false ->
  SFleb x y = true -> SFleb y z = true -> SFleb x z = true.
Proof.
  intros Hx Hy Hz H1 H2.
  apply (leb_key x z Hx Hz).
  apply (lex_le_trans _ (key y)); [apply (leb_key x y) | apply (leb_key y z)]; assumption.
Qed.

Lemma leb_refl x : is_nan x = false -> SFleb x x = true.
Proof. intros Hx. apply (leb_key x x Hx Hx), lex_le_refl. Qed.

Lemma not_ltb_leb x y :
  is_nan x = false -> is_nan y = false -> SFltb y x = false -> SFleb x y = true.
Proof.
  intros Hx Hy H. apply (leb_key x y Hx Hy). unfold lex_le. intros L.
  apply (ltb_key y x Hy Hx) in L. congruence.
Qed.

Lemma ltb_leb x y :
  is_nan x = false -> is_nan y = false -> SFltb x y = true -> SFleb x y = true.
Proof.
  intros Hx Hy H. apply (leb_key x y Hx Hy). apply (ltb_key x y Hx Hy) in H.
  destruct (key x) as [[a1 a2] a3], (key y) as [[b1 b2] b3].
  unfold lex_le, lex_lt in *. lia.
Qed.

End OrderFacts.

(** ** disp_utility.py *)

Module DisplayFacts.
Import B64 class_magnet_TriangularMesh disp_utility OrderFacts.

Lemma minimum_number x y :
  number x -> number y ->
  number (minimum x y) /\ (minimum x y = x \/ minimum x y = y)
  /\ SFleb (minimum x y) x = true /\ SFleb (minimum x y) y = true.
Proof.
  unfold number, minimum. intros Hx Hy. rewrite Hx, Hy.
  destruct (SFltb y x) eqn:E.
  - repeat split; auto; [apply ltb_leb | apply leb_refl]; assumption.
  - repeat split; auto; [apply leb_refl | apply not_ltb_leb]; assumption.
Qed.

Lemma maximum_number x y :
  number x -> number y ->
  number (maximum x y) /\ (maximum x y = x \/ maximum x y = y)
  /\ SFleb x (maximum x y) = true /\ SFleb y (maximum x y) = true.
Proof.
  unfold number, maximum. intros Hx Hy. rewrite Hx, Hy.
  destruct (SFltb x y) eqn:E.
  - repeat split; auto; [apply ltb_leb | apply leb_refl]; assumption.
  - repeat split; auto; [apply leb_refl | apply not_ltb_leb]; assumption.
Qed.

Lemma fold_minimum_number l : forall x,
  number x -> Forall number l ->
  let m := fold_left minimum l x in
  number m /\ In m (x :: l) /\ Forall (fun c => SFleb m c = true) (x :: l).
Proof.
  induction l as [|y l IH]; intros x Hx Hl; cbn [fold_left].
  - split; [exact Hx|]. split; [left; reflexivity|].
    constructor; [apply leb_refl, Hx | constructor].
  - inversion Hl as [|? ? Hy Hl']; subst.
    destruct (minimum_number x y Hx Hy) as (Hm & Hsel & Hmx & Hmy).
    destruct (IH (minimum x y) Hm Hl') as (Hn & Hin & Hall).
    inversion Hall as [|? ? H0 Hrest]; subst.
    split; [exact Hn|]. split.
    + destruct Hin as [E | Hin]; [|right; right; exact Hin].
      destruct Hsel as [S | S]; [left | right; left]; rewrite <- E; symmetry; exact S.
    + constructor; [|constructor]; try exact Hrest.
      * apply (leb_trans _ (minimum x y)); assumption.
      * apply (leb_trans _ (minimum x y)); assumption.
Qed.

Lemma fold_maximum_number l : forall x,
  number x -> Forall number l ->
  let m := fold_left maximum l x in
  number m /\ In m (x :: l) /\ Forall (fun c => SFleb c m = true) (x :: l).
Proof.
  induction l as [|y l IH]; intros x Hx Hl; cbn [fold_left].
  - split; [exact Hx|]. split; [left; reflexivity|].
    constructor; [apply leb_refl, Hx | constructor].
  - inversion Hl as [|? ? Hy Hl']; subst.
    destruct (maximum_number x y Hx Hy) as (Hm & Hsel & Hmx & Hmy).
    destruct (IH (maximum x y) Hm Hl') as (Hn & Hin & Hall).
    inversion Hall as [|? ? H0 Hrest]; subst.
    split; [exact Hn|]. split.
    + destruct Hin as [E | Hin]; [|right; right; exact Hin].
      destruct Hsel as [S | S]; [left | right; left]; rewrite <- E; symmetry; exact S.
    + constructor; [|constructor]; try exact Hrest.
      * apply (leb_trans _ (maximum x y)); assumption.
      * apply (leb_trans _ (maximum x y)); assumption.
Qed.

Lemma minimum_nan_l y : minimum nan y = nan.
Proof. reflexivity. Qed.
Lemma minimum_nan_r x : minimum x nan = nan.
Proof. destruct x; reflexivity. Qed.
Lemma maximum_nan_l y : maximum nan y = nan.
Proof. reflexivity. Qed.
Lemma maximum_nan_r x : maximum x nan = nan.
Proof. destruct x; reflexivity. Qed.

Lemma fold_minimum_nan l : fold_left minimum l nan = nan.
Proof. induction l as [|y l IH]; cbn [fold_left]; [reflexivity | exact IH]. Qed.
Lemma fold_maximum_nan l : fold_left maximum l nan = nan.
Proof. induction l as [|y l IH]; cbn [fold_left]; [reflexivity | exact IH]. Qed.

Lemma fold_minimum_has_nan l : forall x,
  In nan (x :: l) -> fold_left minimum l x = nan.
Proof.
  induction l as [|y l IH]; intros x [E | H]; cbn [fold_left].
  - exact E.
  - destruct H.
  - rewrite E. apply fold_minimum_nan.
  - destruct H as [E | H].
    + rewrite E, minimum_nan_r. apply fold_minimum_nan.
    + apply IH. right. exact H.
Qed.

Lemma fold_maximum_has_nan l : forall x,
  In nan (x :: l) -> fold_left maximum l x = nan.
Proof.
  induction l as [|y l IH]; intros x [E | H]; cbn [fold_left].
  - exact E.
  - destruct H.
  - rewrite E. apply fold_maximum_nan.
  - destruct H as [E | H].
    + rewrite E, maximum_nan_r. apply fold_maximum_nan.
    + apply IH. right. exact H.
Qed.

Lemma fold_app_concat {A} (ls : list (list A)) : forall acc,
  fold_left (fun pts face => pts ++ face) ls acc = acc ++ List.concat ls.
Proof.
  induction ls as [|l ls IH]; intros acc; cbn [fold_left List.concat].
  - rewrite app_nil_r. reflexivity.
  - rewrite IH, app_assoc. reflexivity.
Qed.

Lemma guarded_app {A} (pts l : list A) :
  (if Nat.ltb 0 (List.length l) then pts ++ l else pts) = pts ++ l.
Proof. destruct l; [rewrite app_nil_r; reflexivity | reflexivity]. Qed.

Lemma collect_points_all face_points pix_points markers path_points :
  collect_points face_points pix_points markers path_points
  = List.concat face_points ++ markers ++ pix_points ++ path_points.
Proof.
  unfold collect_points. rewrite !guarded_app, fold_app_concat.
  cbn [app]. rewrite <- !app_assoc. reflexivity.
Qed.

Lemma entries_nil pts : entries pts = [] <-> pts = [].
Proof.
  destruct pts; cbn; split; intros H; try reflexivity; discriminate H.
Qed.

Lemma number_or_nan x : number x \/ x = nan.
Proof. destruct x; (left; reflexivity) || (right; reflexivity). Qed.

Lemma all_numbers_or_nan (l : list F) : Forall number l \/ In nan l.
Proof.
  induction l as [|x l IH]; [left; constructor|].
  destruct (number_or_nan x) as [H | ->]; [|right; left; reflexivity].
  destruct IH as [IH | IH]; [left; constructor; assumption | right; right; exact IH].
Qed.

(** X12.  [system_size] raises a ValueError if and only if there is no
    point at all (no vertex of any face, no marker, no pixel, no path
    point).  Otherwise it returns two limits: both NaN when some
    coordinate is NaN; else two of the coordinates, the first at most and
    the second at least every coordinate of every point, all three axes
    taken together. *)
Theorem system_size_limits face_points pix_points markers path_points :
  let pts := List.concat face_points ++ markers ++ pix_points ++ path_points in
  let cs := entries pts in
  (pts = [] ->
   exists msg, system_size face_points pix_points markers path_points
               = Raise (ValueError msg))
  /\ (pts <> [] ->
      exists lim0 lim1,
        system_size face_points pix_points markers path_points = Return (lim0, lim1)
        /\ (In nan cs -> lim0 = nan /\ lim1 = nan)
        /\ (Forall number cs ->
            In lim0 cs /\ In lim1 cs
            /\ Forall (fun c => SFleb lim0 c = true /\ SFleb c lim1 = true) cs)).
Proof.
  intros pts cs. unfold system_size. rewrite collect_points_all. fold pts. fold cs.
  split.
  - intros E. subst cs. rewrite E. cbn. eexists. reflexivity.
  - intros Hne. destruct cs as [|x cs'] eqn:Ecs.
    { apply entries_nil in Ecs. contradiction. }
    cbn [amin amax]. do 2 eexists. split; [reflexivity|]. split.
    + intros Hnan. split; [apply fold_minimum_has_nan | apply fold_maximum_has_nan];
        exact Hnan.
    + intros Hall. inversion Hall as [|? ? Hx Hrest]; subst.
      destruct (fold_minimum_number cs' x Hx Hrest) as (_ & Hin0 & Hle0).
      destruct (fold_maximum_number cs' x Hx Hrest) as (_ & Hin1 & Hle1).
      split; [exact Hin0|]. split; [exact Hin1|].
      rewrite Forall_forall in *. intros c Hc. split; auto.
Qed.

Lemma last_item_none {A} (l : list A) : last_item l = None -> l = [].
Proof.
  unfold last_item. intros H. destruct (rev l) eqn:E; [|discriminate].
  rewrite <- (rev_involutive l), E. reflexivity.
Qed.

Ltac differ_in k :=
  exists k; split; [lia|];
  let k' := fresh "k" in
  intros k' ? ?; destruct k' as [|[|[|?]]]; try lia; reflexivity.

(** X13.  [faces_box] fails only on a source whose path is empty.
    Otherwise it returns six faces of four corners, the placed images of
    the corners of the box: the corners of each face share one coordinate
    before placement (they lie on one side of the box), cyclically
    consecutive corners of a face differ in one coordinate only (they are
    joined by an edge), and every corner belongs to three faces. *)
Theorem faces_box_sides src :
  match faces_box src with
  | None => _rot src = [] \/ _pos src = []
  | Some faces =>
      exists rot pos,
        last_item (_rot src) = Some rot /\ last_item (_pos src) = Some pos
        /\ let place p := t3map2 add (rot p) pos in
           let local :=
             map (map (fun i => nth i (box_corners (dim src)) (nan, nan, nan)))
               box_faces in
           faces = map (map place) local
           /\ List.length faces = 6
           /\ Forall (fun f => List.length f = 4) faces
           /\ Forall (fun f => exists k c, k < 3 /\ Forall (fun p => coord k p = c) f)
                local
           /\ Forall (fun f =>
                Forall (fun pq => exists k, k < 3 /\ forall k', k' < 3 -> k' <> k ->
                          coord k' (fst pq) = coord k' (snd pq))
                  (cyclic_pairs f)) local
           /\ forall i, i < 8 -> count_occ Nat.eq_dec (List.concat box_faces) i = 3
  end.
Proof.
  unfold faces_box.
  destruct (last_item (_rot src)) as [rot|] eqn:Er.
  2: { left. apply last_item_none, Er. }
  destruct (last_item (_pos src)) as [pos|] eqn:Ep.
  2: { right. apply last_item_none, Ep. }
  exists rot, pos. split; [reflexivity|]. split; [reflexivity|].
  destruct (dim src) as [[a b] c]. cbv zeta.
  split; [reflexivity|]. split; [reflexivity|].
  split; [repeat constructor|].
  split.
  - unfold box_faces, box_corners. cbn [map nth t3map t3map2 t3_0 t3_1 t3_2 fst snd].
    constructor; [exists 2; eexists; split; [lia|]; repeat constructor|].
    constructor; [exists 1; eexists; split; [lia|]; repeat constructor|].
    constructor; [exists 0; eexists; split; [lia|]; repeat constructor|].
    constructor; [exists 1; eexists; split; [lia|]; repeat constructor|].
    constructor; [exists 2; eexists; split; [lia|]; repeat constructor|].
    constructor; [exists 0; eexists; split; [lia|]; repeat constructor|].
    constructor.
  - split.
    + unfold box_faces, box_corners, cyclic_pairs.
      cbn [map nth t3map t3map2 t3_0 t3_1 t3_2 fst snd app combine].
      repeat (constructor;
              [repeat (constructor;
                       [first [differ_in 0 | differ_in 1 | differ_in 2]|]);
               constructor|]).
      constructor.
    + intros i Hi. do 8 (destruct i as [|i]; [reflexivity|]). lia.
Qed.

End DisplayFacts.
